(** * camFusion_Student.cpp: lidar/camera fusion for time-to-collision

    A shallow embedding of [src/camFusion_Student.cpp] and the properties
    its design document states about it.  The last part states further
    properties of the code: when each function has a result, what it
    keeps, and how the functions compose.

    Conventions of the embedding.
    - C++ [double] is Rocq's primitive binary64 [float]; every arithmetic
      operation and comparison is the IEEE 754 one.  C++ [float] values are
      binary64 values rounded to binary32 by [to_float32] after each
      single-precision operation.
    - C++ [int] is [Z].  Point indices handed to the k-d tree are the loop
      counters of [removeLidarOutlier]; they are [nat].
    - A computation whose C++ behaviour is undefined or that throws
      (out-of-range index, dereferencing [end()], use of an iterator that
      [erase] has invalidated, a conversion to [int] of a value that does
      not fit) returns [None].
    - [std::vector] is [list]; [std::map<int,int>] is an association list
      kept in increasing key order, because [get_max] depends on the
      iteration order of the map. *)

From Stdlib Require Import ZArith Floats Sorted.
From stdpp Require Import base option list relations sorting.

Local Open Scope Z_scope.

(** ** C++ arithmetic conversions *)

Module Cxx.

(** [int] or [size_t] to [double]. *)
Definition double_of_Z (z : Z) : float :=
  SF2Prim (binary_normalize prec emax z 0 false).

(** [double] to [float]: rounding to the nearest binary32 value. *)
Definition to_float32 (f : float) : float :=
  match Prim2SF f with
  | S754_finite s m e =>
      SF2Prim (binary_normalize 24 128 (cond_Zopp s (Zpos m)) e s)
  | _ => f
  end.

(** [int] to [float]. *)
Definition float32_of_Z (z : Z) : float := to_float32 (double_of_Z z).

Definition int_min : Z := - 2147483648.
Definition int_max : Z := 2147483647.

(** [double] (or [float]) to [int]: truncation toward zero, undefined
    when the truncated value is not an [int]. *)
Definition to_int (f : float) : option Z :=
  match Prim2SF f with
  | S754_zero _ => Some 0
  | S754_finite s m e =>
      let v := if 0 <=? e then Z.shiftl (Zpos m) e
               else Z.shiftr (Zpos m) (- e) in
      let z := if s then - v else v in
      if (int_min <=? z) && (z <=? int_max) then Some z else None
  | _ => None
  end.

(** The specification-level test behind [is_nan]. *)
Definition SFis_nan (x : spec_float) : bool :=
  match x with S754_nan => true | _ => false end.

(** Neither NaN nor infinite; and, more narrowly, not zero either. *)
Definition SFis_finite (x : spec_float) : bool :=
  match x with S754_finite _ _ _ | S754_zero _ => true | _ => false end.

Definition SFis_finite_nonzero (x : spec_float) : bool :=
  match x with S754_finite _ _ _ => true | _ => false end.

Definition is_finite (f : float) : bool := SFis_finite (Prim2SF f).
Definition is_finite_nonzero (f : float) : bool := SFis_finite_nonzero (Prim2SF f).

(** [numeric_limits<double>::epsilon()], 2^-52. *)
Definition epsilon : float := Z.ldexp 1%float (-52).

(** [vector::at] and [vector::operator[]] at an [int] index. *)
Definition at_ {A} (v : list A) (i : Z) : option A :=
  if i <? 0 then None else v !! Z.to_nat i.

End Cxx.

(** Sequencing of a loop body over a vector, stopping at the first
    undefined step. *)
Fixpoint foldlM {A B} (f : A → B → option A) (a : A) (l : list B) : option A :=
  match l with
  | [] => Some a
  | b :: l' => a' ← f a b; foldlM f a' l'
  end.

(** ** OpenCV types and operations used by the source *)

Module cv.

(** [cv::Point2f]. *)
Record Point2f := { pf_x : float; pf_y : float }.

(** [cv::Point] ([Point_<int>]). *)
Record Point := { pt_x : Z; pt_y : Z }.

(** [cv::Rect] ([Rect_<int>]). *)
Record Rect := { rect_x : Z; rect_y : Z; rect_width : Z; rect_height : Z }.

(** [cv::KeyPoint], reduced to its location. *)
Record KeyPoint := { pt : Point2f }.

(** [cv::DMatch], reduced to the two keypoint indices. *)
Record DMatch := { queryIdx : Z; trainIdx : Z }.

(** [Rect::contains(Point)]: left and top edges inclusive, right and
    bottom edges exclusive. *)
Definition contains (r : Rect) (p : Point) : bool :=
  (rect_x r <=? pt_x p) && (pt_x p <? rect_x r + rect_width r) &&
  (rect_y r <=? pt_y p) && (pt_y p <? rect_y r + rect_height r).

(** [cvRound]: nearest integer, ties to even; [INT_MIN] when the value
    is not an [int]. *)
Definition cvRound (f : float) : Z :=
  match Prim2SF f with
  | S754_zero _ => 0
  | S754_finite s m e =>
      let v :=
        if 0 <=? e then Z.shiftl (Zpos m) e
        else
          let d := Z.shiftl 1 (- e) in
          let q := Zpos m / d in
          let r := Zpos m mod d in
          if 2 * r <? d then q
          else if d <? 2 * r then q + 1
          else if Z.even q then q else q + 1 in
      let z := if s then - v else v in
      if (Cxx.int_min <=? z) && (z <=? Cxx.int_max) then z else Cxx.int_min
  | _ => Cxx.int_min
  end.

(** The conversion [Point2f] to [Point] that [Rect::contains] applies to
    a keypoint location. *)
Definition Point_of_Point2f (p : Point2f) : Point :=
  {| pt_x := cvRound (pf_x p); pt_y := cvRound (pf_y p) |}.

Definition contains2f (r : Rect) (p : Point2f) : bool :=
  contains r (Point_of_Point2f p).

(** [a - b] on [Point2f]: single-precision subtraction. *)
Definition Point2f_sub (a b : Point2f) : Point2f :=
  {| pf_x := Cxx.to_float32 (pf_x a - pf_x b);
     pf_y := Cxx.to_float32 (pf_y a - pf_y b) |}.

(** [cv::norm(Point2f)], computed in double precision. *)
Definition norm (p : Point2f) : float :=
  PrimFloat.sqrt (pf_x p * pf_x p + pf_y p * pf_y p).

(** [cv::Mat] of [double]: dimensions and row-major data. *)
Record Mat := { rows : nat; cols : nat; data : list float }.

(** [Mat::at<double>(i0, i1)]: OpenCV computes the address
    [data + i0 * step + i1 * sizeof(double)], in a continuous matrix the
    element at offset [i0 * cols + i1], and checks [i0] and [i1] against
    the dimensions in debug builds only.  An offset outside the data is
    undefined. *)
Definition Mat_at (m : Mat) (i0 i1 : nat) : option float :=
  data m !! (i0 * cols m + i1)%nat.

(** The entry in row [i], column [j], with both indices checked. *)
Definition Mat_entry (m : Mat) (i j : nat) : option float :=
  if decide (i < rows m ∧ j < cols m)%nat
  then data m !! (i * cols m + j)%nat else None.

Definition dot (a b : list float) : float :=
  foldl (λ s ab, (s + ab.1 * ab.2)%float) 0%float (zip a b).

Definition Mat_row (m : Mat) (i : nat) : list float :=
  take (cols m) (drop (i * cols m) (data m)).

Definition Mat_col (m : Mat) (j : nat) : list float :=
  omap (λ i, data m !! (i * cols m + j)%nat) (seq 0 (rows m)).

(** [a * b]: the matrix product, each entry the sum of the products of a
    row and a column taken from the first index on; it throws when the
    inner dimensions differ. *)
Definition Mat_mul (a b : Mat) : option Mat :=
  if decide (cols a = rows b) then
    Some {| rows := rows a; cols := cols b;
            data := i ← seq 0 (rows a); j ← seq 0 (cols b);
                    [dot (Mat_row a i) (Mat_col b j)] |}
  else None.

End cv.

Export cv.

(** ** Data structures of the repository ([dataStructures.h]) *)

(** Modelled from the spec: [LidarPoint] is declared in [dataStructures.h],
    which is not among the sources; the data model gives a point its
    coordinates [x], [y], [z] and a payload (the reflectivity [r]). *)
Record LidarPoint := { lp_x : float; lp_y : float; lp_z : float; lp_r : float }.

(** Modelled from the spec: [BoundingBox] is declared in
    [dataStructures.h]; the data model gives a region its identifier, its
    rectangle and the two collections the assigners fill. *)
Record BoundingBox := {
  boxID : Z;
  roi : Rect;
  lidarPoints : list LidarPoint;
  kptMatches : list DMatch
}.

(** Modelled from the spec: [DataFrame] is declared in [dataStructures.h];
    [matchBoundingBoxes] reads a frame's keypoints and regions. *)
Record DataFrame := {
  keypoints : list KeyPoint;
  boundingBoxes : list BoundingBox
}.

(** ** The k-d tree ([KdTree], declared outside the sources)

    [removeLidarOutlier] creates a tree, inserts every point under its
    index and hands the tree to [euclideanCluster]; [clusterHelper] calls
    [search].  The tree is a parameter of the embedding. *)
Class KdTreeOps := {
  KdTree : Type;
  kd_new : KdTree;
  kd_insert : KdTree → list float → nat → KdTree;
  kd_search : KdTree → list float → float → list nat
}.

(** What the clustering needs of a tree: a search reports only ids that
    were inserted. *)
Class KdTreeSound (K : KdTreeOps) : Prop := {
  kd_search_new : ∀ target tol, kd_search kd_new target tol = [];
  kd_search_insert : ∀ t point i target tol id,
    id ∈ kd_search (kd_insert t point i) target tol →
    id = i ∨ id ∈ kd_search t target tol
}.

(** Modelled from the spec: the contract of the spatial index, [search]
    returns the inserted ids whose point lies within Euclidean distance
    [radius] of the target (closed ball), realised by a linear scan over
    the inserted points in insertion order. *)
Module ScanIndex.

Definition distance (a b : list float) : float :=
  Cxx.to_float32
    (PrimFloat.sqrt
       (foldl (λ s ab, Cxx.to_float32
                 (s + Cxx.to_float32
                        (Cxx.to_float32 (ab.1 - ab.2) * Cxx.to_float32 (ab.1 - ab.2))))
              0%float (zip a b))).

Definition search (t : list (list float * nat)) (target : list float)
    (radius : float) : list nat :=
  omap (λ e, if (distance e.1 target <=? radius)%float then Some e.2 else None) t.

Definition ops : KdTreeOps := {|
  KdTree := list (list float * nat);
  kd_new := [];
  kd_insert t point i := t ++ [(point, i)];
  kd_search := search
|}.

End ScanIndex.

(** ** std::map<int,int> *)

Abbreviation std_map := (list (Z * Z)).

(** [m.count(k)] and [m.find(k)]. *)
Fixpoint map_find (k : Z) (m : std_map) : option Z :=
  match m with
  | [] => None
  | (k', v) :: m' => if decide (k' = k) then Some v else map_find k m'
  end.

(** [m[k] = v]: overwrite the entry of [k], or insert it at its place in
    key order. *)
Fixpoint map_set (k v : Z) (m : std_map) : std_map :=
  match m with
  | [] => [(k, v)]
  | (k', v') :: m' =>
      if decide (k < k') then (k, v) :: (k', v') :: m'
      else if decide (k = k') then (k, v) :: m'
      else (k', v') :: map_set k v m'
  end.

(** [std::max_element] with the comparison of [get_max]: the first element
    that no later element exceeds; [end()] on an empty range. *)
Definition max_element (m : std_map) : option (Z * Z) :=
  match m with
  | [] => None
  | e :: rest => Some (foldl (λ largest e', if largest.2 <? e'.2 then e' else largest) e rest)
  end.

(** [std::sort] on doubles with [operator<], as an insertion sort. *)
Fixpoint sort_insert (x : float) (l : list float) : list float :=
  match l with
  | [] => [x]
  | y :: l' => if (x <? y)%float then x :: y :: l' else y :: sort_insert x l'
  end.

Definition sort (l : list float) : list float := foldr sort_insert [] l.

(** ** clusterLidarWithROI *)

(** The rectangle [smallerBox] that the loop over the regions computes:
    the products with [shrinkFactor] are single-precision, the division by
    [2.0] and the sum with [roi.x] are double-precision, and each result
    is truncated to an [int] field of the [cv::Rect]. *)
Definition smallerBox (shrinkFactor : float) (r : Rect) : option Rect :=
  let half_margin (extent : Z) : float :=
    (Cxx.to_float32 (shrinkFactor * Cxx.float32_of_Z extent) / 2)%float in
  let scaled (extent : Z) : float :=
    Cxx.to_float32
      (Cxx.float32_of_Z extent * Cxx.to_float32 (1 - shrinkFactor))%float in
  x ← Cxx.to_int (Cxx.double_of_Z (rect_x r) + half_margin (rect_width r))%float;
  y ← Cxx.to_int (Cxx.double_of_Z (rect_y r) + half_margin (rect_height r))%float;
  w ← Cxx.to_int (scaled (rect_width r));
  h ← Cxx.to_int (scaled (rect_height r));
  Some {| rect_x := x; rect_y := y; rect_width := w; rect_height := h |}.

(** Lines 24-33: the homogeneous vector [X], the product
    [P_rect_xx * R_rect_xx * RT * X] and the pixel coordinates, each
    quotient truncated to the [int] field of the [cv::Point]. *)
Definition project (P_rect_xx R_rect_xx RT : Mat) (p : LidarPoint) : option Point :=
  let X := {| rows := 4; cols := 1;
              data := [lp_x p; lp_y p; lp_z p; 1%float] |} in
  PR ← Mat_mul P_rect_xx R_rect_xx;
  PRRT ← Mat_mul PR RT;
  Y ← Mat_mul PRRT X;
  y00 ← Mat_at Y 0 0;
  y02 ← Mat_at Y 0 2;
  y10 ← Mat_at Y 1 0;
  px ← Cxx.to_int (y00 / y02)%float;
  py ← Cxx.to_int (y10 / y02)%float;
  Some {| pt_x := px; pt_y := py |}.

(** The positions (from [i] on) of the regions whose shrunk rectangle
    contains [p]: the vector [enclosingBoxes]. *)
Fixpoint enclosingBoxes (i : nat) (boxes : list BoundingBox)
    (shrinkFactor : float) (p : Point) : option (list nat) :=
  match boxes with
  | [] => Some []
  | b :: boxes' =>
      small ← smallerBox shrinkFactor (roi b);
      rest ← enclosingBoxes (S i) boxes' shrinkFactor p;
      Some (if contains small p then i :: rest else rest)
  end.

(** [box.lidarPoints.push_back(p)]. *)
Definition push_lidarPoint (p : LidarPoint) (b : BoundingBox) : BoundingBox :=
  {| boxID := boxID b; roi := roi b;
     lidarPoints := lidarPoints b ++ [p]; kptMatches := kptMatches b |}.

(** The body of the loop over the lidar points. *)
Definition assignLidarPoint (shrinkFactor : float) (P_rect_xx R_rect_xx RT : Mat)
    (boxes : list BoundingBox) (p : LidarPoint) : option (list BoundingBox) :=
  q ← project P_rect_xx R_rect_xx RT p;
  enclosing ← enclosingBoxes 0 boxes shrinkFactor q;
  match enclosing with
  | [i] => Some (alter (push_lidarPoint p) i boxes)
  | _ => Some boxes
  end.

Definition clusterLidarWithROI (boxes : list BoundingBox)
    (points : list LidarPoint) (shrinkFactor : float)
    (P_rect_xx R_rect_xx RT : Mat) : option (list BoundingBox) :=
  foldlM (assignLidarPoint shrinkFactor P_rect_xx R_rect_xx RT) boxes points.

(** ** clusterKptMatchesWithROI *)

(** [cv::norm(kpCurr.pt - kpPrev.pt)] for the two keypoints of a match,
    both fetched with [at]. *)
Definition match_dist (kptsPrev kptsCurr : list KeyPoint) (it : DMatch) : option float :=
  kpCurr ← Cxx.at_ kptsCurr (trainIdx it);
  kpPrev ← Cxx.at_ kptsPrev (queryIdx it);
  Some (norm (Point2f_sub (pt kpCurr) (pt kpPrev))).

(** [constexpr double ratio = 1.5]. *)
Definition ratio : float := 1.5%float.

(** The loop of lines 156-169 over the part of the vector from [it] to
    [end()].  [erase(it)] at line 163 removes the element and invalidates
    [it], as it does every iterator at or after the erased position; the
    source drops the iterator that [erase] returns and goes on to compare
    [it] with [end()], which is undefined.  The loop therefore has a
    result only when it erases nothing, and the vector is then what it
    was. *)
Fixpoint erase_loop (kptsPrev kptsCurr : list KeyPoint)
    (mean : float) (v : list DMatch) : option (list DMatch) :=
  match v with
  | [] => Some []
  | it :: v' =>
      dist ← match_dist kptsPrev kptsCurr it;
      if (mean * ratio <=? dist)%float
      then None
      else kept ← erase_loop kptsPrev kptsCurr mean v'; Some (it :: kept)
  end.

(** Lines 136-141: the matches whose current keypoint is in the region. *)
Definition assign_matches (r : Rect) (kptsCurr : list KeyPoint)
    (assigned : list DMatch) (matches : list DMatch) : option (list DMatch) :=
  foldlM (λ acc m,
            currKeyPoint ← Cxx.at_ kptsCurr (trainIdx m);
            Some (if contains2f r (pt currKeyPoint) then acc ++ [m] else acc))
         assigned matches.

(** Lines 143-151: the sum of the displacements. *)
Definition sum_dist (kptsPrev kptsCurr : list KeyPoint) (v : list DMatch) : option float :=
  foldlM (λ sum it, dist ← match_dist kptsPrev kptsCurr it; Some (sum + dist)%float)
         0%float v.

Definition mean_dist (sum : float) (v : list DMatch) : float :=
  (sum / Cxx.double_of_Z (Z.of_nat (length v)))%float.

Definition clusterKptMatchesWithROI (boundingBox : BoundingBox)
    (kptsPrev kptsCurr : list KeyPoint) (matches : list DMatch) : option BoundingBox :=
  assigned ← assign_matches (roi boundingBox) kptsCurr (kptMatches boundingBox) matches;
  sum ← sum_dist kptsPrev kptsCurr assigned;
  let mean := mean_dist sum assigned in
  kept ← erase_loop kptsPrev kptsCurr mean assigned;
  Some {| boxID := boxID boundingBox; roi := roi boundingBox;
          lidarPoints := lidarPoints boundingBox; kptMatches := kept |}.

(** ** computeTTCCamera *)

(** [double minDist = 100.0]. *)
Definition minDist : float := 100%float.

(** The body of the inner loop, lines 189-204. *)
Definition ratio_step (kptsPrev kptsCurr : list KeyPoint)
    (kpOuterCurr kpOuterPrev : KeyPoint) (distRatios : list float) (it2 : DMatch)
    : option (list float) :=
  kpInnerCurr ← Cxx.at_ kptsCurr (trainIdx it2);
  kpInnerPrev ← Cxx.at_ kptsPrev (queryIdx it2);
  let distCurr := norm (Point2f_sub (pt kpOuterCurr) (pt kpInnerCurr)) in
  let distPrev := norm (Point2f_sub (pt kpOuterPrev) (pt kpInnerPrev)) in
  Some (if (Cxx.epsilon <? distPrev)%float && (minDist <=? distCurr)%float
        then distRatios ++ [(distCurr / distPrev)%float]
        else distRatios).

(** Lines 177-206.  The outer loop runs from [begin()] to [end() - 1]
    (every match but the last), the inner loop from [begin() + 1] to
    [end()] (every match but the first).  On an empty vector [end() - 1]
    precedes [begin()] and the loop reads outside the vector. *)
Definition distRatios (kptsPrev kptsCurr : list KeyPoint) (matches : list DMatch)
    : option (list float) :=
  match matches with
  | [] => None
  | _ :: inner =>
      foldlM (λ acc it1,
                kpOuterCurr ← Cxx.at_ kptsCurr (trainIdx it1);
                kpOuterPrev ← Cxx.at_ kptsPrev (queryIdx it1);
                foldlM (ratio_step kptsPrev kptsCurr kpOuterCurr kpOuterPrev) acc inner)
             [] (removelast matches)
  end.

(** Lines 209-224.  [floor(size / 2.0)] is exact in binary64 for every
    size a vector can have; it is the integer quotient. *)
Definition medianTTC (distRatios : list float) (frameRate : float) : float :=
  match distRatios with
  | [] => nan
  | _ =>
      let sorted := sort distRatios in
      let medIndex := (length sorted / 2)%nat in
      let medDistRatio :=
        if Nat.even (length sorted)
        then ((nth (medIndex - 1) sorted nan + nth medIndex sorted nan) / 2)%float
        else nth medIndex sorted nan in
      let dT := (1 / frameRate)%float in
      (- dT / (1 - medDistRatio))%float
  end.

Definition computeTTCCamera (kptsPrev kptsCurr : list KeyPoint)
    (matches : list DMatch) (frameRate : float) : option float :=
  ratios ← distRatios kptsPrev kptsCurr matches;
  Some (medianTTC ratios frameRate).

(** ** clusterHelper and euclideanCluster *)

Section Clustering.
Context `{K : KdTreeOps}.

(** The loop over [nearest] in [clusterHelper]; [call] is the recursive
    call.  The state is the pair of [cluster] and [processed], both passed
    by reference in the source. *)
Fixpoint visit_nearest
    (call : nat → list nat → list bool → option (list nat * list bool))
    (nearest : list nat) (cluster : list nat) (processed : list bool)
    : option (list nat * list bool) :=
  match nearest with
  | [] => Some (cluster, processed)
  | id :: nearest' =>
      done ← processed !! id;
      if done : bool then visit_nearest call nearest' cluster processed
      else
        st ← call id cluster processed;
        visit_nearest call nearest' st.1 st.2
  end.

(** [clusterHelper]; [fuel] bounds the depth of the recursion. *)
Fixpoint clusterHelper (fuel : nat) (index : nat) (points : list (list float))
    (cluster : list nat) (processed : list bool) (tree : KdTree)
    (distanceTol : float) : option (list nat * list bool) :=
  match fuel with
  | O => None
  | S fuel' =>
      _ ← processed !! index;
      let processed := <[index := true]> processed in
      let cluster := cluster ++ [index] in
      point ← points !! index;
      let nearest := kd_search tree point distanceTol in
      visit_nearest
        (λ id cluster processed,
           clusterHelper fuel' id points cluster processed tree distanceTol)
        nearest cluster processed
  end.

(** The [while] loop of [euclideanCluster], [i] running over the
    indices [todo]. *)
Fixpoint cluster_loop (points : list (list float)) (tree : KdTree)
    (distanceTol : float) (todo : list nat) (clusters : list (list nat))
    (processed : list bool) : option (list (list nat)) :=
  match todo with
  | [] => Some clusters
  | i :: todo' =>
      done ← processed !! i;
      if done : bool
      then cluster_loop points tree distanceTol todo' clusters processed
      else
        st ← clusterHelper (length points) i points [] processed tree distanceTol;
        cluster_loop points tree distanceTol todo' (clusters ++ [st.1]) st.2
  end.

Definition euclideanCluster (points : list (list float)) (tree : KdTree)
    (distanceTol : float) : option (list (list nat)) :=
  cluster_loop points tree distanceTol (seq 0 (length points)) []
    (replicate (length points) false).

(** ** removeLidarOutlier *)

(** Lines 318-329: the single-precision coordinates of every point, and
    the tree that holds them under their indices. *)
Definition coordinates (p : LidarPoint) : list float :=
  [Cxx.to_float32 (lp_x p); Cxx.to_float32 (lp_y p); Cxx.to_float32 (lp_z p)].

Fixpoint insert_points (tree : KdTree) (i : nat) (points : list (list float)) : KdTree :=
  match points with
  | [] => tree
  | point :: points' => insert_points (kd_insert tree point i) (S i) points'
  end.

(** Lines 333-347: the points of one cluster, and the selection of the
    largest cluster so far. *)
Definition cluster_points (points : list LidarPoint) (indices : list nat)
    : option (list LidarPoint) :=
  mapM (λ index, points !! index) indices.

Definition select_cluster (points : list LidarPoint)
    (maxLidarPointsCluster : list LidarPoint) (indices : list nat)
    : option (list LidarPoint) :=
  temp ← cluster_points points indices;
  Some (if decide (length maxLidarPointsCluster < length temp)%nat
        then temp else maxLidarPointsCluster).

Definition removeLidarOutlier (points : list LidarPoint) (clusterTolerance : float)
    : option (list LidarPoint) :=
  let coords := coordinates <$> points in
  let treePrev := insert_points kd_new 0 coords in
  cluster_indices ← euclideanCluster coords treePrev clusterTolerance;
  foldlM (select_cluster points) [] cluster_indices.

(** ** computeTTCLidar *)

(** [constexpr double laneWidth = 4.0] and
    [constexpr float clusterTolerance = 0.1]. *)
Definition laneWidth : float := 4%float.
Definition clusterTolerance : float := Cxx.to_float32 0x1.999999999999ap-4%float.

(** The two loops of lines 245-259, started from [1e9]. *)
Definition closest_step (minX : float) (it : LidarPoint) : float :=
  if (abs (lp_y it) <=? laneWidth / 2)%float
  then (if (lp_x it <? minX)%float then lp_x it else minX)
  else minX.

Definition closest_in_lane (points : list LidarPoint) : float :=
  foldl closest_step 1e9%float points.

Definition computeTTCLidar (lidarPointsPrev lidarPointsCurr : list LidarPoint)
    (frameRate : float) : option float :=
  let dT := (1 / frameRate)%float in
  lidarPointsPrevClustered ← removeLidarOutlier lidarPointsPrev clusterTolerance;
  lidarPointsCurrClustered ← removeLidarOutlier lidarPointsCurr clusterTolerance;
  let minXPrev := closest_in_lane lidarPointsPrevClustered in
  let minXCurr := closest_in_lane lidarPointsCurrClustered in
  Some (minXCurr * dT / (minXPrev - minXCurr))%float.

End Clustering.

(** ** get_max and matchBoundingBoxes *)

(** [get_max]: the dereferenced result of [std::max_element]; undefined
    on an empty map. *)
Definition get_max (x : std_map) : option (Z * Z) := max_element x.

(** Lines 294-301: one vote for the region [id]. *)
Definition vote (m : std_map) (id : Z) : std_map :=
  match map_find id m with
  | None => map_set id 1 m
  | Some n => map_set id (n + 1) m
  end.

(** Lines 288-303: the body of the loop over the matches. *)
Definition tally_match (prevFrame currFrame : DataFrame)
    (prevBox currBox : BoundingBox) (m : std_map) (mt : DMatch) : option std_map :=
  prevKeyPoint ← Cxx.at_ (keypoints prevFrame) (queryIdx mt);
  if contains2f (roi prevBox) (pt prevKeyPoint) then
    currKeyPoint ← Cxx.at_ (keypoints currFrame) (trainIdx mt);
    Some (if contains2f (roi currBox) (pt currKeyPoint)
          then vote m (boxID currBox) else m)
  else Some m.

(** Lines 283-305: the votes of one previous region. *)
Definition tally (matches : list DMatch) (prevFrame currFrame : DataFrame)
    (prevBox : BoundingBox) : option std_map :=
  foldlM (λ m currBox,
            foldlM (tally_match prevFrame currFrame prevBox currBox) m matches)
         [] (boundingBoxes currFrame).

Definition matchBoundingBoxes (matches : list DMatch) (bbBestMatches : std_map)
    (prevFrame currFrame : DataFrame) : option std_map :=
  foldlM (λ best prevBox,
            m ← tally matches prevFrame currFrame prevBox;
            max ← get_max m;
            Some (map_set (boxID prevBox) max.1 best))
         bbBestMatches (boundingBoxes prevFrame).

(** ** show3DObjects

    The function draws a top view of the lidar points of every region
    into an image and shows it in a window.  The embedding returns the
    drawing calls in the order the source makes them, and whether the
    function then waits for a key.  What OpenCV does inside [cv::Mat],
    [cv::namedWindow] and [cv::imshow] (it refuses an image without
    pixels) is not part of the embedding: a result of the embedding is
    what the function has done when OpenCV lets it return. *)

(** [cv::Size]. *)
Record Size := { size_width : Z; size_height : Z }.

(** [cv::Scalar], reduced to the three channels the source sets. *)
Record Scalar := { channel0 : Z; channel1 : Z; channel2 : Z }.

(** The text of a label: the arguments that [sprintf] formats,
    ["id=%d, #pts=%d"] and ["xmin=%2.2f m, yw=%2.2f m"]. *)
Inductive Label :=
  | label_count (id : Z) (pts : Z)
  | label_extent (xmin : float) (yw : float).

(** The drawing calls of the source: [cv::circle], [cv::rectangle],
    [cv::putText] (font [FONT_ITALIC]) and [cv::line]. *)
Inductive Draw :=
  | draw_circle (center : Point) (radius : Z) (color : Scalar) (thickness : Z)
  | draw_rectangle (pt1 pt2 : Point) (color : Scalar) (thickness : Z)
  | draw_putText (text : Label) (org : Point) (fontScale : Z) (color : Scalar)
  | draw_line (pt1 pt2 : Point) (color : Scalar).

(** What [show3DObjects] has done when it returns. *)
Record Shown := { drawn : list Draw; waits_for_key : bool }.

(** An [int] result of [int] arithmetic: undefined on overflow. *)
Definition checked_int (z : Z) : option Z :=
  if (Cxx.int_min <=? z) && (z <=? Cxx.int_max) then Some z else None.

(** [size_t] to [int]: reduction modulo 2^32 into the range of [int]. *)
Definition int_of_size_t (n : Z) : Z := (n + 2147483648) mod 4294967296 - 2147483648.

(** [size_t] to [float]: rounding to the nearest binary32 value. *)
Definition float32_of_size_t (n : Z) : float :=
  SF2Prim (binary_normalize 24 128 n 0 false).

(** [floor] followed by the conversion to [int]: the greatest integer not
    above the value, undefined when it is not an [int]. *)
Definition floor_int (f : float) : option Z :=
  match Prim2SF f with
  | S754_zero _ => Some 0
  | S754_finite s m e =>
      let z := if s then Zneg m else Zpos m in
      checked_int (if 0 <=? e then Z.shiftl z e else Z.shiftr z (- e))
  | _ => None
  end.

(** The running values of the loop over the lidar points of a region,
    lines 76-77. *)
Record Extent := {
  top : Z; left : Z; bottom : Z; right : Z;
  xwmin : float; ywmin : float; ywmax : float
}.

(** [int top=1e8, left=1e8, bottom=0.0, right=0.0] and
    [float xwmin=1e8, ywmin=1e8, ywmax=-1e8]. *)
Definition initial_extent : Extent :=
  {| top := 100000000; left := 100000000; bottom := 0; right := 0;
     xwmin := 1e8; ywmin := 1e8; ywmax := -1e8 |}.

(** Lines 88-89: the top-view pixel of the world position [(xw, yw)],
    computed in single precision and truncated to [int]. *)
Definition topview_y (worldSize imageSize : Size) (xw : float) : option Z :=
  Cxx.to_int
    (Cxx.to_float32
       (Cxx.to_float32
          (Cxx.to_float32 (- xw * Cxx.float32_of_Z (size_height imageSize))
           / Cxx.float32_of_Z (size_height worldSize))
        + Cxx.float32_of_Z (size_height imageSize)))%float.

Definition topview_x (worldSize imageSize : Size) (yw : float) : option Z :=
  Cxx.to_int
    (Cxx.to_float32
       (Cxx.to_float32
          (Cxx.to_float32 (- yw * Cxx.float32_of_Z (size_width imageSize))
           / Cxx.float32_of_Z (size_width worldSize))
        + Cxx.float32_of_Z (Z.quot (size_width imageSize) 2)))%float.

(** Lines 80-98: the body of the loop over the lidar points. *)
Definition plot_point (worldSize imageSize : Size) (currColor : Scalar)
    (st : Extent * list Draw) (it2 : LidarPoint) : option (Extent * list Draw) :=
  let e := st.1 in
  let xw := Cxx.to_float32 (lp_x it2) in
  let yw := Cxx.to_float32 (lp_y it2) in
  y ← topview_y worldSize imageSize xw;
  x ← topview_x worldSize imageSize yw;
  Some ({| top := if top e <? y then top e else y;
           left := if left e <? x then left e else x;
           bottom := if y <? bottom e then bottom e else y;
           right := if x <? right e then right e else x;
           xwmin := if (xwmin e <? xw)%float then xwmin e else xw;
           ywmin := if (ywmin e <? yw)%float then ywmin e else yw;
           ywmax := if (yw <? ywmax e)%float then ywmax e else yw |},
        st.2 ++ [draw_circle {| pt_x := x; pt_y := y |} 4 currColor (-1)]).

(** The origin of a label: [cv::Point2f(x, y)] of two [int] values,
    converted to the [cv::Point] that [putText] takes. *)
Definition label_org (x y : Z) : Point :=
  Point_of_Point2f {| pf_x := Cxx.float32_of_Z x; pf_y := Cxx.float32_of_Z y |}.

(** Lines 71-109: the drawing calls for one region.  [currColor] is the
    colour drawn for the region. *)
Definition show_box (worldSize imageSize : Size) (currColor : Scalar)
    (it1 : BoundingBox) : option (list Draw) :=
  st ← foldlM (plot_point worldSize imageSize currColor) (initial_extent, [])
         (lidarPoints it1);
  let e := st.1 in
  text_x ← checked_int (left e - 250);
  text_y1 ← checked_int (bottom e + 50);
  text_y2 ← checked_int (bottom e + 125);
  Some (st.2
        ++ [ draw_rectangle {| pt_x := left e; pt_y := top e |}
               {| pt_x := right e; pt_y := bottom e |}
               {| channel0 := 0; channel1 := 0; channel2 := 0 |} 2;
             draw_putText
               (label_count (boxID it1)
                  (int_of_size_t (Z.of_nat (length (lidarPoints it1)))))
               (label_org text_x text_y1) 2 currColor;
             draw_putText
               (label_extent (xwmin e) (Cxx.to_float32 (ywmax e - ywmin e)))
               (label_org text_x text_y2) 2 currColor ]).

(** [float lineSpacing = 2.0] and [int nMarkers], lines 113-114. *)
Definition lineSpacing : float := 2%float.

Definition nMarkers (worldSize : Size) : option Z :=
  floor_int (Cxx.to_float32 (Cxx.float32_of_Z (size_height worldSize) / lineSpacing)).

(** Lines 117-118: the distance marker of index [i]. *)
Definition marker (worldSize imageSize : Size) (i : Z) : option Draw :=
  y ← Cxx.to_int
         (Cxx.to_float32
            (Cxx.to_float32
               (Cxx.to_float32
                  (- Cxx.to_float32 (float32_of_size_t i * lineSpacing)
                   * Cxx.float32_of_Z (size_height imageSize))
                / Cxx.float32_of_Z (size_height worldSize))
             + Cxx.float32_of_Z (size_height imageSize)))%float;
  Some (draw_line {| pt_x := 0; pt_y := y |}
          {| pt_x := size_width imageSize; pt_y := y |}
          {| channel0 := 255; channel1 := 0; channel2 := 0 |}).

Section Show3DObjects.

(** The colour of a region: three draws of a [cv::RNG] seeded with the
    id of the region.  The generator is OpenCV's and C++ leaves open the
    order in which the three draws are made, so the colour is a parameter
    of the embedding. *)
Variable currColor : Z → Scalar.

(** The comparison [i < nMarkers] is made in [size_t]: a negative
    [nMarkers] counts as [nMarkers + 2^64]. *)
Definition show3DObjects (boundingBoxes : list BoundingBox)
    (worldSize imageSize : Size) (bWait : bool) : option Shown :=
  objects ← foldlM (λ img it1,
                      drawing ← show_box worldSize imageSize (currColor (boxID it1)) it1;
                      Some (img ++ drawing))
                   [] boundingBoxes;
  n ← nMarkers worldSize;
  let count := if n <? 0 then n + 18446744073709551616 else n in
  markers ← mapM (λ i, marker worldSize imageSize (Z.of_nat i))
               (seq 0 (Z.to_nat count));
  Some {| drawn := objects ++ markers; waits_for_key := bWait |}.

End Show3DObjects.

(** * Specifications

    The predicates and reference functions the properties below are
    stated with. *)

(** ** Clustering *)

(** Number of entries of [processed] that are still [false]. *)
Definition unprocessed (processed : list bool) : nat :=
  length (filter (λ b, b = false) processed).

(** [grows p new p']: [p'] is [p] with exactly the indices of [new], each
    once, switched from [false] to [true]. *)
Record grows (p : list bool) (new : list nat) (p' : list bool) : Prop := {
  grows_length : length p' = length p;
  grows_NoDup : NoDup new;
  grows_true : ∀ j, p' !! j = Some true ↔ p !! j = Some true ∨ j ∈ new;
  grows_fresh : ∀ j, j ∈ new → p !! j = Some false;
  grows_count : (unprocessed p' + length new = unprocessed p)%nat
}.

(** The contract of [clusterHelper] when it is given [fuel]: started at an
    unprocessed [index], it returns, and it has appended to [cluster] the
    indices it marked, [index] first. *)
Definition helper_ok `{K : KdTreeOps} (points : list (list float)) (tree : KdTree)
    (distanceTol : float) (fuel : nat) : Prop :=
  ∀ index cluster p,
    length p = length points → p !! index = Some false →
    (unprocessed p ≤ fuel)%nat →
    ∃ new p', clusterHelper fuel index points cluster p tree distanceTol
              = Some (cluster ++ index :: new, p')
              ∧ grows p (index :: new) p'.

(** [clusters] is a partition of the indices below [n]: together the
    clusters list every index once, each index lies in one cluster, two
    clusters that share an index are the same cluster, and no cluster is
    empty. *)
Record partition_of (n : nat) (clusters : list (list nat)) : Prop := {
  part_perm : concat clusters ≡ₚ seq 0 n;
  part_cover : ∀ i, (i < n)%nat → ∃ k c, clusters !! k = Some c ∧ i ∈ c;
  part_disjoint : ∀ k1 k2 c1 c2 i,
    clusters !! k1 = Some c1 → clusters !! k2 = Some c2 →
    i ∈ c1 → i ∈ c2 → k1 = k2;
  part_once : Forall (λ c, NoDup c) clusters;
  part_nonempty : Forall (λ c, c ≠ []) clusters
}.

(** ** Outlier rejection *)

(** [c], at position [k], is the first cluster of greatest size. *)
Record first_largest (clusters : list (list nat)) (k : nat) (c : list nat) : Prop := {
  fl_at : clusters !! k = Some c;
  fl_max : ∀ k' c', clusters !! k' = Some c' → (length c' ≤ length c)%nat;
  fl_first : ∀ k' c', (k' < k)%nat → clusters !! k' = Some c' → (length c' < length c)%nat
}.

(** ** Range-based time to collision *)

(** A point lies in the ego lane: its [|y|] is at most 2.0. *)
Definition in_lane (p : LidarPoint) : bool := (abs (lp_y p) <=? 2)%float.

(** [m] is the closest forward distance in the ego lane, capped by the
    sentinel [1e9]: it is the sentinel or the [x] of a point in the lane,
    it does not exceed the sentinel, and no point in the lane has a
    smaller [x]. *)
Record closest_spec (points : list LidarPoint) (m : float) : Prop := {
  closest_attained :
    m = 1e9%float ∨ ∃ p, p ∈ points ∧ in_lane p = true ∧ lp_x p = m;
  closest_capped : (1e9 <? m)%float = false;
  closest_lower : ∀ p, p ∈ points → in_lane p = true → (lp_x p <? m)%float = false
}.

(** The minimum as the design document words it: the least [x] among the
    points in the lane, and the sentinel only when no point is in the
    lane. *)
Definition least_x_in_lane (points : list LidarPoint) : float :=
  match filter (λ p, in_lane p = true) points with
  | [] => 1e9%float
  | p :: ps => foldl (λ m q, if (lp_x q <? m)%float then lp_x q else m) (lp_x p) ps
  end.

(** [computeTTCLidar] with the minima taken as the document words them. *)
Definition computeTTCLidar_as_worded `{K : KdTreeOps}
    (lidarPointsPrev lidarPointsCurr : list LidarPoint) (frameRate : float)
    : option float :=
  prevClustered ← removeLidarOutlier lidarPointsPrev clusterTolerance;
  currClustered ← removeLidarOutlier lidarPointsCurr clusterTolerance;
  let minXPrev := least_x_in_lane prevClustered in
  let minXCurr := least_x_in_lane currClustered in
  Some (minXCurr * (1 / frameRate) / (minXPrev - minXCurr))%float.

(** ** Vision-based time to collision *)

(** The central values of a list: what is left when the first and the
    last value are removed together for as long as more than two values
    remain.  [fuel] bounds the number of removals. *)
Fixpoint peel (fuel : nat) (l : list float) : list float :=
  match fuel with
  | O => l
  | S fuel' =>
      match l with
      | _ :: (_ :: _ :: _) as rest => peel fuel' (removelast rest)
      | _ => l
      end
  end.

Definition central_values (l : list float) : list float := peel (length l) l.

(** The median of a sorted list in the document's words: the single
    central value of an odd count, the average of the two central values
    of an even count. *)
Definition median_of (sorted : list float) : float :=
  match central_values sorted with
  | [a] => a
  | [a; b] => ((a + b) / 2)%float
  | _ => nan
  end.

(** Increasing order of doubles. *)
Definition float_le (a b : float) : Prop := (a <=? b)%float = true.

(** The ratios in the document's words: one for every unordered pair of
    distinct correspondences, accepted when [distPrev] exceeds the noise
    floor and [distCurr] is at least 100 pixels. *)
Fixpoint unordered_pair_ratios (kptsPrev kptsCurr : list KeyPoint)
    (matches : list DMatch) : option (list float) :=
  match matches with
  | [] => Some []
  | it1 :: later =>
      kpOuterCurr ← Cxx.at_ kptsCurr (trainIdx it1);
      kpOuterPrev ← Cxx.at_ kptsPrev (queryIdx it1);
      with_it1 ← foldlM (ratio_step kptsPrev kptsCurr kpOuterCurr kpOuterPrev) [] later;
      among_later ← unordered_pair_ratios kptsPrev kptsCurr later;
      Some (with_it1 ++ among_later)
  end.

(** ** Association of regions across frames *)

(** The correspondence [mt] casts a vote for the pair of regions: its
    previous keypoint is inside [prevBox] and its current keypoint inside
    [currBox]. *)
Definition casts_vote (prevFrame currFrame : DataFrame)
    (prevBox currBox : BoundingBox) (mt : DMatch) : bool :=
  match Cxx.at_ (keypoints prevFrame) (queryIdx mt),
        Cxx.at_ (keypoints currFrame) (trainIdx mt) with
  | Some prevKeyPoint, Some currKeyPoint =>
      contains2f (roi prevBox) (pt prevKeyPoint)
      && contains2f (roi currBox) (pt currKeyPoint)
  | _, _ => false
  end.

(** The ids voted for, one entry per vote, in the order of the two
    loops. *)
Definition vote_ids (matches : list DMatch) (prevFrame currFrame : DataFrame)
    (prevBox : BoundingBox) : list Z :=
  currBox ← boundingBoxes currFrame;
  mt ← matches;
  if casts_vote prevFrame currFrame prevBox currBox mt then [boxID currBox] else [].

(** The number of votes of [prevBox] for the current region [id]. *)
Definition votes (matches : list DMatch) (prevFrame currFrame : DataFrame)
    (prevBox : BoundingBox) (id : Z) : Z :=
  Z.of_nat (length (filter (λ id', id' = id)
                      (vote_ids matches prevFrame currFrame prevBox))).

(** [id] is the partner [matchBoundingBoxes] gives [prevBox]: it has a
    vote, no id has more votes, and among the ids with as many votes it is
    the least. *)
Definition best_partner (matches : list DMatch) (prevFrame currFrame : DataFrame)
    (prevBox : BoundingBox) (id : Z) : Prop :=
  0 < votes matches prevFrame currFrame prevBox id
  ∧ ∀ id',
      votes matches prevFrame currFrame prevBox id'
      ≤ votes matches prevFrame currFrame prevBox id
      ∧ (votes matches prevFrame currFrame prevBox id'
         = votes matches prevFrame currFrame prevBox id → id ≤ id').

(** The partner in the document's words: the current region with the
    highest vote count, a tie going to the region that comes first in the
    current frame's list of regions. *)
Definition partner_in_frame_order (matches : list DMatch)
    (prevFrame currFrame : DataFrame) (prevBox : BoundingBox) : option Z :=
  fst <$> max_element
            ((λ currBox, (boxID currBox,
                          votes matches prevFrame currFrame prevBox (boxID currBox)))
               <$> boundingBoxes currFrame).

(** Every correspondence refers to a keypoint of each frame. *)
Definition matches_in_range (matches : list DMatch) (prevFrame currFrame : DataFrame)
    : Prop :=
  Forall (λ mt, is_Some (Cxx.at_ (keypoints prevFrame) (queryIdx mt))
                ∧ is_Some (Cxx.at_ (keypoints currFrame) (trainIdx mt))) matches.

(** The keys of a map are in increasing order. *)
Definition keys_increasing (m : std_map) : Prop := StronglySorted Z.lt (fst <$> m).

(** The map [m] holds the number of occurrences of every id of [ids],
    and no entry for an id that does not occur. *)
Definition occurrences (id : Z) (ids : list Z) : Z :=
  Z.of_nat (length (filter (λ id', id' = id) ids)).

Definition counts (m : std_map) (ids : list Z) : Prop :=
  keys_increasing m
  ∧ ∀ id, map_find id m
          = if decide (occurrences id ids = 0) then None else Some (occurrences id ids).

(** ** Assignment of lidar points to regions *)

(** The pixel of a lidar point in the document's words: the homogeneous
    image vector [Y] is the product of the projection, the rectification
    and the extrinsic matrices with the homogeneous point, and its first
    two components are divided by its third component, the entry in row 2
    of the column vector. *)
Definition project_by_depth (P_rect_xx R_rect_xx RT : Mat) (p : LidarPoint)
    : option Point :=
  let X := {| rows := 4; cols := 1;
              data := [lp_x p; lp_y p; lp_z p; 1%float] |} in
  PR ← Mat_mul P_rect_xx R_rect_xx;
  PRRT ← Mat_mul PR RT;
  Y ← Mat_mul PRRT X;
  u ← Mat_entry Y 0 0;
  v ← Mat_entry Y 1 0;
  depth ← Mat_entry Y 2 0;
  px ← Cxx.to_int (u / depth)%float;
  py ← Cxx.to_int (v / depth)%float;
  Some {| pt_x := px; pt_y := py |}.

(** The pixel [q] is inside the [i]-th rectangle. *)
Definition inside (rects : list Rect) (q : Point) (i : nat) : bool :=
  match rects !! i with
  | Some r => contains r q
  | None => false
  end.

(** The number of rectangles the pixel [q] is inside. *)
Definition enclosers (rects : list Rect) (q : Point) : nat :=
  length (filter (λ r, contains r q = true) rects).

(** The pixel [q] is inside exactly one rectangle, the [i]-th. *)
Definition only_inside (rects : list Rect) (q : Point) (i : nat) : bool :=
  inside rects q i && (enclosers rects q =? 1)%nat.

(** The pixel of the lidar point [p], the quotients by the depth, lies
    in exactly one of the rectangles, the [i]-th. *)
Definition assigned_to (P_rect_xx R_rect_xx RT : Mat) (rects : list Rect)
    (i : nat) (p : LidarPoint) : Prop :=
  match project_by_depth P_rect_xx R_rect_xx RT p with
  | Some q => only_inside rects q i = true
  | None => False
  end.

#[export] Instance assigned_to_dec P_rect_xx R_rect_xx RT rects i p :
  Decision (assigned_to P_rect_xx R_rect_xx RT rects i p).
Proof. unfold assigned_to. destruct (project_by_depth _ _ _ _); apply _. Defined.

(** [b.lidarPoints] extended by the points [ps]. *)
Definition add_lidarPoints (ps : list LidarPoint) (b : BoundingBox) : BoundingBox :=
  {| boxID := boxID b; roi := roi b;
     lidarPoints := lidarPoints b ++ ps; kptMatches := kptMatches b |}.

(** A rectangle shrunk symmetrically by [shrinkFactor], in the
    document's words: the width and the height are reduced to the
    fraction [1 - shrinkFactor] of what they were, and the corner moves
    inwards by half of the fraction [shrinkFactor] of the width
    horizontally and of the height vertically, which keeps the centre
    where it was.  [shrinkFactor] is a [float]: the fractions are
    single-precision, the halving and the sum with the corner
    double-precision, and the four values are truncated to [int]. *)
Definition shrunk_extent (shrinkFactor : float) (extent : Z) : float :=
  Cxx.to_float32 (Cxx.float32_of_Z extent * Cxx.to_float32 (1 - shrinkFactor)).

Definition shrunk_corner (shrinkFactor : float) (corner extent : Z) : float :=
  (Cxx.double_of_Z corner
   + Cxx.to_float32 (shrinkFactor * Cxx.float32_of_Z extent) / 2)%float.

Definition shrunk_rect (shrinkFactor : float) (r : Rect) : option Rect :=
  x ← Cxx.to_int (shrunk_corner shrinkFactor (rect_x r) (rect_width r));
  y ← Cxx.to_int (shrunk_corner shrinkFactor (rect_y r) (rect_height r));
  width ← Cxx.to_int (shrunk_extent shrinkFactor (rect_width r));
  height ← Cxx.to_int (shrunk_extent shrinkFactor (rect_height r));
  Some {| rect_x := x; rect_y := y; rect_width := width; rect_height := height |}.

(** [rects] are the rectangles of the regions [boxes], each shrunk by
    [shrinkFactor]. *)
Definition shrunk (shrinkFactor : float) (boxes : list BoundingBox) (rects : list Rect)
    : Prop :=
  Forall2 (λ b r, shrunk_rect shrinkFactor (roi b) = Some r) boxes rects.

(** ** Assignment of correspondences to a region *)

(** The displacement of a correspondence in the document's words: the
    distance between its matched previous and current keypoints, the
    square root of the sum of the squares of the two coordinate
    differences.  The differences are single-precision like the
    coordinates, the squares, their sum and the root are double-precision.
    NaN when the correspondence has not both keypoints. *)
Definition displacement (kptsPrev kptsCurr : list KeyPoint) (m : DMatch) : float :=
  match Cxx.at_ kptsPrev (queryIdx m), Cxx.at_ kptsCurr (trainIdx m) with
  | Some previous, Some current =>
      let dx := Cxx.to_float32 (pf_x (pt current) - pf_x (pt previous)) in
      let dy := Cxx.to_float32 (pf_y (pt current) - pf_y (pt previous)) in
      PrimFloat.sqrt (dx * dx + dy * dy)
  | _, _ => nan
  end.

(** The current keypoint of a correspondence lies in the rectangle. *)
Definition current_inside (r : Rect) (kptsCurr : list KeyPoint) (m : DMatch) : Prop :=
  match Cxx.at_ kptsCurr (trainIdx m) with
  | Some currKeyPoint => contains2f r (pt currKeyPoint) = true
  | None => False
  end.

#[export] Instance current_inside_dec r kptsCurr m : Decision (current_inside r kptsCurr m).
Proof. unfold current_inside. destruct (Cxx.at_ _ _); apply _. Defined.

(** The mean displacement of a list of correspondences, summed from the
    first to the last. *)
Definition mean_displacement (kptsPrev kptsCurr : list KeyPoint) (v : list DMatch)
    : float :=
  (foldl (λ sum m, sum + displacement kptsPrev kptsCurr m) 0 v
   / Cxx.double_of_Z (Z.of_nat (length v)))%float.

(** The displacement is at least 1.5 times [mean]. *)
Definition outlier (kptsPrev kptsCurr : list KeyPoint) (mean : float) (m : DMatch) : Prop :=
  (mean * 1.5 <=? displacement kptsPrev kptsCurr m)%float = true.

#[export] Instance outlier_dec kptsPrev kptsCurr mean m :
  Decision (outlier kptsPrev kptsCurr mean m).
Proof. unfold outlier. apply _. Defined.

(** What the document says a region holds after the assignment: the
    correspondences with their current keypoint in the rectangle whose
    displacement is strictly less than 1.5 times the mean displacement of
    the correspondences with their current keypoint in the rectangle. *)
Definition kept_as_worded (r : Rect) (kptsPrev kptsCurr : list KeyPoint)
    (matches : list DMatch) : list DMatch :=
  let assigned := filter (current_inside r kptsCurr) matches in
  let mean := mean_displacement kptsPrev kptsCurr assigned in
  filter (λ m, (displacement kptsPrev kptsCurr m <? mean * 1.5)%float = true) assigned.

(** Every correspondence refers to a keypoint of each list. *)
Definition indices_in_range (kptsPrev kptsCurr : list KeyPoint) (matches : list DMatch)
    : Prop :=
  Forall (λ m, is_Some (Cxx.at_ kptsPrev (queryIdx m))
               ∧ is_Some (Cxx.at_ kptsCurr (trainIdx m))) matches.

(** ** The neighbour graph of the clustering *)

(** [j] is a neighbour of [i]: the tree reports [j] when [clusterHelper]
    searches around the point of index [i]. *)
Definition neighbour `{K : KdTreeOps} (points : list (list float)) (tree : KdTree)
    (distanceTol : float) (i j : nat) : Prop :=
  ∃ point, points !! i = Some point ∧ j ∈ kd_search tree point distanceTol.

(** A neighbour step that ends in the index list [c]. *)
Definition linked `{K : KdTreeOps} (points : list (list float)) (tree : KdTree)
    (distanceTol : float) (c : list nat) (a j : nat) : Prop :=
  neighbour points tree distanceTol a j ∧ j ∈ c.

(** What [euclideanCluster] guarantees of the clusters besides their
    being a partition.
    - [cg_seeded]: a cluster starts with its smallest index, the seed the
      [while] loop found unprocessed;
    - [cg_seeds_increase]: the seeds of the clusters increase;
    - [cg_connected]: every member of a cluster is reached from the seed by
      neighbour steps inside the cluster;
    - [cg_closed]: a neighbour of a member lies in the same cluster or in an
      earlier one. *)
Record clusters_grown `{K : KdTreeOps} (points : list (list float)) (tree : KdTree)
    (distanceTol : float) (clusters : list (list nat)) : Prop := {
  cg_seeded : ∀ c, c ∈ clusters →
    ∃ seed rest, c = seed :: rest ∧ Forall (λ j, (seed < j)%nat) rest;
  cg_seeds_increase : ∀ k1 k2 c1 c2 s1 s2,
    (k1 < k2)%nat → clusters !! k1 = Some c1 → clusters !! k2 = Some c2 →
    head c1 = Some s1 → head c2 = Some s2 → (s1 < s2)%nat;
  cg_connected : ∀ c seed, c ∈ clusters → head c = Some seed →
    ∀ a, a ∈ c → rtc (linked points tree distanceTol c) seed a;
  cg_closed : ∀ k c a j,
    clusters !! k = Some c → a ∈ c → neighbour points tree distanceTol a j →
    ∃ k' c', (k' ≤ k)%nat ∧ clusters !! k' = Some c' ∧ j ∈ c'
}.

(** The contract of [clusterHelper] with the two facts about the
    neighbour graph: the indices it appends are reached from [index]
    inside what it appends, and when it returns every neighbour of an
    appended index is processed. *)
Definition helper_grows `{K : KdTreeOps} (points : list (list float)) (tree : KdTree)
    (distanceTol : float) (fuel : nat) : Prop :=
  ∀ index cluster p,
    length p = length points → p !! index = Some false →
    (unprocessed p ≤ fuel)%nat →
    ∃ new p', clusterHelper fuel index points cluster p tree distanceTol
              = Some (cluster ++ index :: new, p')
              ∧ grows p (index :: new) p'
              ∧ (∀ a, a ∈ index :: new →
                   rtc (linked points tree distanceTol (index :: new)) index a)
              ∧ (∀ a j, a ∈ index :: new → neighbour points tree distanceTol a j →
                   p' !! j = Some true).

(** The state of the [while] loop of [euclideanCluster] when [i] is the
    next index to examine. *)
Record loop_state `{K : KdTreeOps} (points : list (list float)) (tree : KdTree)
    (distanceTol : float) (i : nat) (clusters : list (list nat)) (p : list bool)
    : Prop := {
  ls_length : length p = length points;
  ls_grows : grows (replicate (length points) false) (concat clusters) p;
  ls_done : ∀ j, (j < i)%nat → p !! j = Some true;
  ls_seeded : ∀ c, c ∈ clusters →
    ∃ seed rest, c = seed :: rest ∧ (seed < i)%nat ∧ Forall (λ j, (seed < j)%nat) rest;
  ls_seeds : ∀ k1 k2 c1 c2 s1 s2,
    (k1 < k2)%nat → clusters !! k1 = Some c1 → clusters !! k2 = Some c2 →
    head c1 = Some s1 → head c2 = Some s2 → (s1 < s2)%nat;
  ls_connected : ∀ c seed, c ∈ clusters → head c = Some seed →
    ∀ a, a ∈ c → rtc (linked points tree distanceTol c) seed a;
  ls_closed : ∀ k c a j,
    clusters !! k = Some c → a ∈ c → neighbour points tree distanceTol a j →
    ∃ k' c', (k' ≤ k)%nat ∧ clusters !! k' = Some c' ∧ j ∈ c'
}.

(** ** Signs of binary64 values *)

(** The sign bit of a value at the level of its specification: [true] for
    a negative sign, nothing for NaN. *)
Definition SFsign (x : spec_float) : option bool :=
  match x with
  | S754_nan => None
  | S754_zero s | S754_infinity s | S754_finite s _ _ => Some s
  end.

Definition sign (f : float) : option bool := SFsign (Prim2SF f).

(** ** Pairs of correspondences *)

(** The distance between the current keypoints of two correspondences,
    the [distCurr] of [computeTTCCamera]. *)
Definition current_distance (kptsCurr : list KeyPoint) (a b : DMatch) : float :=
  match Cxx.at_ kptsCurr (trainIdx a), Cxx.at_ kptsCurr (trainIdx b) with
  | Some kpOuterCurr, Some kpInnerCurr =>
      norm (Point2f_sub (pt kpOuterCurr) (pt kpInnerCurr))
  | _, _ => nan
  end.

(** The ratio that the pair of the outer correspondence [a] and the inner
    correspondence [b] contributes: the quotient of the two distances
    when [distPrev] exceeds the noise floor and [distCurr] is at least
    [minDist], and nothing otherwise. *)
Definition pair_ratio (kptsPrev kptsCurr : list KeyPoint) (a b : DMatch) : list float :=
  match Cxx.at_ kptsCurr (trainIdx a), Cxx.at_ kptsPrev (queryIdx a),
        Cxx.at_ kptsCurr (trainIdx b), Cxx.at_ kptsPrev (queryIdx b) with
  | Some kpOuterCurr, Some kpOuterPrev, Some kpInnerCurr, Some kpInnerPrev =>
      let distCurr := norm (Point2f_sub (pt kpOuterCurr) (pt kpInnerCurr)) in
      let distPrev := norm (Point2f_sub (pt kpOuterPrev) (pt kpInnerPrev)) in
      if (Cxx.epsilon <? distPrev)%float && (minDist <=? distCurr)%float
      then [(distCurr / distPrev)%float] else []
  | _, _, _, _ => []
  end.

(** ** Depth of a lidar point *)

(** The third component of the image vector of a lidar point, by which
    [clusterLidarWithROI] divides the other two. *)
Definition depth (P_rect_xx R_rect_xx RT : Mat) (p : LidarPoint) : option float :=
  let X := {| rows := 4; cols := 1;
              data := [lp_x p; lp_y p; lp_z p; 1%float] |} in
  PR ← Mat_mul P_rect_xx R_rect_xx;
  PRRT ← Mat_mul PR RT;
  Y ← Mat_mul PRRT X;
  Mat_entry Y 2 0.

(** The current keypoint of a correspondence exists. *)
Definition train_in_range (kptsCurr : list KeyPoint) (matches : list DMatch) : Prop :=
  Forall (λ m, is_Some (Cxx.at_ kptsCurr (trainIdx m))) matches.

(** ** Correspondences that do not move *)

(** The two keypoints of a correspondence are the same finite
    location. *)
Definition unmoved (kptsPrev kptsCurr : list KeyPoint) (m : DMatch) : Prop :=
  ∃ kp, Cxx.at_ kptsPrev (queryIdx m) = Some kp
        ∧ Cxx.at_ kptsCurr (trainIdx m) = Some kp
        ∧ Cxx.is_finite (pf_x (pt kp)) = true
        ∧ Cxx.is_finite (pf_y (pt kp)) = true.

(** ** The top view *)

(** What a region contributes to the drawing: a circle for each of its
    lidar points, then the rectangle from [(left, top)] to
    [(right, bottom)], then two texts in the colour of the region, the
    first with the id and the number of lidar points of the region, the
    second with two distances, placed 250 pixels to the left of the
    rectangle and 50 and 125 pixels below it; the rectangle reaches every
    circle centre, and it also reaches the starting values of the four
    running bounds. *)
Definition box_drawing (it1 : BoundingBox) (color : Scalar) (drawing : list Draw) : Prop :=
  ∃ centers left top right bottom xmin yw,
    drawing = ((λ c, draw_circle c 4 color (-1)) <$> centers)
              ++ [ draw_rectangle {| pt_x := left; pt_y := top |}
                     {| pt_x := right; pt_y := bottom |}
                     {| channel0 := 0; channel1 := 0; channel2 := 0 |} 2;
                   draw_putText
                     (label_count (boxID it1)
                        (int_of_size_t (Z.of_nat (length (lidarPoints it1)))))
                     (label_org (left - 250) (bottom + 50)) 2 color;
                   draw_putText (label_extent xmin yw)
                     (label_org (left - 250) (bottom + 125)) 2 color ]
    ∧ length centers = length (lidarPoints it1)
    ∧ Forall (λ c, left ≤ pt_x c ≤ right ∧ top ≤ pt_y c ≤ bottom) centers
    ∧ left ≤ 100000000 ∧ top ≤ 100000000 ∧ 0 ≤ right ∧ 0 ≤ bottom
    ∧ (lidarPoints it1 = [] →
       left = 100000000 ∧ top = 100000000 ∧ right = 0 ∧ bottom = 0).

(** * Example inputs *)

#[local] Set Warnings "-inexact-float".

(** A lidar return at forward distance [x] and lateral offset [y]. *)
Definition lidar (x y : float) : LidarPoint :=
  {| lp_x := x; lp_y := y; lp_z := 0; lp_r := 0.5 |}.

(** Two sweeps of the preceding vehicle, each with returns that belong to
    something else further away. *)
Definition sweep_prev : list LidarPoint :=
  [lidar 10 0; lidar 10.05 0.05; lidar 50 3; lidar 10.02 (-0.04)]%float.

Definition sweep_curr : list LidarPoint :=
  [lidar 8 0; lidar 8.05 0.05; lidar 30 1; lidar 30.05 1.02; lidar 8.02 (-0.04)]%float.

(** A single return beyond the sentinel distance. *)
Definition sweep_far : list LidarPoint := [lidar 2e9 0]%float.
Definition sweep_near : list LidarPoint := [lidar 8 0]%float.

(** The accepted ratios of the document's example. *)
Definition ratios_example : list float := [0.9; 0.95; 1.0; 1.05]%float.

(** Keypoints on a line, the last one moving away from the others, and the
    four correspondences that pair them by position. *)
Definition keypoint (x y : float) : KeyPoint := {| pt := {| pf_x := x; pf_y := y |} |}.

Definition line_prev : list KeyPoint :=
  [keypoint 0 0; keypoint 100 0; keypoint 200 0; keypoint 400 0]%float.

Definition line_curr : list KeyPoint :=
  [keypoint 0 0; keypoint 100 0; keypoint 200 0; keypoint 500 0]%float.

Definition line_matches : list DMatch :=
  [ {| queryIdx := 0; trainIdx := 0 |}; {| queryIdx := 1; trainIdx := 1 |};
    {| queryIdx := 2; trainIdx := 2 |}; {| queryIdx := 3; trainIdx := 3 |} ].

(** Two frames with one correspondence.  The previous frame has a region
    around the keypoint and a region away from it; the current frame has
    two regions around the keypoint, listed with id 5 before id 3. *)
Definition region (id x y w h : Z) : BoundingBox :=
  {| boxID := id;
     roi := {| rect_x := x; rect_y := y; rect_width := w; rect_height := h |};
     lidarPoints := []; kptMatches := [] |}.

Definition one_match : list DMatch := [ {| queryIdx := 0; trainIdx := 0 |} ].

Definition frame_prev : DataFrame :=
  {| keypoints := [keypoint 50 50]; boundingBoxes := [region 1 0 0 100 100] |}.

Definition frame_curr : DataFrame :=
  {| keypoints := [keypoint 60 60];
     boundingBoxes := [region 5 0 0 100 100; region 3 10 10 200 200] |}.

Definition frame_prev_orphan : DataFrame :=
  {| keypoints := [keypoint 50 50];
     boundingBoxes := [region 1 0 0 100 100; region 2 300 300 50 50] |}.

(** A pinhole camera with focal length 2 and principal point (0, 0); no
    rectification and no change of frame. *)
Definition pinhole : Mat :=
  {| rows := 3; cols := 4;
     data := [2; 0; 0; 0;
              0; 2; 0; 0;
              0; 0; 1; 0]%float |}.

Definition identity4 : Mat :=
  {| rows := 4; cols := 4;
     data := [1; 0; 0; 0;
              0; 1; 0; 0;
              0; 0; 1; 0;
              0; 0; 0; 1]%float |}.

(** Two overlapping regions and a third apart from them. *)
Definition overlapping : list BoundingBox :=
  [region 0 0 0 100 100; region 1 50 50 100 100; region 2 300 0 100 100].

(** Lidar points that project to (20, 20), (80, 80), (320, 20) and
    (250, 250): into the first region only, into the overlap, into the
    third region only, and into no region. *)
Definition cloud : list LidarPoint :=
  [ {| lp_x := 10; lp_y := 10; lp_z := 1; lp_r := 0.1 |};
    {| lp_x := 40; lp_y := 40; lp_z := 1; lp_r := 0.2 |};
    {| lp_x := 160; lp_y := 10; lp_z := 1; lp_r := 0.3 |};
    {| lp_x := 125; lp_y := 125; lp_z := 1; lp_r := 0.4 |} ]%float.

(** Regions that are not squares: a wide one, one that overlaps it, and a
    tall one apart from them; their rectangles shrunk by 0.1, each with
    the centre of the region's rectangle. *)
Definition uneven : list BoundingBox :=
  [region 0 0 0 200 100; region 1 150 50 100 100; region 2 300 0 100 200].

Definition uneven_shrunk : list Rect :=
  [ {| rect_x := 10; rect_y := 5; rect_width := 180; rect_height := 90 |};
    {| rect_x := 155; rect_y := 55; rect_width := 90; rect_height := 90 |};
    {| rect_x := 305; rect_y := 10; rect_width := 90; rect_height := 180 |} ].

(** Lidar points that the pinhole camera sees at the pixels (20, 20),
    (160, 60), (320, 20) and (250, 250): in the first shrunk rectangle
    only, in the first and the second, in the third only, and in none. *)
Definition uneven_cloud : list LidarPoint :=
  [ {| lp_x := 10; lp_y := 10; lp_z := 1; lp_r := 0.1 |};
    {| lp_x := 80; lp_y := 30; lp_z := 1; lp_r := 0.2 |};
    {| lp_x := 160; lp_y := 10; lp_z := 1; lp_r := 0.3 |};
    {| lp_x := 125; lp_y := 125; lp_z := 1; lp_r := 0.4 |} ]%float.

(** A lidar point at depth 2 in front of the pinhole camera. *)
Definition at_depth_two : LidarPoint :=
  {| lp_x := 4; lp_y := 6; lp_z := 2; lp_r := 0 |}%float.

(** A region that spans the keypoints of [line_curr]. *)
Definition strip : BoundingBox := region 7 0 0 1000 10.

(** A dense sweep, every return within the tolerance of another one, and
    a sparse sweep, no two returns within the tolerance. *)
Definition sweep_dense : list LidarPoint :=
  [lidar 10 0; lidar 10.05 0.05; lidar 10.02 (-0.04)]%float.

Definition sweep_sparse : list LidarPoint :=
  [lidar 10 0; lidar 20 0; lidar 30 1]%float.

(** Three keypoints less than 100 pixels from one another, growing apart
    between the frames. *)
Definition near_prev : list KeyPoint :=
  [keypoint 0 0; keypoint 60 0; keypoint 0 50]%float.

Definition near_curr : list KeyPoint :=
  [keypoint 0 0; keypoint 70 0; keypoint 0 60]%float.

(** A lidar point in the focal plane of the pinhole camera. *)
Definition at_depth_zero : LidarPoint :=
  {| lp_x := 4; lp_y := 6; lp_z := 0; lp_r := 0 |}%float.

(** The keypoints of [line_prev], each moved by 10 pixels. *)
Definition shifted_curr : list KeyPoint :=
  [keypoint 10 0; keypoint 110 0; keypoint 210 0; keypoint 410 0]%float.

(** A region that already holds the fourth correspondence of the
    line. *)
Definition strip_filled : BoundingBox :=
  {| boxID := 7;
     roi := {| rect_x := 0; rect_y := 0; rect_width := 1000; rect_height := 10 |};
     lidarPoints := [];
     kptMatches := [ {| queryIdx := 3; trainIdx := 3 |} ] |}.

(** A world of 20 m by 10 m drawn into an image of 2000 by 1000
    pixels. *)
Definition world : Size := {| size_width := 10; size_height := 20 |}.
Definition image : Size := {| size_width := 1000; size_height := 2000 |}.
Definition flat_world : Size := {| size_width := 10; size_height := 0 |}.

Definition grey (id : Z) : Scalar := {| channel0 := id; channel1 := id; channel2 := id |}.

(** A region that holds the dense sweep. *)
Definition target : BoundingBox :=
  {| boxID := 3;
     roi := {| rect_x := 0; rect_y := 0; rect_width := 100; rect_height := 100 |};
     lidarPoints := sweep_dense; kptMatches := [] |}.

(** * Proofs *)

(** ** Order of binary64 values

    The comparisons of primitive floats are specified on [spec_float];
    the facts below follow by cases on the two or three operands. *)

Lemma Pos_compare_cont_Eq p q : Pos.compare_cont Eq p q = Pos.compare p q.
Proof. reflexivity. Qed.

Ltac sf_cases :=
  repeat match goal with
  | b : bool |- _ => destruct b
  | |- context [Z.compare ?a ?b] => destruct (Z.compare_spec a b)
  | H : context [Z.compare ?a ?b] |- _ => destruct (Z.compare_spec a b)
  | |- context [Pos.compare_cont Eq ?a ?b] =>
      rewrite (Pos_compare_cont_Eq a b); destruct (Pos.compare_spec a b)
  | H : context [Pos.compare_cont Eq ?a ?b] |- _ =>
      rewrite (Pos_compare_cont_Eq a b) in H; destruct (Pos.compare_spec a b)
  end; simpl in *; try congruence; try lia.

Lemma SFltb_trans x y z : SFltb x y = true → SFltb y z = true → SFltb x z = true.
Proof.
  unfold SFltb, SFcompare.
  destruct x as [sx|sx| |sx mx ex], y as [sy|sy| |sy my ey], z as [sz|sz| |sz mz ez];
    simpl; try congruence; sf_cases.
Qed.

Lemma SFltb_irrefl x : SFltb x x = false.
Proof.
  unfold SFltb, SFcompare.
  destruct x as [sx|sx| |sx mx ex]; simpl; try congruence; sf_cases.
Qed.

Lemma SFleb_ltb x y :
  Cxx.SFis_nan x = false → Cxx.SFis_nan y = false → SFleb x y = negb (SFltb y x).
Proof.
  unfold SFleb, SFltb, SFcompare.
  destruct x as [sx|sx| |sx mx ex], y as [sy|sy| |sy my ey];
    simpl; try congruence; sf_cases.
Qed.

Lemma SFleb_trans x y z : SFleb x y = true → SFleb y z = true → SFleb x z = true.
Proof.
  unfold SFleb, SFcompare.
  destruct x as [sx|sx| |sx mx ex], y as [sy|sy| |sy my ey], z as [sz|sz| |sz mz ez];
    simpl; try congruence; sf_cases.
Qed.

Lemma is_nan_spec x : is_nan x = Cxx.SFis_nan (Prim2SF x).
Proof.
  unfold Prim2SF. destruct (is_nan x); [done|].
  destruct (is_zero x); [done|]. destruct (is_infinity x); [done|].
  destruct (Z.frexp x). destruct (shr_fexp _ _ _ _ _) as [s ?].
  by destruct (shr_m s).
Qed.

Lemma ltb_trans (x y z : float) :
  (x <? y)%float = true → (y <? z)%float = true → (x <? z)%float = true.
Proof. rewrite !ltb_spec. apply SFltb_trans. Qed.

Lemma ltb_irrefl (x : float) : (x <? x)%float = false.
Proof. rewrite ltb_spec. apply SFltb_irrefl. Qed.

Lemma ltb_neq (x y : float) : (x <? y)%float = true → x ≠ y.
Proof. intros H ->. by rewrite ltb_irrefl in H. Qed.

Lemma leb_trans (x y z : float) :
  (x <=? y)%float = true → (y <=? z)%float = true → (x <=? z)%float = true.
Proof. rewrite !leb_spec. apply SFleb_trans. Qed.

(** Away from NaN, [a >= b] fails exactly when [a < b]. *)
Lemma leb_ltb (x y : float) :
  is_nan x = false → is_nan y = false → (x <=? y)%float = negb (y <? x)%float.
Proof. rewrite !is_nan_spec, leb_spec, ltb_spec. apply SFleb_ltb. Qed.

(** ** Operations that cannot produce NaN

    Rounding a non-negative mantissa yields a zero, a finite value or an
    infinity; so sums of finite values, differences from a finite value
    and quotients with a finite non-zero operand are not NaN. *)

Section RoundingNeverNaN.
Variables prec emax : Z.

Lemma shr_1_nonneg mrs : 0 ≤ shr_m mrs → 0 ≤ shr_m (shr_1 mrs).
Proof.
  destruct mrs as [m r s]. simpl. intros Hm.
  destruct m as [|[p|p|]|[p|p|]]; simpl; lia.
Qed.

Lemma iter_shr_1_nonneg p : ∀ mrs,
  0 ≤ shr_m mrs → 0 ≤ shr_m (SpecFloat.iter_pos (A := shr_record) shr_1 p mrs).
Proof.
  induction p as [p IH|p IH|]; intros mrs Hm; simpl.
  - apply IH, IH. by apply shr_1_nonneg.
  - by apply IH, IH.
  - by apply shr_1_nonneg.
Qed.

Lemma shr_fexp_nonneg m e l : 0 ≤ m → 0 ≤ shr_m (fst (shr_fexp prec emax m e l)).
Proof.
  intros Hm. unfold shr_fexp, shr.
  assert (H0 : 0 ≤ shr_m (shr_record_of_loc m l)) by (by destruct l as [|[]]).
  destruct (_ - e); simpl; [done| |done]. by apply iter_shr_1_nonneg.
Qed.

Lemma round_nearest_even_nonneg m l : 0 ≤ m → 0 ≤ round_nearest_even m l.
Proof.
  intros Hm. destruct l as [|[]]; simpl; [done| |done|lia].
  destruct (Z.even m); lia.
Qed.

Lemma binary_round_aux_not_nan sx mx ex lx :
  0 ≤ mx → Cxx.SFis_nan (binary_round_aux prec emax sx mx ex lx) = false.
Proof.
  intros Hm. unfold binary_round_aux.
  pose proof (shr_fexp_nonneg mx ex lx Hm) as H1.
  destruct (shr_fexp prec emax mx ex lx) as [mrs' e']. simpl in H1.
  pose proof (shr_fexp_nonneg _ e' loc_Exact
                (round_nearest_even_nonneg _ (loc_of_shr_record mrs') H1)) as H2.
  destruct (shr_fexp prec emax _ e' loc_Exact) as [mrs'' e'']. simpl in H2.
  destruct (shr_m mrs''); [done| |lia]. by destruct (_ <=? _).
Qed.

Lemma binary_normalize_not_nan m e szero :
  Cxx.SFis_nan (binary_normalize prec emax m e szero) = false.
Proof.
  unfold binary_normalize, binary_round.
  destruct m; [done| |]; destruct (shl_align _ _ _); by apply binary_round_aux_not_nan.
Qed.

Lemma SFadd_not_nan x y :
  Cxx.SFis_finite x = true → Cxx.SFis_finite y = true →
  Cxx.SFis_nan (SFadd prec emax x y) = false.
Proof.
  destruct x as [[]|[]| |sx mx ex], y as [[]|[]| |sy my ey]; try done.
  intros _ _. apply binary_normalize_not_nan.
Qed.

Lemma SFsub_not_nan x y :
  Cxx.SFis_finite x = true → Cxx.SFis_nan y = false →
  Cxx.SFis_nan (SFsub prec emax x y) = false.
Proof.
  destruct x as [[]|[]| |sx mx ex], y as [[]|[]| |sy my ey]; try done.
  intros _ _. apply binary_normalize_not_nan.
Qed.

Lemma SFdiv_core_nonneg m1 e1 m2 e2 :
  0 ≤ fst (fst (SFdiv_core_binary prec emax (Zpos m1) e1 (Zpos m2) e2)).
Proof.
  unfold SFdiv_core_binary.
  set (s := _ - _ - _).
  set (m' := match s with Zpos _ => Z.shiftl (Zpos m1) s | Z0 => Zpos m1 | Zneg _ => 0 end).
  assert (Hm' : 0 ≤ m').
  { unfold m'. destruct s; [lia| |lia]. apply Z.shiftl_nonneg. lia. }
  pose proof (Z.div_pos m' (Zpos m2) Hm' ltac:(lia)) as Hq.
  unfold Z.div in Hq. destruct (Z.div_eucl m' (Zpos m2)) as [q r]. done.
Qed.

Lemma SFdiv_not_nan x y :
  Cxx.SFis_nan x = false → Cxx.SFis_nan y = false →
  Cxx.SFis_finite_nonzero x = true ∨ Cxx.SFis_finite_nonzero y = true →
  Cxx.SFis_nan (SFdiv prec emax x y) = false.
Proof.
  destruct x as [[]|[]| |sx mx ex], y as [[]|[]| |sy my ey]; try done;
    try (intros _ _ [?|?]; done).
  intros _ _ _. simpl.
  pose proof (SFdiv_core_nonneg mx ex my ey) as Hq.
  destruct (SFdiv_core_binary prec emax (Z.pos mx) ex (Z.pos my) ey) as [[mz ez] lz].
  by apply binary_round_aux_not_nan.
Qed.

End RoundingNeverNaN.

Lemma is_finite_not_nan (x : float) : Cxx.is_finite x = true → is_nan x = false.
Proof.
  rewrite is_nan_spec. unfold Cxx.is_finite. by destruct (Prim2SF x).
Qed.

Lemma is_finite_nonzero_finite (x : float) :
  Cxx.is_finite_nonzero x = true → Cxx.is_finite x = true.
Proof. unfold Cxx.is_finite_nonzero, Cxx.is_finite. by destruct (Prim2SF x). Qed.

Lemma add_not_nan (x y : float) :
  Cxx.is_finite x = true → Cxx.is_finite y = true → is_nan (x + y) = false.
Proof. rewrite is_nan_spec, add_spec. apply SFadd_not_nan. Qed.

Lemma sub_not_nan (x y : float) :
  Cxx.is_finite x = true → is_nan y = false → is_nan (x - y) = false.
Proof. rewrite !is_nan_spec, sub_spec. apply SFsub_not_nan. Qed.

Lemma div_not_nan (x y : float) :
  is_nan x = false → is_nan y = false →
  Cxx.is_finite_nonzero x = true ∨ Cxx.is_finite_nonzero y = true →
  is_nan (x / y) = false.
Proof. rewrite !is_nan_spec, div_spec. apply SFdiv_not_nan. Qed.

Lemma opp_finite_nonzero (x : float) :
  Cxx.is_finite_nonzero (- x) = Cxx.is_finite_nonzero x.
Proof.
  unfold Cxx.is_finite_nonzero. rewrite opp_spec. by destruct (Prim2SF x).
Qed.


(** ** The clusters partition the indices *)

Lemma unprocessed_le p : (unprocessed p ≤ length p)%nat.
Proof. apply length_filter. Qed.

Lemma unprocessed_insert p i :
  p !! i = Some false → (unprocessed (<[i:=true]> p) + 1 = unprocessed p)%nat.
Proof.
  unfold unprocessed. revert i.
  induction p as [|b p IH]; intros [|i] H; simplify_eq/=.
  - rewrite filter_cons_False by done. lia.
  - specialize (IH _ H). rewrite !filter_cons.
    destruct (decide (b = false)); simpl; lia.
Qed.

Lemma grows_nil p : grows p [] p.
Proof.
  split.
  - done.
  - constructor.
  - intros j. split; [auto|]. intros [?|H]; [done|]. by apply elem_of_nil in H.
  - intros j H. by apply elem_of_nil in H.
  - simpl. lia.
Qed.

Lemma grows_insert p i : p !! i = Some false → grows p [i] (<[i:=true]> p).
Proof.
  intros Hi. assert (i < length p)%nat by (by eapply lookup_lt_Some).
  split.
  - apply length_insert.
  - apply NoDup_singleton.
  - intros j. rewrite list_elem_of_singleton. destruct (decide (j = i)) as [->|Hne].
    + rewrite list_lookup_insert_eq by done. split; auto.
    + rewrite list_lookup_insert_ne by done. split; [auto|]. intros [?|?]; done.
  - intros j ->%list_elem_of_singleton. done.
  - simpl. by apply unprocessed_insert.
Qed.

Lemma grows_app p new1 p1 new2 p2 :
  grows p new1 p1 → grows p1 new2 p2 → grows p (new1 ++ new2) p2.
Proof.
  intros [L1 N1 T1 F1 C1] [L2 N2 T2 F2 C2].
  assert (Hold : ∀ j, j ∈ new2 → p !! j = Some false).
  { intros j Hj. specialize (F2 j Hj).
    assert (Hlt : (j < length p)%nat) by (rewrite <- L1; by eapply lookup_lt_Some).
    destruct (lookup_lt_is_Some_2 p j Hlt) as [[] Hb]; [|done].
    assert (p1 !! j = Some true) by (apply T1; auto). congruence. }
  split.
  - congruence.
  - apply NoDup_app. split_and!; [done| |done].
    intros j Hj1 Hj2. specialize (F2 j Hj2).
    assert (p1 !! j = Some true) by (apply T1; auto). congruence.
  - intros j. rewrite T2, T1, elem_of_app. tauto.
  - intros j [?|?]%elem_of_app; auto.
  - rewrite length_app. lia.
Qed.

Section ClusteringFacts.
Context `{K : KdTreeOps}.
Variables (points : list (list float)) (tree : KdTree) (distanceTol : float).
Hypothesis search_in_range :
  ∀ target id, id ∈ kd_search tree target distanceTol → (id < length points)%nat.

Lemma visit_nearest_ok fuel nearest :
  helper_ok points tree distanceTol fuel →
  (∀ id, id ∈ nearest → (id < length points)%nat) →
  ∀ cluster p,
    length p = length points → (unprocessed p ≤ fuel)%nat →
    ∃ new p',
      visit_nearest (λ id c q, clusterHelper fuel id points c q tree distanceTol)
        nearest cluster p = Some (cluster ++ new, p')
      ∧ grows p new p'.
Proof.
  intros IH. induction nearest as [|id nearest IHn]; intros Hrange cluster p Hlen Hfuel.
  - exists [], p. rewrite app_nil_r. split; [done|apply grows_nil].
  - assert (Hid : (id < length p)%nat).
    { rewrite Hlen. apply Hrange. left. }
    destruct (lookup_lt_is_Some_2 p id Hid) as [b Hb].
    assert (Hrange' : ∀ id', id' ∈ nearest → (id' < length points)%nat).
    { intros id' ?. apply Hrange. by right. }
    simpl. rewrite Hb. simpl. destruct b.
    + by apply IHn.
    + destruct (IH id cluster p Hlen Hb Hfuel) as (new1 & p1 & -> & G1). simpl.
      destruct (IHn Hrange' (cluster ++ id :: new1) p1) as (new2 & p2 & -> & G2).
      * rewrite (grows_length _ _ _ G1). done.
      * pose proof (grows_count _ _ _ G1). lia.
      * exists ((id :: new1) ++ new2), p2. rewrite <- app_assoc. split; [done|].
        by eapply grows_app.
Qed.

Lemma clusterHelper_ok fuel : helper_ok points tree distanceTol fuel.
Proof.
  induction fuel as [|fuel IH]; intros index cluster p Hlen Hidx Hfuel.
  - exfalso. pose proof (unprocessed_insert p index Hidx). lia.
  - assert (Hlt : (index < length points)%nat).
    { rewrite <- Hlen. by eapply lookup_lt_Some. }
    destruct (lookup_lt_is_Some_2 points index Hlt) as [point Hpoint].
    pose proof (grows_insert p index Hidx) as G0.
    simpl. rewrite Hidx, Hpoint. simpl.
    destruct (visit_nearest_ok fuel (kd_search tree point distanceTol) IH
                (search_in_range point) (cluster ++ [index]) (<[index:=true]> p))
      as (new & p' & -> & G).
    + rewrite length_insert. done.
    + pose proof (unprocessed_insert p index Hidx). lia.
    + exists new, p'. rewrite <- app_assoc. split; [done|].
      change (index :: new) with ([index] ++ new). by eapply grows_app.
Qed.

Lemma cluster_loop_ok todo : ∀ i clusters p,
  todo = seq i (length points - i) → (i ≤ length points)%nat →
  length p = length points →
  grows (replicate (length points) false) (concat clusters) p →
  (∀ j, (j < i)%nat → p !! j = Some true) →
  Forall (λ c, c ≠ []) clusters →
  ∃ out p', cluster_loop points tree distanceTol todo clusters p = Some out
    ∧ grows (replicate (length points) false) (concat out) p'
    ∧ (∀ j, (j < length points)%nat → p' !! j = Some true)
    ∧ Forall (λ c, c ≠ []) out.
Proof.
  induction todo as [|i' todo IH]; intros i clusters p Htodo Hi Hlen G Hdone Hne.
  - exists clusters, p. split_and!; try done.
    intros j Hj. apply Hdone.
    destruct (decide (i = length points)) as [->|]; [done|].
    replace (length points - i)%nat with (S (length points - S i)) in Htodo by lia.
    done.
  - assert (Hlt : (i < length points)%nat).
    { destruct (decide (i = length points)) as [->|]; [|lia].
      rewrite Nat.sub_diag in Htodo. done. }
    replace (length points - i)%nat with (S (length points - S i)) in Htodo by lia.
    simpl in Htodo. injection Htodo as -> Htodo.
    assert (Hip : (i < length p)%nat) by lia.
    destruct (lookup_lt_is_Some_2 p i Hip) as [b Hb].
    simpl. rewrite Hb. simpl. destruct b.
    + apply (IH (S i)); try done.
      intros j Hj. destruct (decide (j = i)) as [->|]; [done|]. apply Hdone. lia.
    + destruct (clusterHelper_ok (length points) i [] p Hlen Hb) as (new & p1 & -> & G1).
      { rewrite <- Hlen. apply unprocessed_le. }
      simpl. apply (IH (S i)); try done.
      * rewrite (grows_length _ _ _ G1). done.
      * rewrite concat_app. simpl. rewrite app_nil_r. by eapply grows_app.
      * intros j Hj. apply (grows_true _ _ _ G1).
        destruct (decide (j = i)) as [->|]; [right; left|].
        left. apply Hdone. lia.
      * apply Forall_app. split; [done|]. by constructor.
Qed.

End ClusteringFacts.

Lemma elem_of_concat {A} (x : A) (ls : list (list A)) :
  x ∈ concat ls ↔ ∃ l, x ∈ l ∧ l ∈ ls.
Proof.
  induction ls as [|c ls IH]; simpl.
  - split; [intros H; by apply elem_of_nil in H|].
    intros (l & _ & H). by apply elem_of_nil in H.
  - rewrite elem_of_app, IH. split.
    + intros [?|(l & ? & ?)]; [exists c|exists l]; split; auto; by constructor.
    + intros (l & Hx & [->|?]%elem_of_cons); [by left|right; eauto].
Qed.

Lemma NoDup_concat_disjoint {A} (ls : list (list A)) k1 k2 c1 c2 :
  NoDup (concat ls) → k1 ≠ k2 → ls !! k1 = Some c1 → ls !! k2 = Some c2 →
  ∀ x, x ∈ c1 → x ∈ c2 → False.
Proof.
  revert k1 k2. induction ls as [|c ls IH]; intros k1 k2 Hnd Hne H1 H2 x Hx1 Hx2; [done|].
  simpl in Hnd. apply NoDup_app in Hnd as (_ & Hdis & Hnd).
  destruct k1 as [|k1], k2 as [|k2]; simplify_eq/=.
  - apply (Hdis x Hx1). apply elem_of_concat. eauto using list_elem_of_lookup_2.
  - apply (Hdis x Hx2). apply elem_of_concat. eauto using list_elem_of_lookup_2.
  - eapply (IH k1 k2); eauto.
Qed.

Lemma NoDup_concat_inner {A} (ls : list (list A)) c :
  NoDup (concat ls) → c ∈ ls → NoDup c.
Proof.
  induction ls as [|c' ls IH]; intros Hnd Hc; [by apply elem_of_nil in Hc|].
  simpl in Hnd. apply NoDup_app in Hnd as (? & _ & ?).
  apply elem_of_cons in Hc as [->|?]; auto.
Qed.

Lemma grows_partition n clusters p :
  grows (replicate n false) (concat clusters) p →
  (∀ j, (j < n)%nat → p !! j = Some true) →
  Forall (λ c, c ≠ []) clusters →
  partition_of n clusters.
Proof.
  intros G Hall Hne.
  assert (Hmem : ∀ i, i ∈ concat clusters ↔ (i < n)%nat).
  { intros i. split.
    - intros Hi. apply (grows_fresh _ _ _ G) in Hi.
      apply lookup_lt_Some in Hi. by rewrite length_replicate in Hi.
    - intros Hi. destruct (proj1 (grows_true _ _ _ G i) (Hall i Hi)) as [Hr|]; [|done].
      apply lookup_replicate in Hr as [? _]. done. }
  pose proof (grows_NoDup _ _ _ G) as Hnd.
  split.
  - apply NoDup_Permutation; [done|apply NoDup_seq|].
    intros i. rewrite Hmem, elem_of_seq. lia.
  - intros i Hi. apply Hmem, elem_of_concat in Hi as (c & Hic & Hc).
    apply list_elem_of_lookup in Hc as [k Hk]. eauto.
  - intros k1 k2 c1 c2 i H1 H2 Hi1 Hi2.
    destruct (decide (k1 = k2)) as [|Hk]; [done|].
    destruct (NoDup_concat_disjoint clusters k1 k2 c1 c2 Hnd Hk H1 H2 i Hi1 Hi2).
  - apply Forall_forall. intros c Hc. by eapply NoDup_concat_inner.
  - done.
Qed.

Lemma euclideanCluster_ok `{K : KdTreeOps} points tree distanceTol :
  (∀ target id, id ∈ kd_search tree target distanceTol → (id < length points)%nat) →
  ∃ clusters, euclideanCluster points tree distanceTol = Some clusters
              ∧ partition_of (length points) clusters.
Proof.
  intros Hrange. unfold euclideanCluster.
  destruct (cluster_loop_ok points tree distanceTol Hrange
              (seq 0 (length points)) 0%nat [] (replicate (length points) false))
    as (out & p' & Hout & G & Hall & Hne).
  - by rewrite Nat.sub_0_r.
  - lia.
  - apply length_replicate.
  - apply grows_nil.
  - intros j Hj. lia.
  - constructor.
  - exists out. split; [done|]. by eapply grows_partition.
Qed.

(** The tree that [removeLidarOutlier] builds reports indices of the
    point list only. *)
Lemma insert_points_search `{KdTreeSound} coords : ∀ t i target tol id,
  (∀ id', id' ∈ kd_search t target tol → (id' < i)%nat) →
  id ∈ kd_search (insert_points t i coords) target tol →
  (id < i + length coords)%nat.
Proof.
  induction coords as [|c coords IH]; intros t i target tol id Ht Hid; simpl in *.
  - apply Ht in Hid. lia.
  - apply IH in Hid; [lia|].
    intros id' [->|Hid']%kd_search_insert; [lia|]. apply Ht in Hid'. lia.
Qed.

Lemma built_tree_in_range `{KdTreeSound} coords target tol id :
  id ∈ kd_search (insert_points kd_new 0 coords) target tol → (id < length coords)%nat.
Proof.
  intros Hid. apply insert_points_search in Hid; [done|].
  intros id'. rewrite kd_search_new. intros Hc. by apply elem_of_nil in Hc.
Qed.

Lemma ScanIndex_sound : KdTreeSound ScanIndex.ops.
Proof.
  split.
  - done.
  - intros t point i target tol id. simpl. unfold ScanIndex.search.
    rewrite omap_app, elem_of_app. intros [?|Hid]; [by right|left].
    simpl in Hid. destruct (_ <=? _)%float; simpl in Hid.
    + by apply list_elem_of_singleton in Hid.
    + by apply elem_of_nil in Hid.
Qed.

(** ** The outlier rejector keeps the first largest cluster *)

Lemma cluster_points_ok (points : list LidarPoint) (c : list nat) :
  (∀ i, i ∈ c → (i < length points)%nat) →
  ∃ temp, cluster_points points c = Some temp
          ∧ Forall2 (λ i p, points !! i = Some p) c temp.
Proof.
  intros Hc. unfold cluster_points.
  destruct (mapM_is_Some_2 (λ index, points !! index) c) as [temp Htemp].
  - apply Forall_forall. intros i Hi. apply lookup_lt_is_Some_2. by apply Hc.
  - exists temp. split; [done|]. by apply mapM_Some_1.
Qed.

Lemma first_largest_singleton c : first_largest [c] 0 c.
Proof.
  split.
  - done.
  - intros [|k'] c' Hk'; simplify_eq/=. done.
  - intros k' c' Hk'. lia.
Qed.

Lemma first_largest_keep done k c c0 :
  first_largest done k c → (length c0 ≤ length c)%nat →
  first_largest (done ++ [c0]) k c.
Proof.
  intros [Hat Hmax Hfirst] Hle. split.
  - by apply lookup_app_l_Some.
  - intros k' c' [?|[_ Hk']]%lookup_app_Some; [by eapply Hmax|].
    apply list_lookup_singleton_Some in Hk' as [_ <-]. done.
  - intros k' c' Hlt [?|[Hge _]]%lookup_app_Some; [by eapply Hfirst|].
    apply lookup_lt_Some in Hat. lia.
Qed.

Lemma first_largest_replace done k c c0 :
  first_largest done k c → (length c < length c0)%nat →
  first_largest (done ++ [c0]) (length done) c0.
Proof.
  intros [Hat Hmax Hfirst] Hlt. split.
  - by apply list_lookup_middle.
  - intros k' c' [Hk'|[_ Hk']]%lookup_app_Some.
    + specialize (Hmax _ _ Hk'). lia.
    + apply list_lookup_singleton_Some in Hk' as [_ <-]. done.
  - intros k' c' Hk [Hk'|[Hge _]]%lookup_app_Some; [|lia].
    specialize (Hmax _ _ Hk'). lia.
Qed.

Lemma select_fold (points : list LidarPoint) : ∀ rest done acc,
  Forall (λ c, c ≠ [] ∧ ∀ i, i ∈ c → (i < length points)%nat) rest →
  (done = [] ∧ acc = []
   ∨ ∃ k c, first_largest done k c ∧ Forall2 (λ i p, points !! i = Some p) c acc) →
  ∃ out, foldlM (select_cluster points) acc rest = Some out
    ∧ (done ++ rest = [] ∧ out = []
       ∨ ∃ k c, first_largest (done ++ rest) k c
                ∧ Forall2 (λ i p, points !! i = Some p) c out).
Proof.
  induction rest as [|c0 rest IH]; intros done acc Hrest Hacc.
  - exists acc. rewrite app_nil_r. split; [done|]. destruct Hacc as [[-> ->]|?]; auto.
  - apply Forall_cons in Hrest as [[Hne Hrange] Hrest].
    destruct (cluster_points_ok points c0 Hrange) as (temp & Htemp & Hpts).
    pose proof (Forall2_length _ _ _ Hpts) as Hlen.
    assert (Hstep : select_cluster points acc c0
                    = Some (if decide (length acc < length temp)%nat then temp else acc)).
    { unfold select_cluster. by rewrite Htemp. }
    cbn [foldlM]. rewrite Hstep. cbn [mbind option_bind].
    replace (done ++ c0 :: rest) with ((done ++ [c0]) ++ rest)
      by (by rewrite <- app_assoc).
    apply IH; [done|]. right.
    destruct Hacc as [[-> ->]|(k & c & Hfl & Hc)].
    + exists 0%nat, c0. rewrite decide_True.
      * split; [apply first_largest_singleton|done].
      * destruct c0; [done|]. simpl in *. lia.
    + pose proof (Forall2_length _ _ _ Hc) as Hlenc.
      destruct (decide (length acc < length temp)%nat).
      * exists (length done), c0. split; [|done].
        eapply first_largest_replace; [done|lia].
      * exists k, c. split; [|done].
        eapply first_largest_keep; [done|lia].
Qed.

Lemma removeLidarOutlier_ok `{KdTreeSound} (points : list LidarPoint) (tol : float) :
  ∃ clusters out,
    euclideanCluster (coordinates <$> points)
      (insert_points kd_new 0 (coordinates <$> points)) tol = Some clusters
    ∧ partition_of (length points) clusters
    ∧ removeLidarOutlier points tol = Some out
    ∧ (clusters = [] ∧ out = []
       ∨ ∃ k c, first_largest clusters k c
                ∧ Forall2 (λ i p, points !! i = Some p) c out).
Proof.
  destruct (euclideanCluster_ok (coordinates <$> points)
              (insert_points kd_new 0 (coordinates <$> points)) tol)
    as (clusters & Hcl & Hpart).
  { intros target id. apply built_tree_in_range. }
  rewrite length_fmap in Hpart.
  destruct (select_fold points clusters [] []) as (out & Hout & Hsel).
  - apply Forall_forall. intros c Hc. split.
    + by eapply (proj1 (Forall_forall _ _) (part_nonempty _ _ Hpart)).
    + intros i Hi.
      assert (Hin : i ∈ concat clusters) by (apply elem_of_concat; eauto).
      rewrite (part_perm _ _ Hpart), elem_of_seq in Hin. lia.
  - by left.
  - exists clusters, out. unfold removeLidarOutlier. rewrite Hcl. simpl.
    split_and!; done.
Qed.

(** ** The closest point in the ego lane *)

Lemma lane_half_width : (laneWidth / 2)%float = 2%float.
Proof. reflexivity. Qed.

Lemma closest_step_spec seen m p :
  closest_spec seen m → closest_spec (seen ++ [p]) (closest_step m p).
Proof.
  intros [Hat Hcap Hlow]. unfold closest_step. rewrite lane_half_width.
  fold (in_lane p). destruct (in_lane p) eqn:Hlane.
  - destruct (lp_x p <? m)%float eqn:Hlt.
    + split.
      * right. exists p. split_and!; [|done..]. apply elem_of_app. right. by left.
      * destruct (1e9 <? lp_x p)%float eqn:Hc; [|done].
        by rewrite (ltb_trans _ _ _ Hc Hlt) in Hcap.
      * intros q [Hq|Hq]%elem_of_app Hql.
        -- destruct (lp_x q <? lp_x p)%float eqn:Hc; [|done].
           pose proof (ltb_trans _ _ _ Hc Hlt) as Ht.
           by rewrite (Hlow q Hq Hql) in Ht.
        -- apply list_elem_of_singleton in Hq as ->. apply ltb_irrefl.
    + split.
      * destruct Hat as [?|(q & ? & ? & ?)]; [by left|right].
        exists q. split_and!; [|done..]. apply elem_of_app. by left.
      * done.
      * intros q [Hq|Hq]%elem_of_app Hql; [by apply Hlow|].
        by apply list_elem_of_singleton in Hq as ->.
  - split.
    + destruct Hat as [?|(q & ? & ? & ?)]; [by left|right].
      exists q. split_and!; [|done..]. apply elem_of_app. by left.
    + done.
    + intros q [Hq|Hq]%elem_of_app Hql; [by apply Hlow|].
      apply list_elem_of_singleton in Hq as ->. congruence.
Qed.

Lemma closest_fold points : ∀ seen m,
  closest_spec seen m → closest_spec (seen ++ points) (foldl closest_step m points).
Proof.
  induction points as [|p points IH]; intros seen m Hm; simpl.
  - by rewrite app_nil_r.
  - replace (seen ++ p :: points) with ((seen ++ [p]) ++ points)
      by (by rewrite <- app_assoc).
    apply IH. by apply closest_step_spec.
Qed.

Lemma closest_in_lane_spec points : closest_spec points (closest_in_lane points).
Proof.
  apply (closest_fold points [] 1e9%float). split.
  - by left.
  - reflexivity.
  - intros p Hp. by apply elem_of_nil in Hp.
Qed.

Lemma closest_no_point points m :
  closest_spec points m → (∀ p, p ∈ points → in_lane p = false) → m = 1e9%float.
Proof.
  intros [[Hm|(p & Hp & Hlane & _)] _ _] Hnone; [done|].
  rewrite (Hnone p Hp) in Hlane. done.
Qed.

Lemma closest_in_lane_filter points : ∀ m,
  foldl closest_step m points
  = foldl (λ m q, if (lp_x q <? m)%float then lp_x q else m) m
      (filter (λ p, in_lane p = true) points).
Proof.
  induction points as [|p points IH]; intros m; [done|].
  rewrite filter_cons. simpl. rewrite IH. unfold closest_step at 1.
  rewrite lane_half_width. fold (in_lane p).
  destruct (in_lane p); [by rewrite decide_True|by rewrite decide_False].
Qed.

(** Below the sentinel the running minimum is the minimum as worded. *)
Lemma closest_as_worded points :
  (∀ p, p ∈ points → in_lane p = true → (lp_x p <? 1e9)%float = true) →
  closest_in_lane points = least_x_in_lane points.
Proof.
  intros Hbelow. unfold closest_in_lane, least_x_in_lane.
  rewrite closest_in_lane_filter.
  destruct (filter (λ p, in_lane p = true) points) as [|p ps] eqn:E; [done|].
  assert (Hp : p ∈ filter (λ p, in_lane p = true) points) by (rewrite E; by left).
  apply list_elem_of_filter in Hp as [Hlane Hp]. simpl.
  by rewrite (Hbelow p Hp Hlane).
Qed.

(** ** Sorting and the median *)

Lemma sort_insert_perm x l : sort_insert x l ≡ₚ x :: l.
Proof.
  induction l as [|y l IH]; simpl; [done|].
  destruct (x <? y)%float; [done|]. rewrite IH. apply Permutation_swap.
Qed.

Lemma sort_perm l : sort l ≡ₚ l.
Proof.
  induction l as [|x l IH]; simpl; [done|]. by rewrite sort_insert_perm, IH.
Qed.

Lemma ltb_leb (x y : float) : (x <? y)%float = true → (x <=? y)%float = true.
Proof.
  rewrite ltb_spec, leb_spec. unfold SFltb, SFleb.
  by destruct (SFcompare (Prim2SF x) (Prim2SF y)) as [[]|].
Qed.

Lemma ltb_not_nan (x y : float) :
  (x <? y)%float = true → is_nan x = false ∧ is_nan y = false.
Proof.
  rewrite !is_nan_spec, ltb_spec. unfold SFltb, SFcompare.
  by destruct (Prim2SF x), (Prim2SF y).
Qed.

Lemma sort_insert_sorted x l :
  is_nan x = false → Forall (λ y, is_nan y = false) l →
  Sorted float_le l → Sorted float_le (sort_insert x l).
Proof.
  intros Hx Hl Hs. induction Hs as [|y l Hs IH Hhd]; simpl.
  - repeat constructor.
  - apply Forall_cons in Hl as [Hy Hl].
    destruct (x <? y)%float eqn:Hlt.
    + constructor; [by constructor|]. constructor. by apply ltb_leb.
    + assert (Hyx : float_le y x).
      { unfold float_le. rewrite leb_ltb by done. by rewrite Hlt. }
      constructor; [by apply IH|].
      destruct Hhd as [|z l Hyz]; simpl.
      * by constructor.
      * destruct (x <? z)%float; by constructor.
Qed.

Lemma sort_sorted l :
  Forall (λ y, is_nan y = false) l → Sorted float_le (sort l).
Proof.
  induction l as [|x l IH]; intros Hl; simpl; [constructor|].
  apply Forall_cons in Hl as [Hx Hl]. apply sort_insert_sorted; [done| |auto].
  by rewrite sort_perm.
Qed.

Lemma nth_removelast (d : float) l i :
  (S i < length l)%nat → nth i (removelast l) d = nth i l d.
Proof.
  intros Hi. rewrite removelast_firstn_len, nth_firstn.
  destruct (i <? Init.Nat.pred (length l))%nat eqn:E; [done|].
  apply Nat.ltb_ge in E. lia.
Qed.

Lemma length_removelast (l : list float) : length (removelast l) = Init.Nat.pred (length l).
Proof.
  rewrite removelast_firstn_len, length_take. lia.
Qed.

Lemma peel_central (d : float) : ∀ fuel l,
  l ≠ [] → (length l ≤ 2 * fuel + 2)%nat →
  peel fuel l =
    if Nat.even (length l)
    then [nth (length l / 2 - 1) l d; nth (length l / 2) l d]
    else [nth (length l / 2) l d].
Proof.
  induction fuel as [|fuel IH]; intros l Hne Hlen.
  - destruct l as [|a [|b [|c l]]]; simpl in *; try done. lia.
  - destruct l as [|a [|b [|c l]]]; try done.
    cbn [peel]. rewrite IH.
    + set (r := b :: c :: l).
      assert (Hr : length r = S (S (length l))) by done.
      assert (Hl' : length (removelast r) = S (length l)).
      { rewrite length_removelast, Hr. done. }
      rewrite Hl'. cbn [length]. fold r. rewrite Hr.
      replace (Nat.even (S (S (S (length l))))) with (Nat.even (S (length l))) by done.
      assert (Hdiv : (S (S (S (length l))) / 2 = S (S (length l) / 2))%nat).
      { change (S (S (S (length l)))) with (1 * 2 + S (length l))%nat.
        rewrite Nat.div_add_l by done. lia. }
      rewrite Hdiv.
      assert (Hhalf : (S (S (length l) / 2) < length r)%nat).
      { rewrite Hr. pose proof (Nat.Div0.div_lt_upper_bound (S (length l)) 2 (S (length l))).
        lia. }
      destruct (Nat.even (S (length l))) eqn:Hev.
      * assert (1 ≤ S (length l) / 2)%nat.
        { apply Nat.even_spec in Hev as [m Hm]. rewrite Hm.
          rewrite Nat.mul_comm, Nat.div_mul by done. lia. }
        rewrite !nth_removelast by lia.
        replace (S (S (length l) / 2) - 1)%nat with (S (S (length l) / 2 - 1)) by lia.
        done.
      * rewrite !nth_removelast by lia. done.
    + simpl. by destruct l.
    + rewrite length_removelast. simpl in *. lia.
Qed.

Lemma median_of_index sorted :
  sorted ≠ [] →
  median_of sorted =
    if Nat.even (length sorted)
    then ((nth (length sorted / 2 - 1) sorted nan + nth (length sorted / 2) sorted nan) / 2)%float
    else nth (length sorted / 2) sorted nan.
Proof.
  intros Hne. unfold median_of, central_values.
  rewrite (peel_central nan) by (done || lia).
  by destruct (Nat.even (length sorted)).
Qed.

Lemma medianTTC_nonempty distRatios frameRate :
  distRatios ≠ [] →
  medianTTC distRatios frameRate
  = (- (1 / frameRate) / (1 - median_of (sort distRatios)))%float.
Proof.
  intros Hne. rewrite median_of_index.
  - by destruct distRatios.
  - intros E. apply Hne. apply Permutation_nil_r. by rewrite <- E, sort_perm.
Qed.

(** With finite ratios and a finite non-zero period the quotient is a
    number. *)
Lemma medianTTC_not_nan distRatios frameRate :
  distRatios ≠ [] →
  Forall (λ r, Cxx.is_finite r = true) distRatios →
  Cxx.is_finite_nonzero (1 / frameRate) = true →
  is_nan (medianTTC distRatios frameRate) = false.
Proof.
  intros Hne Hfin HdT. rewrite medianTTC_nonempty, median_of_index by
    (done || (intros E; apply Hne, Permutation_nil_r; by rewrite <- E, sort_perm)).
  assert (Hs : Forall (λ r, Cxx.is_finite r = true) (sort distRatios))
    by (by rewrite sort_perm).
  assert (Hlen : (0 < length (sort distRatios))%nat).
  { rewrite sort_perm. destruct distRatios; [done|simpl; lia]. }
  assert (Hnth : ∀ i, (i < length (sort distRatios))%nat →
                      Cxx.is_finite (nth i (sort distRatios) nan) = true).
  { intros i Hi. by apply Forall_nth. }
  assert (Hhalf : (length (sort distRatios) / 2 < length (sort distRatios))%nat).
  { apply Nat.div_lt; lia. }
  apply div_not_nan.
  - apply is_finite_not_nan, is_finite_nonzero_finite. by rewrite opp_finite_nonzero.
  - apply sub_not_nan; [done|].
    destruct (Nat.even (length (sort distRatios))).
    + apply div_not_nan; [|done|by right].
      apply add_not_nan; apply Hnth; lia.
    + apply is_finite_not_nan, Hnth. done.
  - left. by rewrite opp_finite_nonzero.
Qed.

(** ** The vote map and its maximum *)

Lemma map_find_map_set k v m k' :
  map_find k' (map_set k v m) = if decide (k = k') then Some v else map_find k' m.
Proof.
  induction m as [|[k0 v0] m IH]; simpl.
  - repeat case_decide; done.
  - repeat (case_decide; simpl; simplify_eq); try done; try lia.
Qed.

Lemma map_set_keys k v m x :
  x ∈ (fst <$> map_set k v m) → x = k ∨ x ∈ (fst <$> m).
Proof.
  induction m as [|[k0 v0] m IH]; simpl.
  - intros ->%list_elem_of_singleton. by left.
  - repeat case_decide; simpl; rewrite !elem_of_cons; intros Hx.
    + destruct Hx as [->|[->|?]]; auto.
    + destruct Hx as [->|?]; auto.
    + destruct Hx as [->|Hx]; [auto|]. destruct (IH Hx); auto.
Qed.

Lemma map_set_increasing k v m : keys_increasing m → keys_increasing (map_set k v m).
Proof.
  unfold keys_increasing. induction m as [|[k0 v0] m IH]; simpl; intros Hs.
  - repeat constructor.
  - apply StronglySorted_inv in Hs as [Hs Hall].
    repeat case_decide; simpl; simplify_eq.
    + constructor; [by constructor|]. constructor; [done|].
      eapply Forall_impl; [done|]. simpl. lia.
    + by constructor.
    + constructor; [by apply IH|].
      apply Forall_forall. intros x [->|Hx]%map_set_keys; [lia|].
      by eapply (proj1 (Forall_forall _ _) Hall).
Qed.

Lemma occurrences_app id l1 l2 :
  occurrences id (l1 ++ l2) = occurrences id l1 + occurrences id l2.
Proof. unfold occurrences. rewrite filter_app, length_app. lia. Qed.

Lemma occurrences_nonneg id l : 0 ≤ occurrences id l.
Proof. unfold occurrences. lia. Qed.

Lemma occurrences_singleton id id' :
  occurrences id [id'] = if decide (id' = id) then 1 else 0.
Proof.
  unfold occurrences. rewrite filter_cons, filter_nil. by case_decide.
Qed.

Lemma counts_nil : counts [] [].
Proof. split; [constructor|done]. Qed.

Lemma counts_vote m ids id : counts m ids → counts (vote m id) (ids ++ [id]).
Proof.
  intros [Hs Hm]. unfold vote.
  assert (Hset : ∀ v id', map_find id' (map_set id v m)
                          = if decide (id = id') then Some v else map_find id' m)
    by (intros; apply map_find_map_set).
  pose proof (occurrences_nonneg id ids) as Hnn.
  split.
  - destruct (map_find id m); by apply map_set_increasing.
  - intros id'. rewrite occurrences_app, occurrences_singleton.
    pose proof (occurrences_nonneg id' ids).
    pose proof (Hm id) as Hid. pose proof (Hm id') as Hid'.
    destruct (map_find id m) as [n|] eqn:E; rewrite Hset;
      repeat (case_decide; simplify_eq); try done; try lia.
    all: rewrite ?Hid'; f_equal; lia.
Qed.

Lemma counts_foldl ids : ∀ m seen,
  counts m seen → counts (foldl vote m ids) (seen ++ ids).
Proof.
  induction ids as [|id ids IH]; intros m seen Hm; simpl.
  - by rewrite app_nil_r.
  - replace (seen ++ id :: ids) with ((seen ++ [id]) ++ ids)
      by (by rewrite <- app_assoc).
    apply IH. by apply counts_vote.
Qed.

Lemma tally_match_eq prevFrame currFrame prevBox currBox m mt :
  is_Some (Cxx.at_ (keypoints prevFrame) (queryIdx mt)) →
  is_Some (Cxx.at_ (keypoints currFrame) (trainIdx mt)) →
  tally_match prevFrame currFrame prevBox currBox m mt
  = Some (foldl vote m (if casts_vote prevFrame currFrame prevBox currBox mt
                        then [boxID currBox] else [])).
Proof.
  intros [kp Hkp] [kc Hkc]. unfold tally_match, casts_vote. rewrite Hkp, Hkc. simpl.
  destruct (contains2f (roi prevBox) (pt kp)); simpl; [|done].
  by destruct (contains2f (roi currBox) (pt kc)).
Qed.

Lemma tally_matches_eq prevFrame currFrame prevBox currBox matches : ∀ m,
  matches_in_range matches prevFrame currFrame →
  foldlM (tally_match prevFrame currFrame prevBox currBox) m matches
  = Some (foldl vote m
            (mt ← matches;
             if casts_vote prevFrame currFrame prevBox currBox mt
             then [boxID currBox] else [])).
Proof.
  induction matches as [|mt matches IH]; intros m Hr; [done|].
  apply Forall_cons in Hr as [[Hp Hc] Hr].
  cbn [foldlM]. rewrite tally_match_eq by done. cbn [mbind option_bind].
  rewrite IH by done. f_equal. simpl. by rewrite foldl_app.
Qed.

Lemma tally_eq matches prevFrame currFrame prevBox :
  matches_in_range matches prevFrame currFrame →
  tally matches prevFrame currFrame prevBox
  = Some (foldl vote [] (vote_ids matches prevFrame currFrame prevBox)).
Proof.
  intros Hr. unfold tally, vote_ids. generalize (@nil (Z * Z)).
  induction (boundingBoxes currFrame) as [|c cs IH]; intros m; [done|].
  cbn [foldlM]. rewrite tally_matches_eq by done. cbn [mbind option_bind].
  rewrite IH. f_equal. simpl. by rewrite foldl_app.
Qed.

Lemma map_find_elem m k v : keys_increasing m → (k, v) ∈ m → map_find k m = Some v.
Proof.
  unfold keys_increasing. induction m as [|[k0 v0] m IH]; simpl; intros Hs Hin.
  - by apply elem_of_nil in Hin.
  - apply StronglySorted_inv in Hs as [Hs Hall].
    apply elem_of_cons in Hin as [?|Hin]; simplify_eq.
    + by rewrite decide_True.
    + rewrite decide_False; [by apply IH|].
      intros ->. assert (Hk : k ∈ (fst <$> m)).
      { apply list_elem_of_fmap. by exists (k, v). }
      apply (proj1 (Forall_forall _ _) Hall) in Hk. lia.
Qed.

Lemma max_fold_spec rest : ∀ seen largest,
  StronglySorted Z.lt (fst <$> (largest :: rest)) →
  largest ∈ seen →
  (∀ e, e ∈ seen → e.2 ≤ largest.2 ∧ (e.2 = largest.2 → largest.1 ≤ e.1)) →
  let r := foldl (λ largest e', if largest.2 <? e'.2 then e' else largest) largest rest in
  r ∈ seen ++ rest
  ∧ ∀ e, e ∈ seen ++ rest → e.2 ≤ r.2 ∧ (e.2 = r.2 → r.1 ≤ e.1).
Proof.
  induction rest as [|e' rest IH]; intros seen largest Hs Hin Hmax; simpl.
  - rewrite app_nil_r. done.
  - simpl in Hs. apply StronglySorted_inv in Hs as [Hs Hall].
    apply Forall_cons in Hall as [Hlt Hall].
    apply StronglySorted_inv in Hs as [Hs Hall'].
    replace (seen ++ e' :: rest) with ((seen ++ [e']) ++ rest)
      by (by rewrite <- app_assoc).
    destruct (largest.2 <? e'.2) eqn:Hcmp.
    + apply Z.ltb_lt in Hcmp. apply IH.
      * by constructor.
      * apply elem_of_app. right. by left.
      * intros e He. apply elem_of_app in He as [He|He].
        -- destruct (Hmax e He). lia.
        -- apply list_elem_of_singleton in He as ->. lia.
    + apply Z.ltb_ge in Hcmp. apply IH.
      * constructor; done.
      * apply elem_of_app. by left.
      * intros e He. apply elem_of_app in He as [He|He]; [by apply Hmax|].
        apply list_elem_of_singleton in He as ->. lia.
Qed.

Lemma max_element_spec m :
  keys_increasing m → m ≠ [] →
  ∃ r, max_element m = Some r ∧ r ∈ m
       ∧ ∀ e, e ∈ m → e.2 ≤ r.2 ∧ (e.2 = r.2 → r.1 ≤ e.1).
Proof.
  intros Hs Hne. destruct m as [|e rest]; [done|].
  eexists. split; [done|].
  apply (max_fold_spec rest [e] e Hs).
  - by left.
  - intros e0 ->%list_elem_of_singleton. lia.
Qed.

Lemma map_find_Some_elem m k v : map_find k m = Some v → (k, v) ∈ m.
Proof.
  induction m as [|[k0 v0] m IH]; simpl; [done|].
  case_decide; intros Hf; simplify_eq; [by left|]. right. by apply IH.
Qed.

(** One previous region: its votes are tallied and, when it has a vote,
    [get_max] yields its best partner. *)
Lemma best_step matches prevFrame currFrame prevBox :
  matches_in_range matches prevFrame currFrame →
  (∃ id, 0 < votes matches prevFrame currFrame prevBox id) →
  ∃ m mx, tally matches prevFrame currFrame prevBox = Some m
          ∧ get_max m = Some mx
          ∧ best_partner matches prevFrame currFrame prevBox mx.1.
Proof.
  intros Hr [id0 Hid0].
  set (ids := vote_ids matches prevFrame currFrame prevBox).
  set (m := foldl vote [] ids).
  assert (Hc : counts m ids) by apply (counts_foldl ids [] [] counts_nil).
  destruct Hc as [Hs Hm].
  assert (Hvotes : ∀ id, votes matches prevFrame currFrame prevBox id = occurrences id ids)
    by done.
  assert (Hne : m ≠ []).
  { intros E. pose proof (Hm id0) as H0. rewrite E in H0. simpl in H0.
    rewrite Hvotes in Hid0. case_decide; [lia|done]. }
  destruct (max_element_spec m Hs Hne) as ([k v] & Hmax & Hin & Hbest).
  exists m, (k, v). split_and!; [by apply tally_eq|done|].
  pose proof (map_find_elem m k v Hs Hin) as Hk. rewrite Hm in Hk.
  pose proof (occurrences_nonneg k ids).
  case_decide; [done|]. simplify_eq. simpl in *.
  split; [rewrite Hvotes; lia|].
  intros id'. rewrite !Hvotes. pose proof (occurrences_nonneg id' ids).
  pose proof (Hm id') as Hid'. case_decide; [lia|].
  apply map_find_Some_elem in Hid'. destruct (Hbest _ Hid') as [Hle Htie]. done.
Qed.

(** The loop over the previous regions: the entry of a region is the one
    written for it when no later region has its id, and the other entries
    of the map stay. *)
Lemma matchBoundingBoxes_fold matches prevFrame currFrame prevBoxes : ∀ best,
  matches_in_range matches prevFrame currFrame →
  NoDup (boxID <$> prevBoxes) →
  (∀ b, b ∈ prevBoxes → ∃ id, 0 < votes matches prevFrame currFrame b id) →
  ∃ out,
    foldlM (λ best prevBox,
              m ← tally matches prevFrame currFrame prevBox;
              max ← get_max m;
              Some (map_set (boxID prevBox) max.1 best)) best prevBoxes = Some out
    ∧ (∀ b, b ∈ prevBoxes →
         ∃ id, map_find (boxID b) out = Some id
               ∧ best_partner matches prevFrame currFrame b id)
    ∧ (∀ k, k ∉ (boxID <$> prevBoxes) → map_find k out = map_find k best).
Proof.
  induction prevBoxes as [|b prevBoxes IH]; intros best Hr Hnd Hv.
  - exists best. split_and!; [done| |done]. intros b Hb. by apply elem_of_nil in Hb.
  - rewrite fmap_cons in Hnd. apply NoDup_cons in Hnd as [Hfresh Hnd].
    destruct (best_step matches prevFrame currFrame b Hr) as (m & mx & Hm & Hmx & Hbest).
    { apply Hv. by left. }
    destruct (IH (map_set (boxID b) mx.1 best) Hr Hnd) as (out & Hout & Hin & Hother).
    { intros b' Hb'. apply Hv. by right. }
    exists out. cbn [foldlM]. rewrite Hm. cbn [mbind option_bind]. rewrite Hmx.
    cbn [mbind option_bind]. split_and!; [done| |].
    + intros b' [->|Hb']%elem_of_cons; [|by apply Hin].
      exists mx.1. split; [|done].
      rewrite Hother by done. rewrite map_find_map_set. by rewrite decide_True.
    + intros k Hk. rewrite fmap_cons, not_elem_of_cons in Hk. destruct Hk as [Hkb Hk].
      rewrite Hother by done. rewrite map_find_map_set. by rewrite decide_False.
Qed.

(** Whenever [matchBoundingBoxes] returns, every previous region has an
    entry in the map it returns. *)
Lemma matchBoundingBoxes_entries matches prevFrame currFrame prevBoxes : ∀ best out,
  foldlM (λ best prevBox,
            m ← tally matches prevFrame currFrame prevBox;
            max ← get_max m;
            Some (map_set (boxID prevBox) max.1 best)) best prevBoxes = Some out →
  (∀ k, is_Some (map_find k best) → is_Some (map_find k out))
  ∧ ∀ b, b ∈ prevBoxes → is_Some (map_find (boxID b) out).
Proof.
  induction prevBoxes as [|b prevBoxes IH]; intros best out Hout.
  - simplify_eq/=. split; [done|]. intros b Hb. by apply elem_of_nil in Hb.
  - cbn [foldlM] in Hout.
    destruct (tally matches prevFrame currFrame b) as [m|]; [|done].
    cbn [mbind option_bind] in Hout. destruct (get_max m) as [mx|]; [|done].
    cbn [mbind option_bind] in Hout. destruct (IH _ _ Hout) as [Hkeep Hin].
    split.
    + intros k Hk. apply Hkeep. rewrite map_find_map_set. by case_decide.
    + intros b' [->|Hb']%elem_of_cons; [|by apply Hin].
      apply Hkeep. rewrite map_find_map_set. by rewrite decide_True.
Qed.

(** ** Projection of a lidar point *)

Lemma length_bind_const {A B} (f : A → list B) (n : nat) (l : list A) :
  (∀ x, length (f x) = n) → length (l ≫= f) = (length l * n)%nat.
Proof.
  intros Hf. induction l as [|x l IH]; [done|].
  rewrite bind_cons, length_app, Hf, IH. done.
Qed.

Lemma Mat_mul_shape a b c :
  Mat_mul a b = Some c →
  rows c = rows a ∧ cols c = cols b ∧ length (data c) = (rows a * cols b)%nat.
Proof.
  unfold Mat_mul. case_decide; [|done]. intros [= <-]. simpl. split_and!; [done..|].
  rewrite (length_bind_const _ (cols b)), length_seq; [done|].
  intros i. rewrite (length_bind_const _ 1%nat), length_seq; [lia|done].
Qed.

(** In a column vector the unchecked element [(0, i)] is the entry of
    row [i]. *)
Lemma column_at (Y : Mat) (i : nat) :
  cols Y = 1%nat → length (data Y) = rows Y →
  Mat_at Y 0 i = Mat_entry Y i 0 ∧ Mat_at Y i 0 = Mat_entry Y i 0.
Proof.
  intros Hc Hl. unfold Mat_at, Mat_entry. rewrite Hc.
  replace (0 * 1 + i)%nat with i by lia. replace (i * 1 + 0)%nat with i by lia.
  case_decide as Hi; [done|].
  assert (data Y !! i = None) as ->; [|done].
  apply lookup_ge_None. lia.
Qed.

Lemma project_eq P_rect_xx R_rect_xx RT p :
  project P_rect_xx R_rect_xx RT p = project_by_depth P_rect_xx R_rect_xx RT p.
Proof.
  unfold project, project_by_depth.
  destruct (Mat_mul P_rect_xx R_rect_xx) as [PR|]; [|done]. cbn [mbind option_bind].
  destruct (Mat_mul PR RT) as [PRRT|]; [|done]. cbn [mbind option_bind].
  destruct (Mat_mul PRRT _) as [Y|] eqn:HY; [|done]. cbn [mbind option_bind].
  apply Mat_mul_shape in HY as (Hr & Hc & Hl). simpl in Hc, Hl.
  assert (Hlen : length (data Y) = rows Y) by lia.
  destruct (column_at Y 0 Hc Hlen) as [-> _].
  destruct (column_at Y 1 Hc Hlen) as [_ ->].
  destruct (column_at Y 2 Hc Hlen) as [-> _].
  destruct (Mat_entry Y 0 0), (Mat_entry Y 1 0), (Mat_entry Y 2 0); done.
Qed.

(** ** Points and regions *)

(** The rectangle the source computes is the region's rectangle shrunk
    symmetrically. *)
Lemma smallerBox_eq shrinkFactor r : smallerBox shrinkFactor r = shrunk_rect shrinkFactor r.
Proof. reflexivity. Qed.

Lemma enclosingBoxes_spec shrinkFactor q boxes rects :
  shrunk shrinkFactor boxes rects →
  ∀ i, ∃ enc,
    enclosingBoxes i boxes shrinkFactor q = Some enc
    ∧ length enc = enclosers rects q
    ∧ ∀ k, k ∈ enc ↔ (i ≤ k)%nat ∧ inside rects q (k - i) = true.
Proof.
  unfold shrunk, enclosers.
  induction 1 as [|b r boxes rects Hr _ IH]; intros i.
  - exists []. split_and!; [done..|]. intros k. split.
    + intros Hk. by apply elem_of_nil in Hk.
    + intros [_ Hk]. unfold inside in Hk. by rewrite lookup_nil in Hk.
  - destruct (IH (S i)) as (rest & Hrest & Hlen & Hmem).
    cbn [enclosingBoxes]. rewrite smallerBox_eq, Hr, Hrest. cbn [mbind option_bind].
    eexists. split; [done|].
    assert (Hlater : ∀ k, k ∈ rest ↔ (i < k)%nat ∧ inside (r :: rects) q (k - i) = true).
    { intros k. rewrite Hmem. unfold inside. split.
      - intros [Hk Hin]. split; [lia|].
        replace (k - i)%nat with (S (k - S i)) by lia. done.
      - intros [Hk Hin]. split; [lia|].
        replace (k - i)%nat with (S (k - S i)) in Hin by lia. done. }
    rewrite filter_cons. destruct (contains r q) eqn:Hq.
    + rewrite decide_True by done. split; [simpl; lia|].
      intros k. rewrite elem_of_cons, Hlater. split.
      * intros [->|[? ?]]; [|split; [lia|done]].
        split; [lia|]. unfold inside. by rewrite Nat.sub_diag.
      * intros [Hk Hin]. destruct (decide (k = i)); [by left|right].
        split; [lia|done].
    + rewrite decide_False by done. split; [done|].
      intros k. rewrite Hlater. split.
      * intros [? ?]. split; [lia|done].
      * intros [Hk Hin]. split; [|done].
        destruct (decide (k = i)) as [->|]; [|lia].
        unfold inside in Hin. rewrite Nat.sub_diag in Hin. simpl in Hin. congruence.
Qed.

Lemma push_imap p k (boxes : list BoundingBox) :
  alter (push_lidarPoint p) k boxes
  = imap (λ j b, if decide (j = k) then push_lidarPoint p b else b) boxes.
Proof.
  apply list_eq. intros j. rewrite list_lookup_imap.
  destruct (decide (k = j)) as [->|Hne].
  - rewrite list_lookup_alter_eq. destruct (boxes !! j); simpl; [|done].
    by rewrite decide_True.
  - rewrite list_lookup_alter_ne by done. destruct (boxes !! j); simpl; [|done].
    by rewrite decide_False.
Qed.

Lemma assignLidarPoint_spec shrinkFactor P_rect_xx R_rect_xx RT boxes rects p q :
  shrunk shrinkFactor boxes rects →
  project P_rect_xx R_rect_xx RT p = Some q →
  assignLidarPoint shrinkFactor P_rect_xx R_rect_xx RT boxes p
  = Some (imap (λ j b, if only_inside rects q j then push_lidarPoint p b else b) boxes).
Proof.
  intros Hs Hq. unfold assignLidarPoint. rewrite Hq. cbn [mbind option_bind].
  destruct (enclosingBoxes_spec shrinkFactor q boxes rects Hs 0%nat)
    as (enc & -> & Hlen & Hmem).
  cbn [mbind option_bind].
  assert (Hin : ∀ k, k ∈ enc ↔ inside rects q k = true).
  { intros k. rewrite Hmem, Nat.sub_0_r. split; [by intros [_ ?]|]. split; [lia|done]. }
  unfold only_inside. rewrite <- Hlen.
  destruct enc as [|k [|k' enc]].
  - f_equal. apply list_eq. intros j. rewrite list_lookup_imap.
    destruct (boxes !! j); simpl; [|done]. by rewrite andb_false_r.
  - f_equal. rewrite push_imap. apply imap_ext. intros j b _. simpl.
    rewrite andb_true_r. case_decide as Hj.
    + subst. rewrite (proj1 (Hin k)); [done|by left].
    + destruct (inside rects q j) eqn:E; [|done].
      apply Hin, list_elem_of_singleton in E. done.
  - f_equal. apply list_eq. intros j. rewrite list_lookup_imap.
    destruct (boxes !! j); simpl; [|done]. by rewrite andb_false_r.
Qed.

Lemma shrunk_imap shrinkFactor boxes rects (f : nat → BoundingBox → BoundingBox) :
  (∀ j b, roi (f j b) = roi b) →
  shrunk shrinkFactor boxes rects → shrunk shrinkFactor (imap f boxes) rects.
Proof.
  intros Hf Hs. revert f Hf. induction Hs as [|b r boxes rects Hr _ IH]; intros f Hf.
  - constructor.
  - simpl. constructor; [by rewrite Hf|]. apply IH. intros j b'. apply Hf.
Qed.

Lemma clusterLidarWithROI_spec shrinkFactor P_rect_xx R_rect_xx RT rects points :
  ∀ boxes,
    shrunk shrinkFactor boxes rects →
    Forall (λ p, is_Some (project P_rect_xx R_rect_xx RT p)) points →
    clusterLidarWithROI boxes points shrinkFactor P_rect_xx R_rect_xx RT
    = Some (imap (λ i b,
                    add_lidarPoints
                      (filter (assigned_to P_rect_xx R_rect_xx RT rects i) points) b)
                 boxes).
Proof.
  unfold clusterLidarWithROI.
  induction points as [|p points IH]; intros boxes Hs Hp.
  - simpl. f_equal. apply list_eq. intros j. rewrite list_lookup_imap.
    destruct (boxes !! j) as [[]|]; simpl; [|done].
    unfold add_lidarPoints. simpl. by rewrite filter_nil, app_nil_r.
  - apply Forall_cons in Hp as [[q Hq] Hp].
    cbn [foldlM]. rewrite (assignLidarPoint_spec _ _ _ _ _ rects _ q) by done.
    cbn [mbind option_bind]. rewrite IH; [|apply shrunk_imap; [intros; by case_match|done]|done].
    f_equal. apply list_eq. intros j. rewrite !list_lookup_imap.
    destruct (boxes !! j) as [b|]; simpl; [|done]. f_equal.
    assert (Hiff : assigned_to P_rect_xx R_rect_xx RT rects j p
                   ↔ only_inside rects q j = true).
    { unfold assigned_to. by rewrite <- project_eq, Hq. }
    rewrite filter_cons. destruct (only_inside rects q j) eqn:E.
    + rewrite decide_True by (by apply Hiff).
      unfold add_lidarPoints, push_lidarPoint. simpl. by rewrite <- app_assoc.
    + rewrite decide_False; [done|]. rewrite Hiff. done.
Qed.

(** ** Correspondences and a region *)

Lemma match_dist_in_range kptsPrev kptsCurr m :
  is_Some (Cxx.at_ kptsPrev (queryIdx m)) → is_Some (Cxx.at_ kptsCurr (trainIdx m)) →
  match_dist kptsPrev kptsCurr m = Some (displacement kptsPrev kptsCurr m).
Proof.
  intros [kp Hkp] [kc Hkc]. unfold displacement, match_dist. by rewrite Hkc, Hkp.
Qed.

Lemma match_dist_Some_inv kptsPrev kptsCurr m :
  is_Some (match_dist kptsPrev kptsCurr m) →
  is_Some (Cxx.at_ kptsPrev (queryIdx m)) ∧ is_Some (Cxx.at_ kptsCurr (trainIdx m)).
Proof.
  unfold match_dist.
  destruct (Cxx.at_ kptsCurr (trainIdx m)) as [kc|]; [|by intros [? ?]].
  destruct (Cxx.at_ kptsPrev (queryIdx m)) as [kp|]; [|by intros [? ?]].
  intros _. split; by eexists.
Qed.

Lemma match_dist_displacement kptsPrev kptsCurr m dist :
  match_dist kptsPrev kptsCurr m = Some dist → dist = displacement kptsPrev kptsCurr m.
Proof.
  unfold displacement, match_dist.
  destruct (Cxx.at_ kptsCurr (trainIdx m)) as [kc|]; [|done].
  destruct (Cxx.at_ kptsPrev (queryIdx m)) as [kp|]; [|done].
  by intros [= <-].
Qed.

Lemma sum_dist_eq kptsPrev kptsCurr v : ∀ s,
  indices_in_range kptsPrev kptsCurr v →
  foldlM (λ sum it, dist ← match_dist kptsPrev kptsCurr it; Some (sum + dist)%float) s v
  = Some (foldl (λ sum m, sum + displacement kptsPrev kptsCurr m)%float s v).
Proof.
  induction v as [|m v IH]; intros s Hr; [done|].
  apply Forall_cons in Hr as [[Hp Hc] Hr].
  cbn [foldlM]. rewrite match_dist_in_range by done. cbn [mbind option_bind].
  by rewrite IH.
Qed.

(** The removal pass has a result exactly when both keypoints of every
    correspondence exist and no correspondence is to be removed; the list
    is then unchanged. *)
Lemma erase_loop_Some kptsPrev kptsCurr mean v kept :
  erase_loop kptsPrev kptsCurr mean v = Some kept
  ↔ kept = v
    ∧ indices_in_range kptsPrev kptsCurr v
    ∧ ∀ m, m ∈ v → ¬ outlier kptsPrev kptsCurr mean m.
Proof.
  revert kept. induction v as [|m v IH]; intros kept.
  - simpl. split.
    + intros [= <-]. split_and!; [done|constructor|].
      intros m Hm. by apply elem_of_nil in Hm.
    + by intros [-> _].
  - cbn [erase_loop]. split.
    + intros H.
      destruct (match_dist kptsPrev kptsCurr m) as [dist|] eqn:Hd; [|done].
      cbn [mbind option_bind] in H.
      pose proof (match_dist_displacement _ _ _ _ Hd) as ->.
      destruct (mean * ratio <=? displacement kptsPrev kptsCurr m)%float eqn:E; [done|].
      destruct (erase_loop kptsPrev kptsCurr mean v) as [kept'|] eqn:Hk; [|done].
      cbn [mbind option_bind] in H. injection H as <-.
      destruct (proj1 (IH kept') eq_refl) as (-> & Hr & Hno).
      split_and!; [done| |].
      * constructor; [|done]. apply match_dist_Some_inv. rewrite Hd. by eexists.
      * intros m' [->|Hm']%elem_of_cons; [|by apply Hno].
        unfold outlier. fold ratio. by rewrite E.
    + intros (-> & Hr & Hno). apply Forall_cons in Hr as [[Hp Hc] Hr].
      rewrite match_dist_in_range by done. cbn [mbind option_bind].
      destruct (mean * ratio <=? displacement kptsPrev kptsCurr m)%float eqn:E.
      { exfalso. apply (Hno m); [by left|]. unfold outlier. by fold ratio. }
      rewrite (proj2 (IH v)); [done|].
      split_and!; [done..|]. intros m' Hm'. apply Hno. by right.
Qed.

(** ** The clusters are grown along the neighbour graph *)

Lemma linked_subset `{K : KdTreeOps} points tree distanceTol (c c' : list nat) x y :
  (∀ j, j ∈ c → j ∈ c') →
  rtc (linked points tree distanceTol c) x y → rtc (linked points tree distanceTol c') x y.
Proof.
  intros Hsub. apply rtc_subrel. intros a j [Hn Hj]. split; [done|by apply Hsub].
Qed.

Lemma linked_neighbour `{K : KdTreeOps} points tree distanceTol (c : list nat) x y :
  rtc (linked points tree distanceTol c) x y → rtc (neighbour points tree distanceTol) x y.
Proof. apply rtc_subrel. by intros a j [Hn _]. Qed.

Section ClusterGrowth.
Context `{K : KdTreeOps}.
Variables (points : list (list float)) (tree : KdTree) (distanceTol : float).
Hypothesis neighbours_in_range :
  ∀ i j, neighbour points tree distanceTol i j → (j < length points)%nat.

Lemma visit_nearest_grows fuel nearest :
  helper_grows points tree distanceTol fuel →
  (∀ id, id ∈ nearest → (id < length points)%nat) →
  ∀ cluster p,
    length p = length points → (unprocessed p ≤ fuel)%nat →
    ∃ new p',
      visit_nearest (λ id c q, clusterHelper fuel id points c q tree distanceTol)
        nearest cluster p = Some (cluster ++ new, p')
      ∧ grows p new p'
      ∧ (∀ id, id ∈ nearest → p' !! id = Some true)
      ∧ (∀ a, a ∈ new →
           ∃ id, id ∈ nearest ∧ id ∈ new
                 ∧ rtc (linked points tree distanceTol new) id a)
      ∧ (∀ a j, a ∈ new → neighbour points tree distanceTol a j → p' !! j = Some true).
Proof.
  intros IH. induction nearest as [|id nearest IHn]; intros Hrange cluster p Hlen Hfuel.
  - exists [], p. rewrite app_nil_r. split_and!; [done|apply grows_nil|..].
    + intros id Hid. by apply elem_of_nil in Hid.
    + intros a Ha. by apply elem_of_nil in Ha.
    + intros a j Ha. by apply elem_of_nil in Ha.
  - assert (Hid : (id < length p)%nat).
    { rewrite Hlen. apply Hrange. left. }
    destruct (lookup_lt_is_Some_2 p id Hid) as [b Hb].
    assert (Hrange' : ∀ id', id' ∈ nearest → (id' < length points)%nat).
    { intros id' ?. apply Hrange. by right. }
    simpl. rewrite Hb. simpl. destruct b.
    + destruct (IHn Hrange' cluster p Hlen Hfuel)
        as (new & p' & Hv & G & Hnear & Hreach & Hcl).
      exists new, p'. split_and!; [done..| | |done].
      * intros id' [->|?]%elem_of_cons; [|by apply Hnear].
        apply (grows_true _ _ _ G). by left.
      * intros a Ha. destruct (Hreach a Ha) as (id' & ? & ? & ?).
        exists id'. split_and!; [by right|done..].
    + destruct (IH id cluster p Hlen Hb Hfuel)
        as (new1 & p1 & -> & G1 & Hreach1 & Hcl1).
      simpl.
      destruct (IHn Hrange' (cluster ++ id :: new1) p1)
        as (new2 & p2 & -> & G2 & Hnear2 & Hreach2 & Hcl2).
      * rewrite (grows_length _ _ _ G1). done.
      * pose proof (grows_count _ _ _ G1). lia.
      * exists ((id :: new1) ++ new2), p2. rewrite <- app_assoc.
        split_and!; [done|by eapply grows_app|..].
        -- intros id' [->|?]%elem_of_cons; [|by apply Hnear2].
           apply (grows_true _ _ _ G2). left.
           apply (grows_true _ _ _ G1). right. by left.
        -- intros a [Ha|Ha]%elem_of_app.
           ++ exists id. split_and!; [by left|apply elem_of_app; left; by left|].
              eapply linked_subset; [|by apply Hreach1].
              intros j Hj. apply elem_of_app. by left.
           ++ destruct (Hreach2 a Ha) as (id' & ? & ? & ?).
              exists id'. split_and!; [by right|apply elem_of_app; by right|].
              eapply linked_subset; [|done].
              intros j Hj. apply elem_of_app. by right.
        -- intros a j [Ha|Ha]%elem_of_app Hn; [|by eapply Hcl2].
           apply (grows_true _ _ _ G2). left. by eapply Hcl1.
Qed.

Lemma clusterHelper_grows fuel : helper_grows points tree distanceTol fuel.
Proof.
  induction fuel as [|fuel IH]; intros index cluster p Hlen Hidx Hfuel.
  - exfalso. pose proof (unprocessed_insert p index Hidx). lia.
  - assert (Hlt : (index < length points)%nat).
    { rewrite <- Hlen. by eapply lookup_lt_Some. }
    destruct (lookup_lt_is_Some_2 points index Hlt) as [point Hpoint].
    pose proof (grows_insert p index Hidx) as G0.
    simpl. rewrite Hidx, Hpoint. simpl.
    destruct (visit_nearest_grows fuel (kd_search tree point distanceTol) IH)
      with (cluster := cluster ++ [index]) (p := <[index:=true]> p)
      as (new & p' & -> & G & Hnear & Hreach & Hcl).
    + intros id Hid. apply (neighbours_in_range index). by exists point.
    + rewrite length_insert. done.
    + pose proof (unprocessed_insert p index Hidx). lia.
    + exists new, p'. rewrite <- app_assoc. split_and!; [done| | |].
      * change (index :: new) with ([index] ++ new). by eapply grows_app.
      * intros a [->|Ha]%elem_of_cons; [done|].
        destruct (Hreach a Ha) as (id & Hid & Hidn & Hr).
        eapply rtc_l.
        -- split; [by exists point|by right].
        -- eapply linked_subset; [|done]. intros j Hj. by right.
      * intros a j [->|Ha]%elem_of_cons Hn; [|by eapply Hcl].
        destruct Hn as (point' & Hp' & Hj). simplify_eq. by apply Hnear.
Qed.

Lemma loop_state_skip i clusters p :
  loop_state points tree distanceTol i clusters p → p !! i = Some true →
  loop_state points tree distanceTol (S i) clusters p.
Proof.
  intros [L G D S1 S2 C1 C2] Hi. split; try done.
  - intros j Hj. destruct (decide (j = i)) as [->|]; [done|]. apply D. lia.
  - intros c Hc. destruct (S1 c Hc) as (seed & rest & -> & ? & ?).
    exists seed, rest. split_and!; [done|lia|done].
Qed.

Lemma processed_in_cluster clusters p j :
  grows (replicate (length points) false) (concat clusters) p →
  p !! j = Some true → ∃ k c, clusters !! k = Some c ∧ j ∈ c.
Proof.
  intros G Hj. apply (grows_true _ _ _ G) in Hj as [Hr|Hj].
  - apply lookup_replicate in Hr as [? _]. done.
  - apply elem_of_concat in Hj as (c & Hjc & Hc).
    apply list_elem_of_lookup in Hc as [k Hk]. eauto.
Qed.

Lemma loop_state_cluster i clusters p new p1 :
  loop_state points tree distanceTol i clusters p → p !! i = Some false →
  grows p (i :: new) p1 →
  (∀ a, a ∈ i :: new → rtc (linked points tree distanceTol (i :: new)) i a) →
  (∀ a j, a ∈ i :: new → neighbour points tree distanceTol a j → p1 !! j = Some true) →
  loop_state points tree distanceTol (S i) (clusters ++ [i :: new]) p1.
Proof.
  intros [L G D S1 S2 C1 C2] Hi G1 Hreach Hcl.
  assert (Hnew : Forall (λ j, (i < j)%nat) new).
  { apply Forall_forall. intros j Hj.
    assert (Hf : p !! j = Some false).
    { apply (grows_fresh _ _ _ G1). by right. }
    destruct (decide (j = i)) as [->|Hne].
    - pose proof (grows_NoDup _ _ _ G1) as Hnd. apply NoDup_cons in Hnd as [Hni _]. done.
    - destruct (decide (j < i)%nat) as [Hlt|]; [|lia].
      rewrite (D j Hlt) in Hf. done. }
  assert (G' : grows (replicate (length points) false)
                 (concat (clusters ++ [i :: new])) p1).
  { rewrite concat_app. simpl. rewrite app_nil_r. by eapply grows_app. }
  split.
  - rewrite (grows_length _ _ _ G1). done.
  - done.
  - intros j Hj. apply (grows_true _ _ _ G1).
    destruct (decide (j = i)) as [->|]; [right; left|].
    left. apply D. lia.
  - intros c [Hc|Hc]%elem_of_app.
    + destruct (S1 c Hc) as (seed & rest & -> & ? & ?).
      exists seed, rest. split_and!; [done|lia|done].
    + apply list_elem_of_singleton in Hc as ->. exists i, new. split_and!; [done|lia|done].
  - intros k1 k2 c1 c2 s1 s2 Hk H1 H2 Hs1 Hs2.
    apply lookup_app_Some in H2 as [H2|[Hge H2]].
    + apply lookup_app_Some in H1 as [H1|[Hge1 _]].
      * by eapply (S2 k1 k2).
      * apply lookup_lt_Some in H2. lia.
    + apply list_lookup_singleton_Some in H2 as [Hk2 <-]. simpl in Hs2. simplify_eq.
      apply lookup_app_Some in H1 as [H1|[Hge1 _]]; [|lia].
      destruct (S1 c1) as (seed & rest & -> & ? & ?); [by eapply list_elem_of_lookup_2|].
      simpl in Hs1. by simplify_eq.
  - intros c seed [Hc|Hc]%elem_of_app Hs; [by apply C1|].
    apply list_elem_of_singleton in Hc as ->. simpl in Hs. simplify_eq. done.
  - intros k c a j Hk Ha Hn.
    apply lookup_app_Some in Hk as [Hk|[Hge Hk]].
    + destruct (C2 k c a j Hk Ha Hn) as (k' & c' & ? & Hk' & ?).
      exists k', c'. split_and!; [done| |done]. by apply lookup_app_l_Some.
    + apply list_lookup_singleton_Some in Hk as [Hk0 <-].
      destruct (processed_in_cluster (clusters ++ [i :: new]) p1 j G')
        as (k' & c' & Hk' & Hj).
      { by eapply Hcl. }
      exists k', c'. split_and!; [|done..].
      apply lookup_lt_Some in Hk'. rewrite length_app in Hk'. simpl in Hk'. lia.
Qed.

Lemma cluster_loop_grows todo : ∀ i clusters p,
  todo = seq i (length points - i) → (i ≤ length points)%nat →
  loop_state points tree distanceTol i clusters p →
  ∃ out p', cluster_loop points tree distanceTol todo clusters p = Some out
    ∧ loop_state points tree distanceTol (length points) out p'.
Proof.
  induction todo as [|i' todo IH]; intros i clusters p Htodo Hi St.
  - exists clusters, p. split; [done|].
    destruct (decide (i = length points)) as [->|]; [done|].
    replace (length points - i)%nat with (S (length points - S i)) in Htodo by lia.
    done.
  - assert (Hlt : (i < length points)%nat).
    { destruct (decide (i = length points)) as [->|]; [|lia].
      rewrite Nat.sub_diag in Htodo. done. }
    replace (length points - i)%nat with (S (length points - S i)) in Htodo by lia.
    simpl in Htodo. injection Htodo as -> Htodo.
    assert (Hlen : length p = length points) by (by destruct St).
    assert (Hip : (i < length p)%nat) by lia.
    destruct (lookup_lt_is_Some_2 p i Hip) as [b Hb].
    simpl. rewrite Hb. simpl. destruct b.
    + apply (IH (S i)); [done|lia|]. by apply loop_state_skip.
    + destruct (clusterHelper_grows (length points) i [] p Hlen Hb)
        as (new & p1 & -> & G1 & Hreach & Hcl).
      { rewrite <- Hlen. apply unprocessed_le. }
      simpl. apply (IH (S i)); [done|lia|]. by apply (loop_state_cluster i clusters p).
Qed.

Lemma euclideanCluster_grown :
  ∃ clusters, euclideanCluster points tree distanceTol = Some clusters
              ∧ partition_of (length points) clusters
              ∧ clusters_grown points tree distanceTol clusters.
Proof.
  unfold euclideanCluster.
  destruct (cluster_loop_grows (seq 0 (length points)) 0%nat []
              (replicate (length points) false))
    as (out & p' & Hout & [L G D S1 S2 C1 C2]).
  - by rewrite Nat.sub_0_r.
  - lia.
  - split.
    + apply length_replicate.
    + apply grows_nil.
    + intros j Hj. lia.
    + intros c Hc. by apply elem_of_nil in Hc.
    + intros k1 k2 c1 c2 s1 s2 _ H1. done.
    + intros c seed Hc. by apply elem_of_nil in Hc.
    + intros k c a j Hk. done.
  - exists out. split_and!; [done| |].
    + eapply grows_partition; [done..|].
      apply Forall_forall. intros c Hc. destruct (S1 c Hc) as (? & ? & -> & _). done.
    + split; [|done..].
      intros c Hc. destruct (S1 c Hc) as (seed & rest & -> & _ & ?). eauto.
Qed.

End ClusterGrowth.

(** ** Consequences for [removeLidarOutlier] *)

Lemma neighbour_stays `{K : KdTreeOps} points tree distanceTol i j :
  (∀ a b, neighbour points tree distanceTol a b → b = a) →
  rtc (neighbour points tree distanceTol) i j → j = i.
Proof.
  intros Hiso Hr. induction Hr as [|x y z Hxy _ IH]; [done|].
  apply Hiso in Hxy. congruence.
Qed.

Lemma singletons_concat (ls : list (list nat)) :
  Forall (λ c, ∃ s, c = [s]) ls → ls = (λ s, [s]) <$> concat ls.
Proof.
  induction 1 as [|c ls [s ->] _ IH]; [done|]. simpl. by f_equal.
Qed.

Lemma seeds_sorted (ls : list (list nat)) :
  Forall (λ c, ∃ s, c = [s]) ls →
  (∀ k1 k2 c1 c2 s1 s2,
     (k1 < k2)%nat → ls !! k1 = Some c1 → ls !! k2 = Some c2 →
     head c1 = Some s1 → head c2 = Some s2 → (s1 < s2)%nat) →
  StronglySorted lt (concat ls).
Proof.
  induction 1 as [|c ls [s ->] Hls IH]; intros Hinc; simpl; constructor.
  - apply IH. intros k1 k2 c1 c2 s1 s2 Hk H1 H2.
    apply (Hinc (S k1) (S k2)); [lia|done..].
  - apply Forall_forall. intros x (c' & Hx & Hc')%elem_of_concat.
    apply list_elem_of_lookup in Hc' as [k Hk].
    destruct (proj1 (Forall_forall _ _) Hls c') as [s' ->];
      [by eapply list_elem_of_lookup_2|].
    apply list_elem_of_singleton in Hx as ->.
    by apply (Hinc 0%nat (S k) [s] [s'] s s'); [lia|..].
Qed.

Lemma seq_sorted i n : StronglySorted lt (seq i n).
Proof.
  revert i. induction n as [|n IH]; intros i; simpl; constructor; [done|].
  apply Forall_forall. intros j Hj%elem_of_seq. lia.
Qed.

(** Points without neighbours: one cluster per point. *)
Lemma euclideanCluster_singletons `{K : KdTreeOps}
    (points : list (list float)) (tree : KdTree) (distanceTol : float) :
  (∀ i point j, points !! i = Some point → j ∈ kd_search tree point distanceTol → j = i) →
  euclideanCluster points tree distanceTol
  = Some ((λ i, [i]) <$> seq 0 (length points)).
Proof.
  intros Hiso.
  assert (Hiso' : ∀ a b, neighbour points tree distanceTol a b → b = a).
  { intros a b (point & Hp & Hb). by eapply Hiso. }
  destruct (euclideanCluster_grown points tree distanceTol)
    as (clusters & Hc & P & [S1 S2 C1 _]).
  { intros i j Hn. rewrite (Hiso' _ _ Hn). destruct Hn as (point & Hp & _).
    by eapply lookup_lt_Some. }
  rewrite Hc. f_equal.
  assert (Hsingle : Forall (λ c, ∃ s, c = [s]) clusters).
  { apply Forall_forall. intros c Hin.
    destruct (S1 c Hin) as (seed & rest & -> & Hrest). exists seed. f_equal.
    destruct rest as [|a rest]; [done|]. exfalso.
    apply Forall_cons in Hrest as [Hlt _].
    assert (a = seed); [|lia].
    eapply neighbour_stays; [done|]. eapply linked_neighbour.
    apply (C1 _ seed Hin eq_refl). right. by left. }
  rewrite (singletons_concat clusters Hsingle). f_equal.
  assert (Hanti : AntiSymm (=) lt) by (intros x y ? ?; lia).
  apply (@StronglySorted_unique nat lt Hanti).
  - by apply seeds_sorted.
  - apply seq_sorted.
  - apply (part_perm _ _ P).
Qed.

(** The points at a list of indices, as a map over the indices. *)
Lemma lookup_points_fmap {A} (d : A) (points : list A) (c : list nat) out :
  Forall2 (λ i p, points !! i = Some p) c out →
  out = (λ i, default d (points !! i)) <$> c.
Proof.
  induction 1 as [|i p c out Hi _ IH]; [done|]. rewrite fmap_cons, Hi. simpl.
  by f_equal.
Qed.

Lemma all_points_fmap {A} (d : A) (points : list A) :
  points = (λ i, default d (points !! i)) <$> seq 0 (length points).
Proof.
  apply list_eq. intros i. rewrite list_lookup_fmap.
  destruct (points !! i) as [p|] eqn:E.
  - rewrite lookup_seq_lt by (by eapply lookup_lt_Some). simpl. by rewrite E.
  - apply lookup_ge_None in E. by rewrite lookup_seq_ge.
Qed.

Lemma cluster_points_submseteq (points : list LidarPoint) (c : list nat) out :
  NoDup c → (∀ i, i ∈ c → (i < length points)%nat) →
  Forall2 (λ i p, points !! i = Some p) c out →
  out ⊆+ points.
Proof.
  intros Hnd Hc Hout.
  destruct points as [|d points'] eqn:E.
  { destruct Hout as [|i p c out Hi _]; [done|]. done. }
  rewrite <- E in *.
  rewrite (lookup_points_fmap d points c out Hout).
  trans ((λ i, default d (points !! i)) <$> seq 0 (length points)).
  - apply fmap_submseteq, NoDup_submseteq; [done|].
    intros i Hi. apply elem_of_seq. specialize (Hc i Hi). lia.
  - by rewrite <- (all_points_fmap d points).
Qed.

(** The neighbour steps of the tree that [removeLidarOutlier] builds stay
    among the indices of the points. *)
Lemma built_neighbours_in_range `{KdTreeSound} coords tol i j :
  neighbour coords (insert_points kd_new 0 coords) tol i j → (j < length coords)%nat.
Proof. intros (point & _ & Hj). by eapply built_tree_in_range. Qed.

Lemma select_singletons (points : list LidarPoint) acc : ∀ i n,
  (i + n ≤ length points)%nat → length acc = 1%nat →
  foldlM (select_cluster points) acc ((λ s, [s]) <$> seq i n) = Some acc.
Proof.
  intros i n. revert i. induction n as [|n IH]; intros i Hi Hacc; [done|].
  assert (Hlt : (i < length points)%nat) by lia.
  destruct (lookup_lt_is_Some_2 points i Hlt) as [p Hp].
  cbn [seq fmap list_fmap foldlM].
  assert (Hstep : select_cluster points acc [i] = Some acc).
  { unfold select_cluster, cluster_points. simpl. rewrite Hp. simpl.
    rewrite decide_False by lia. done. }
  rewrite Hstep. cbn [mbind option_bind]. apply IH; [lia|done].
Qed.

Lemma first_cluster_seed `{K : KdTreeOps} points tree distanceTol clusters :
  partition_of (length points) clusters →
  clusters_grown points tree distanceTol clusters →
  points ≠ [] → ∃ rest, clusters !! 0%nat = Some (0%nat :: rest).
Proof.
  intros P [S1 S2 _ _] Hne.
  destruct (part_cover _ _ P 0%nat) as (k & c & Hk & H0).
  { destruct points; [done|simpl; lia]. }
  destruct (S1 c) as (seed & rest & -> & Hrest); [by eapply list_elem_of_lookup_2|].
  assert (seed = 0%nat) as ->.
  { apply elem_of_cons in H0 as [->|H0]; [done|].
    apply (proj1 (Forall_forall _ _) Hrest) in H0. lia. }
  destruct k as [|k]; [by exists rest|].
  assert (Hlt : (0 < length clusters)%nat) by (apply lookup_lt_Some in Hk; lia).
  destruct (lookup_lt_is_Some_2 clusters 0%nat Hlt) as [c0 Hc0].
  destruct (S1 c0) as (s0 & r0 & -> & _); [by eapply list_elem_of_lookup_2|].
  pose proof (S2 0%nat (S k) _ _ s0 0%nat ltac:(lia) Hc0 Hk eq_refl eq_refl). lia.
Qed.

(** The indices reached from a member of the first cluster are in the
    first cluster. *)
Lemma first_cluster_reach `{K : KdTreeOps} points tree distanceTol clusters c0 i j :
  clusters_grown points tree distanceTol clusters →
  clusters !! 0%nat = Some c0 → i ∈ c0 →
  rtc (neighbour points tree distanceTol) i j → j ∈ c0.
Proof.
  intros G Hc0 Hi Hr. induction Hr as [|x y z Hxy _ IH]; [done|].
  apply IH. destruct (cg_closed _ _ _ _ G 0%nat c0 x y Hc0 Hi Hxy) as (k' & c' & Hle & Hk' & Hy).
  assert (k' = 0%nat) as -> by lia. by simplify_eq.
Qed.

(** With a symmetric search a cluster is the set of the indices reached
    from any of its members. *)
(** An index that the searches connect to no other index is a cluster
    of its own. *)
Lemma isolated_cluster `{K : KdTreeOps} points tree distanceTol clusters i :
  partition_of (length points) clusters →
  clusters_grown points tree distanceTol clusters →
  (i < length points)%nat →
  (∀ j, neighbour points tree distanceTol i j → j = i) →
  (∀ j, neighbour points tree distanceTol j i → j = i) →
  [i] ∈ clusters.
Proof.
  intros P [S1 _ C1 _] Hi Hout Hin.
  destruct (part_cover _ _ P i Hi) as (k & c & Hk & Hic).
  assert (Hc : c ∈ clusters) by (by eapply list_elem_of_lookup_2).
  destruct (S1 c Hc) as (seed & rest & -> & _).
  assert (Hfrom : ∀ x y, rtc (neighbour points tree distanceTol) x y → x = i → y = i).
  { intros x y Hr. induction Hr as [|x y z Hxy _ IH]; [done|].
    intros ->. apply IH. by apply Hout. }
  assert (Hto : ∀ x y, rtc (neighbour points tree distanceTol) x y → y = i → x = i).
  { intros x y Hr. induction Hr as [|x y z Hxy _ IH]; [done|].
    intros Hz. specialize (IH Hz). subst y. by apply Hin. }
  assert (seed = i) as ->.
  { eapply Hto; [|done]. eapply linked_neighbour. by apply (C1 _ seed Hc). }
  destruct rest as [|a rest]; [done|]. exfalso.
  assert (a = i) as ->.
  { eapply Hfrom; [|done]. eapply linked_neighbour.
    apply (C1 _ i Hc); [done|]. right. by left. }
  pose proof (proj1 (Forall_forall _ _) (part_once _ _ P) _ Hc) as Hnd.
  apply NoDup_cons in Hnd as [Hnot _]. apply Hnot. by left.
Qed.

Lemma cluster_component `{K : KdTreeOps} points tree distanceTol clusters :
  partition_of (length points) clusters →
  clusters_grown points tree distanceTol clusters →
  (∀ i j, neighbour points tree distanceTol i j → neighbour points tree distanceTol j i) →
  ∀ c i j, c ∈ clusters → i ∈ c →
    j ∈ c ↔ rtc (neighbour points tree distanceTol) i j.
Proof.
  intros P [S1 _ C1 C2] Hsym c i j Hin Hic.
  assert (Hback : ∀ x y, rtc (neighbour points tree distanceTol) x y →
                         rtc (neighbour points tree distanceTol) y x).
  { intros x y Hr. induction Hr as [|x y z Hxy _ IH]; [done|].
    eapply rtc_r; [done|]. by apply Hsym. }
  assert (Hsame : ∀ k c a b, clusters !! k = Some c → a ∈ c →
                    neighbour points tree distanceTol a b → b ∈ c).
  { intros k c0 a b Hk Ha Hn.
    destruct (C2 k c0 a b Hk Ha Hn) as (k' & c' & Hle & Hk' & Hb).
    destruct (C2 k' c' b a Hk' Hb (Hsym _ _ Hn)) as (k'' & c'' & Hle' & Hk'' & Ha').
    assert (k'' = k) as -> by (by eapply (part_disjoint _ _ P)).
    assert (k' = k) as -> by lia. by simplify_eq. }
  split.
  - intros Hjc. destruct (S1 c Hin) as (seed & rest & -> & _).
    etrans.
    + apply Hback. eapply linked_neighbour. by apply (C1 _ seed Hin).
    + eapply linked_neighbour. by apply (C1 _ seed Hin).
  - intros Hr. apply list_elem_of_lookup in Hin as [k Hk].
    induction Hr as [|x y z Hxy _ IH]; [done|].
    apply IH. by eapply Hsame.
Qed.

(** ** Signs of sums, products and quotients

    Rounding keeps the sign it is given, so the sign of a product or of a
    quotient that is a number is the exclusive or of the signs of the
    operands, and the sign of a difference of two comparable values is
    the one their order gives. *)

Section RoundingSign.
Variables prec emax : Z.

Lemma binary_round_aux_sign sx mx ex lx :
  0 ≤ mx → SFsign (binary_round_aux prec emax sx mx ex lx) = Some sx.
Proof.
  intros Hm. unfold binary_round_aux.
  pose proof (shr_fexp_nonneg prec emax mx ex lx Hm) as H1.
  destruct (shr_fexp prec emax mx ex lx) as [mrs' e']. simpl in H1.
  pose proof (shr_fexp_nonneg prec emax _ e' loc_Exact
                (round_nearest_even_nonneg _ (loc_of_shr_record mrs') H1)) as H2.
  destruct (shr_fexp prec emax _ e' loc_Exact) as [mrs'' e'']. simpl in H2.
  destruct (shr_m mrs''); [done| |lia]. by destruct (_ <=? _).
Qed.

Lemma binary_round_sign sx mx ex :
  SFsign (binary_round prec emax sx mx ex) = Some sx.
Proof.
  unfold binary_round. destruct (shl_align _ _ _). by apply binary_round_aux_sign.
Qed.

Lemma binary_normalize_sign_pos m e szero :
  0 < m → SFsign (binary_normalize prec emax m e szero) = Some false.
Proof. destruct m; [lia| |lia]. intros _. apply binary_round_sign. Qed.

Lemma binary_normalize_sign_neg m e szero :
  m < 0 → SFsign (binary_normalize prec emax m e szero) = Some true.
Proof. destruct m; [lia|lia|]. intros _. apply binary_round_sign. Qed.

Lemma SFmul_sign x y sx sy :
  SFsign x = Some sx → SFsign y = Some sy →
  SFsign (SFmul prec emax x y) = None
  ∨ SFsign (SFmul prec emax x y) = Some (xorb sx sy).
Proof.
  destruct x as [s1|s1| |s1 m1 e1], y as [s2|s2| |s2 m2 e2]; simpl;
    intros [= <-] [= <-]; auto.
  right. by apply binary_round_aux_sign.
Qed.

Lemma SFdiv_sign x y sx sy :
  SFsign x = Some sx → SFsign y = Some sy →
  SFsign (SFdiv prec emax x y) = None
  ∨ SFsign (SFdiv prec emax x y) = Some (xorb sx sy).
Proof.
  destruct x as [s1|s1| |s1 m1 e1], y as [s2|s2| |s2 m2 e2]; simpl;
    intros [= <-] [= <-]; auto.
  right.
  pose proof (SFdiv_core_nonneg prec emax m1 e1 m2 e2) as Hq.
  destruct (SFdiv_core_binary prec emax (Z.pos m1) e1 (Z.pos m2) e2) as [[mz ez] lz].
  by apply binary_round_aux_sign.
Qed.

End RoundingSign.

Lemma digits2_pos_bounds m :
  2 ^ (Zpos (digits2_pos m) - 1) ≤ Zpos m < 2 ^ Zpos (digits2_pos m).
Proof.
  induction m as [m IH|m IH|]; simpl digits2_pos.
  - rewrite Pos2Z.inj_succ.
    replace (Z.succ (Z.pos (digits2_pos m)) - 1) with (Z.succ (Z.pos (digits2_pos m) - 1))
      by lia.
    rewrite !Z.pow_succ_r by lia. lia.
  - rewrite Pos2Z.inj_succ.
    replace (Z.succ (Z.pos (digits2_pos m)) - 1) with (Z.succ (Z.pos (digits2_pos m) - 1))
      by lia.
    rewrite !Z.pow_succ_r by lia. lia.
  - simpl. lia.
Qed.

Lemma iter_xO_val m d : Zpos (Pos.iter xO m d) = Zpos m * 2 ^ Zpos d.
Proof.
  revert m. induction d as [|d IH] using Pos.peano_ind; intros m.
  - simpl. lia.
  - rewrite Pos.iter_succ, Pos2Z.inj_succ, Z.pow_succ_r by lia.
    rewrite Pos2Z.inj_xO, IH. lia.
Qed.

Lemma shl_align_val mx ex ez :
  ez ≤ ex → Zpos (fst (shl_align mx ex ez)) = Zpos mx * 2 ^ (ex - ez).
Proof.
  intros Hle. unfold shl_align. destruct (ez - ex) as [|d|d] eqn:E.
  - replace (ex - ez) with 0 by lia. simpl. lia.
  - lia.
  - simpl. rewrite iter_xO_val. f_equal. f_equal. lia.
Qed.

(** In two valid finite values the one with the greater exponent has the
    greater mantissa once both are aligned. *)
Lemma aligned_lt mx ex my ey :
  bounded prec emax mx ex = true → bounded prec emax my ey = true →
  ey < ex → Zpos my < Zpos mx * 2 ^ (ex - ey).
Proof.
  unfold bounded, canonical_mantissa, fexp, emin.
  intros [Hx _]%andb_true_iff [Hy _]%andb_true_iff Hlt.
  apply Z.eqb_eq in Hx, Hy.
  pose proof (digits2_pos_bounds mx) as [Hmx _].
  pose proof (digits2_pos_bounds my) as [_ Hmy].
  assert (Hdx : Zpos (digits2_pos mx) = prec) by lia.
  assert (Hdy : Zpos (digits2_pos my) ≤ prec) by lia.
  rewrite Hdx in Hmx.
  assert (Hp : 2 ^ Zpos (digits2_pos my) ≤ 2 ^ prec).
  { apply Z.pow_le_mono_r; lia. }
  assert (H2 : 2 * 2 ^ (prec - 1) = 2 ^ prec).
  { vm_compute. reflexivity. }
  assert (He : 2 ≤ 2 ^ (ex - ey)).
  { change 2 with (2 ^ 1) at 1. apply Z.pow_le_mono_r; lia. }
  nia.
Qed.

(** The difference of the aligned mantissas has the sign the comparison
    gives. *)
Lemma SFsub_sign_gt x y :
  valid_binary x = true → valid_binary y = true →
  SFltb y x = true → SFsign (SFsub prec emax x y) = Some false.
Proof.
  unfold SFltb, SFcompare.
  destruct x as [sx|sx| |sx mx ex], y as [sy|sy| |sy my ey]; simpl;
    intros Vx Vy Hlt; try done;
    try (by destruct sx, sy); try (by destruct sx); try (by destruct sy).
  apply binary_normalize_sign_pos.
  rewrite !shl_align_val by lia.
  pose proof (Pos2Z.is_pos mx). pose proof (Pos2Z.is_pos my).
  assert (Hpx : 0 < 2 ^ (ex - Z.min ex ey)) by (apply Z.pow_pos_nonneg; lia).
  assert (Hpy : 0 < 2 ^ (ey - Z.min ex ey)) by (apply Z.pow_pos_nonneg; lia).
  destruct sx, sy; simpl in *; try done; try nia.
  - (* both negative *)
    destruct (Z.compare_spec ey ex) as [->|Hc|Hc]; try done.
    + rewrite Z.min_id, Z.sub_diag. simpl.
      rewrite Pos_compare_cont_Eq in Hlt.
      destruct (Pos.compare_spec my mx); simpl in Hlt; try done. lia.
    + rewrite Z.min_l by lia. rewrite Z.sub_diag. simpl.
      pose proof (aligned_lt my ey mx ex Vy Vx ltac:(lia)). lia.
  - (* both positive *)
    destruct (Z.compare_spec ey ex) as [->|Hc|Hc]; try done.
    + rewrite Z.min_id, Z.sub_diag. simpl.
      rewrite Pos_compare_cont_Eq in Hlt.
      destruct (Pos.compare_spec my mx); simpl in Hlt; try done. lia.
    + rewrite Z.min_r by lia. rewrite Z.sub_diag. simpl.
      pose proof (aligned_lt mx ex my ey Vx Vy ltac:(lia)). lia.
Qed.

Lemma SFsub_sign_lt x y :
  valid_binary x = true → valid_binary y = true →
  SFltb x y = true → SFsign (SFsub prec emax x y) = Some true.
Proof.
  unfold SFltb, SFcompare.
  destruct x as [sx|sx| |sx mx ex], y as [sy|sy| |sy my ey]; simpl;
    intros Vx Vy Hlt; try done;
    try (by destruct sx, sy); try (by destruct sx); try (by destruct sy).
  apply binary_normalize_sign_neg.
  rewrite !shl_align_val by lia.
  pose proof (Pos2Z.is_pos mx). pose proof (Pos2Z.is_pos my).
  assert (Hpx : 0 < 2 ^ (ex - Z.min ex ey)) by (apply Z.pow_pos_nonneg; lia).
  assert (Hpy : 0 < 2 ^ (ey - Z.min ex ey)) by (apply Z.pow_pos_nonneg; lia).
  destruct sx, sy; simpl in *; try done; try nia.
  - destruct (Z.compare_spec ex ey) as [->|Hc|Hc]; try done.
    + rewrite Z.min_id, Z.sub_diag. simpl.
      rewrite Pos_compare_cont_Eq in Hlt.
      destruct (Pos.compare_spec mx my); simpl in Hlt; try done. lia.
    + rewrite Z.min_r by lia. rewrite Z.sub_diag. simpl.
      pose proof (aligned_lt mx ex my ey Vx Vy ltac:(lia)). lia.
  - destruct (Z.compare_spec ex ey) as [->|Hc|Hc]; try done.
    + rewrite Z.min_id, Z.sub_diag. simpl.
      rewrite Pos_compare_cont_Eq in Hlt.
      destruct (Pos.compare_spec mx my); simpl in Hlt; try done. lia.
    + rewrite Z.min_l by lia. rewrite Z.sub_diag. simpl.
      pose proof (aligned_lt my ey mx ex Vy Vx ltac:(lia)). lia.
Qed.

Lemma mul_sign (x y : float) sx sy :
  sign x = Some sx → sign y = Some sy →
  sign (x * y) = None ∨ sign (x * y) = Some (xorb sx sy).
Proof. unfold sign. rewrite mul_spec. apply SFmul_sign. Qed.

Lemma div_sign (x y : float) sx sy :
  sign x = Some sx → sign y = Some sy →
  sign (x / y) = None ∨ sign (x / y) = Some (xorb sx sy).
Proof. unfold sign. rewrite div_spec. apply SFdiv_sign. Qed.

Lemma mul_nan_l (x y : float) : sign x = None → sign (x * y) = None.
Proof. unfold sign. rewrite mul_spec. by destruct (Prim2SF x), (Prim2SF y). Qed.

Lemma div_nan_l (x y : float) : sign x = None → sign (x / y) = None.
Proof. unfold sign. rewrite div_spec. by destruct (Prim2SF x), (Prim2SF y). Qed.

Lemma opp_sign (x : float) s : sign x = Some s → sign (- x) = Some (negb s).
Proof. unfold sign. rewrite opp_spec. destruct (Prim2SF x); simpl; congruence. Qed.

Lemma sub_sign_gt (x y : float) : (y <? x)%float = true → sign (x - y) = Some false.
Proof.
  unfold sign. rewrite ltb_spec, sub_spec. apply SFsub_sign_gt; apply Prim2SF_valid.
Qed.

Lemma sub_sign_lt (x y : float) : (x <? y)%float = true → sign (x - y) = Some true.
Proof.
  unfold sign. rewrite ltb_spec, sub_spec. apply SFsub_sign_lt; apply Prim2SF_valid.
Qed.

Lemma pos_sign (x : float) : (0 <? x)%float = true → sign x = Some false.
Proof.
  unfold sign. rewrite ltb_spec. change (Prim2SF 0) with (S754_zero false).
  unfold SFltb, SFcompare. by destruct (Prim2SF x) as [s|[]| |[] m e].
Qed.

(** One over a positive value has a positive sign. *)
Lemma inv_pos_sign (x : float) : (0 <? x)%float = true → sign (1 / x) = Some false.
Proof.
  intros Hx. apply pos_sign in Hx.
  assert (H1 : sign 1 = Some false) by reflexivity.
  destruct (div_sign 1 x false false H1 Hx) as [Hn|Hs]; [|done].
  revert Hn Hx. unfold sign. rewrite div_spec.
  change (Prim2SF 1) with (S754_finite false 4503599627370496 (-52)).
  destruct (Prim2SF x) as [s|s| |s m e]; try done.
  intros Hn _. simpl in Hn.
  pose proof (SFdiv_core_nonneg prec emax 4503599627370496 (-52) m e) as Hq.
  destruct (SFdiv_core_binary prec emax _ (-52) (Z.pos m) e) as [[mz ez] lz].
  rewrite binary_round_aux_sign in Hn by done. done.
Qed.

Lemma not_negative (x : float) :
  sign x = None ∨ sign x = Some false → (x <? 0)%float = false.
Proof.
  unfold sign. rewrite ltb_spec. change (Prim2SF 0) with (S754_zero false).
  unfold SFltb, SFcompare.
  destruct (Prim2SF x) as [s|s| |s m e]; simpl; intros [?|?]; simplify_eq; done.
Qed.

Lemma not_positive (x : float) :
  sign x = None ∨ sign x = Some true → (0 <? x)%float = false.
Proof.
  unfold sign. rewrite ltb_spec. change (Prim2SF 0) with (S754_zero false).
  unfold SFltb, SFcompare.
  destruct (Prim2SF x) as [s|s| |s m e]; simpl; intros [?|?]; simplify_eq; done.
Qed.

(** A value minus itself is zero or NaN, and a quotient by zero is never
    finite. *)
Lemma sub_diag_zero (x : float) :
  Prim2SF (x - x) = S754_zero false ∨ Prim2SF (x - x) = S754_nan.
Proof.
  rewrite sub_spec. destruct (Prim2SF x) as [[]|[]| |s m e]; simpl; auto.
  left. by rewrite Z.sub_diag.
Qed.

Lemma div_by_zero_not_finite (x y : float) :
  (∃ s, Prim2SF y = S754_zero s) ∨ Prim2SF y = S754_nan →
  Cxx.is_finite (x / y) = false.
Proof.
  unfold Cxx.is_finite. rewrite div_spec.
  intros [[s ->]| ->]; by destruct (Prim2SF x).
Qed.

(** ** Conversion of an integer to [double]

    Rounding a positive integer to binary64 yields a valid positive
    value, finite or infinite; so does [Cxx.double_of_Z]. *)

Lemma shr_1_half mrs : 0 ≤ shr_m mrs → shr_m (shr_1 mrs) = shr_m mrs / 2.
Proof.
  destruct mrs as [m r s]. simpl. intros Hm. rewrite <- Z.div2_div.
  destruct m as [|[p|p|]|[p|p|]]; simpl; done || lia.
Qed.

Lemma div_div_pos a b c : 0 < b → 0 < c → a / b / c = a / (b * c).
Proof. intros. apply Z.div_div; lia. Qed.

Lemma iter_shr_1_div p : ∀ mrs,
  0 ≤ shr_m mrs →
  shr_m (SpecFloat.iter_pos (A := shr_record) shr_1 p mrs) = shr_m mrs / 2 ^ Zpos p.
Proof.
  induction p as [p IH|p IH|]; intros mrs Hm; simpl SpecFloat.iter_pos.
  - assert (Hp : 0 < 2 ^ Z.pos p) by (apply Z.pow_pos_nonneg; lia).
    rewrite IH, IH, shr_1_half by
      (try apply iter_shr_1_nonneg; try apply shr_1_nonneg; done).
    rewrite !div_div_pos by lia.
    f_equal.
    assert (Hpow : 2 ^ Z.pos p~1 = 2 * (2 ^ Z.pos p * 2 ^ Z.pos p)).
    { rewrite <- Z.pow_add_r, <- Z.pow_succ_r by lia. f_equal. lia. }
    lia.
  - assert (Hp : 0 < 2 ^ Z.pos p) by (apply Z.pow_pos_nonneg; lia).
    rewrite IH, IH by (try apply iter_shr_1_nonneg; done).
    rewrite !div_div_pos by lia.
    f_equal.
    assert (Hpow : 2 ^ Z.pos p~0 = 2 ^ Z.pos p * 2 ^ Z.pos p).
    { rewrite <- Z.pow_add_r by lia. f_equal. lia. }
    lia.
  - rewrite shr_1_half by done. by rewrite Z.pow_1_r.
Qed.

Lemma Zdigits2_bounds m :
  0 < m → 0 < Zdigits2 m ∧ 2 ^ (Zdigits2 m - 1) ≤ m < 2 ^ Zdigits2 m.
Proof.
  destruct m as [|p|p]; try lia. intros _. simpl.
  split; [lia|apply digits2_pos_bounds].
Qed.

Lemma Zdigits2_unique m k :
  0 < m → 2 ^ (k - 1) ≤ m < 2 ^ k → Zdigits2 m = k.
Proof.
  intros Hm [Hlo Hhi].
  destruct (Zdigits2_bounds m Hm) as (Hd & Hdlo & Hdhi).
  assert (Hk : 0 < k).
  { destruct (decide (0 < k)); [done|].
    destruct (decide (k = 0)) as [->|]; [simpl in Hhi; lia|].
    rewrite Z.pow_neg_r in Hhi by lia. lia. }
  assert (H1 : Zdigits2 m - 1 < k).
  { apply (Z.pow_lt_mono_r_iff 2); lia. }
  assert (H2 : k - 1 < Zdigits2 m).
  { apply (Z.pow_lt_mono_r_iff 2); lia. }
  lia.
Qed.

Lemma Zdigits2_div m n :
  0 < m → 0 ≤ n < Zdigits2 m →
  0 < m / 2 ^ n ∧ Zdigits2 (m / 2 ^ n) = Zdigits2 m - n.
Proof.
  intros Hm Hn.
  destruct (Zdigits2_bounds m Hm) as (Hd & Hlo & Hhi).
  assert (Hp : 0 < 2 ^ n) by (apply Z.pow_pos_nonneg; lia).
  assert (Hlo' : 2 ^ (Zdigits2 m - n - 1) ≤ m / 2 ^ n).
  { apply Z.div_le_lower_bound; [done|].
    rewrite <- Z.pow_add_r by lia.
    replace (n + (Zdigits2 m - n - 1)) with (Zdigits2 m - 1) by lia. done. }
  assert (Hhi' : m / 2 ^ n < 2 ^ (Zdigits2 m - n)).
  { apply Z.div_lt_upper_bound; [done|].
    rewrite <- Z.pow_add_r by lia.
    replace (n + (Zdigits2 m - n)) with (Zdigits2 m) by lia. done. }
  assert (Hpos : 0 < 2 ^ (Zdigits2 m - n - 1)) by (apply Z.pow_pos_nonneg; lia).
  split; [lia|]. apply Zdigits2_unique; [lia|done].
Qed.

Lemma Zdigits2_succ m :
  0 < m →
  (m + 1 < 2 ^ Zdigits2 m ∧ Zdigits2 (m + 1) = Zdigits2 m)
  ∨ (m + 1 = 2 ^ Zdigits2 m ∧ Zdigits2 (m + 1) = Zdigits2 m + 1).
Proof.
  intros Hm. destruct (Zdigits2_bounds m Hm) as (Hd & Hlo & Hhi).
  destruct (decide (m + 1 < 2 ^ Zdigits2 m)) as [Hlt|Hge].
  - left. split; [done|]. apply Zdigits2_unique; lia.
  - right. assert (Heq : m + 1 = 2 ^ Zdigits2 m) by lia. split; [done|].
    apply Zdigits2_unique; [lia|]. rewrite Heq.
    replace (Zdigits2 m + 1 - 1) with (Zdigits2 m) by lia.
    split; [lia|]. apply Z.pow_lt_mono_r; lia.
Qed.

Lemma round_nearest_even_range m l :
  m ≤ round_nearest_even m l ≤ m + 1.
Proof. destruct l as [|[]]; simpl; try lia. destruct (Z.even m); lia. Qed.

(** The first component and the exponent that [shr_fexp] computes. *)
Lemma shr_fexp_val m e l :
  0 < m →
  let n := fexp prec emax (Zdigits2 m + e) - e in
  shr_m (fst (shr_fexp prec emax m e l)) = (if 0 <? n then m / 2 ^ n else m)
  ∧ snd (shr_fexp prec emax m e l) = (if 0 <? n then e + n else e).
Proof.
  intros Hm n. unfold shr_fexp, shr. fold n.
  assert (H0 : shr_m (shr_record_of_loc m l) = m) by (by destruct l as [|[]]).
  destruct n as [|p|p]; simpl; [done| |done].
  rewrite iter_shr_1_div by (rewrite H0; lia). by rewrite H0.
Qed.

(** Rounding a positive mantissa that has at least the canonical number
    of digits and does not underflow. *)
Lemma binary_round_aux_valid sx mx ex lx :
  0 < mx →
  0 ≤ fexp prec emax (Zdigits2 mx + ex) - ex < Zdigits2 mx →
  binary_round_aux prec emax sx mx ex lx = S754_infinity sx
  ∨ ∃ m e, binary_round_aux prec emax sx mx ex lx = S754_finite sx m e
           ∧ bounded prec emax m e = true.
Proof.
  intros Hm Hn. unfold binary_round_aux.
  destruct (shr_fexp_val mx ex lx Hm) as [Hm1 He1].
  destruct (shr_fexp prec emax mx ex lx) as [mrs' e1]. simpl in Hm1, He1.
  set (n := fexp prec emax (Zdigits2 mx + ex) - ex) in *.
  set (m1 := shr_m mrs') in *.
  assert (Hm1' : 0 < m1 ∧ Zdigits2 m1 = Zdigits2 mx - n ∧ e1 = ex + n).
  { destruct (0 <? n) eqn:E.
    - apply Z.ltb_lt in E. rewrite Hm1, He1.
      destruct (Zdigits2_div mx n Hm ltac:(lia)). done.
    - apply Z.ltb_ge in E. assert (n = 0) as Hn0 by lia. rewrite Hm1, He1, Hn0.
      split_and!; [done|lia|lia]. }
  destruct Hm1' as (Hpos1 & Hd1 & ->).
  assert (Hcan1 : fexp prec emax (Zdigits2 m1 + (ex + n)) = ex + n).
  { rewrite Hd1. replace (Zdigits2 mx - n + (ex + n)) with (Zdigits2 mx + ex) by lia.
    unfold n. lia. }
  set (m2 := round_nearest_even m1 (loc_of_shr_record mrs')).
  pose proof (round_nearest_even_range m1 (loc_of_shr_record mrs')) as Hr. fold m2 in Hr.
  assert (Hpos2 : 0 < m2) by lia.
  destruct (shr_fexp_val m2 (ex + n) loc_Exact Hpos2) as [Hm3 He3].
  destruct (shr_fexp prec emax m2 (ex + n) loc_Exact) as [mrs'' e3]. simpl in Hm3, He3.
  set (m3 := shr_m mrs'') in *.
  assert (Hfin : 0 < m3 ∧ fexp prec emax (Zdigits2 m3 + e3) = e3).
  { unfold fexp, emin, prec, emax in *.
    destruct (decide (m2 = m1)) as [Heq|Hne].
    - rewrite Heq in *. rewrite Hcan1 in Hm3, He3.
      rewrite Z.sub_diag in Hm3, He3. simpl in Hm3, He3. rewrite Hm3, He3. done.
    - assert (Heq : m2 = m1 + 1) by lia. rewrite Heq in *.
      destruct (Zdigits2_succ m1 Hpos1) as [[Hlt Hd2]|[Hpow Hd2]].
      + rewrite Hd2, Hcan1 in Hm3, He3.
        rewrite Z.sub_diag in Hm3, He3. simpl in Hm3, He3. rewrite Hm3, He3.
        rewrite Hd2. split; [lia|done].
      + rewrite Hd2 in Hm3, He3.
        destruct (Zdigits2_bounds m1 Hpos1) as (Hd1pos & _).
        destruct (decide (Zdigits2 m1 = 53)) as [H53|H53].
        * assert (Hn2 : Z.max (Zdigits2 m1 + 1 + (ex + n) - 53) (3 - 1024 - 53)
                        - (ex + n) = 1) by lia.
          rewrite Hn2 in Hm3, He3. simpl in Hm3, He3.
          rewrite Hpow in Hm3. rewrite Hm3, He3, H53.
          change (2 ^ 53 / 2 ^ 1) with (2 ^ 52).
          split; [done|]. replace (Zdigits2 (2 ^ 52)) with 53 by done. lia.
        * assert (Hn2 : Z.max (Zdigits2 m1 + 1 + (ex + n) - 53) (3 - 1024 - 53)
                        - (ex + n) = 0) by lia.
          rewrite Hn2 in Hm3, He3. simpl in Hm3, He3. rewrite Hm3, He3, Hd2.
          split; [lia|lia]. }
  destruct Hfin as [Hpos3 Hcan3].
  destruct m3 as [|m|m] eqn:E3; [lia| |lia].
  destruct (e3 <=? emax - prec) eqn:Hle; [|by left].
  right. exists m, e3. split; [done|].
  unfold bounded, canonical_mantissa. rewrite Hle, andb_true_r.
  apply Z.eqb_eq. done.
Qed.

Lemma binary_round_valid sx mx ex :
  SpecFloat.emin prec emax < Zpos (digits2_pos mx) + ex →
  binary_round prec emax sx mx ex = S754_infinity sx
  ∨ ∃ m e, binary_round prec emax sx mx ex = S754_finite sx m e
           ∧ bounded prec emax m e = true.
Proof.
  intros Hbig. unfold binary_round.
  pose proof (digits2_pos_bounds mx) as Hb.
  set (d := Zpos (digits2_pos mx)) in *.
  set (ex' := fexp prec emax (d + ex)).
  destruct (shl_align mx ex ex') as [mz ez] eqn:E.
  apply binary_round_aux_valid; [lia|].
  unfold shl_align in E.
  destruct (ex' - ex) as [|p|p] eqn:Ed.
  - injection E as <- <-. simpl. fold d. fold ex'.
    unfold ex', fexp, SpecFloat.emin, prec, emax in *. lia.
  - injection E as <- <-. simpl. fold d. fold ex'.
    unfold ex', fexp, SpecFloat.emin, prec, emax in *. lia.
  - injection E as <- <-.
    assert (Hdz : Zdigits2 (Zpos (Pos.iter xO mx p)) = d + Zpos p).
    { apply Zdigits2_unique; [lia|]. rewrite iter_xO_val.
      replace (d + Z.pos p - 1) with ((d - 1) + Z.pos p) by lia.
      rewrite !Z.pow_add_r by lia.
      assert (0 < 2 ^ Z.pos p) by (apply Z.pow_pos_nonneg; lia). nia. }
    rewrite Hdz.
    replace (d + Z.pos p + ex') with (d + ex) by lia. fold ex'.
    unfold ex', fexp, SpecFloat.emin, prec, emax in *. lia.
Qed.

Lemma double_of_Z_pos (z : Z) :
  0 < z →
  Prim2SF (Cxx.double_of_Z z) = S754_infinity false
  ∨ ∃ m e, Prim2SF (Cxx.double_of_Z z) = S754_finite false m e.
Proof.
  intros Hz. unfold Cxx.double_of_Z. destruct z as [|p|p]; try lia. simpl.
  destruct (binary_round_valid false p 0) as [->|(m & e & -> & Hv)].
  - unfold SpecFloat.emin, prec, emax. lia.
  - by left.
  - right. exists m, e. by rewrite Prim2SF_SF2Prim.
Qed.

(** ** [get_max] on any map, and what [matchBoundingBoxes] writes *)

Lemma max_fold_first rest : ∀ (pre : std_map) largest i,
  pre !! i = Some largest →
  (∀ j e, pre !! j = Some e → e.2 ≤ largest.2) →
  (∀ j e, (j < i)%nat → pre !! j = Some e → e.2 < largest.2) →
  let r := foldl (λ largest e', if largest.2 <? e'.2 then e' else largest) largest rest in
  ∃ i', (pre ++ rest) !! i' = Some r
        ∧ (∀ j e, (pre ++ rest) !! j = Some e → e.2 ≤ r.2)
        ∧ (∀ j e, (j < i')%nat → (pre ++ rest) !! j = Some e → e.2 < r.2).
Proof.
  induction rest as [|e' rest IH]; intros pre largest i Hi Hmax Hfirst; simpl.
  - exists i. rewrite app_nil_r. done.
  - replace (pre ++ e' :: rest) with ((pre ++ [e']) ++ rest)
      by (by rewrite <- app_assoc).
    destruct (largest.2 <? e'.2) eqn:Hcmp.
    + apply Z.ltb_lt in Hcmp. apply (IH _ _ (length pre)).
      * by apply list_lookup_middle.
      * intros j e [Hj|[_ Hj]]%lookup_app_Some.
        -- specialize (Hmax j e Hj). lia.
        -- apply list_lookup_singleton_Some in Hj as [_ <-]. lia.
      * intros j e Hlt [Hj|[Hge _]]%lookup_app_Some; [|lia].
        specialize (Hmax j e Hj). lia.
    + apply Z.ltb_ge in Hcmp. apply (IH _ _ i).
      * by apply lookup_app_l_Some.
      * intros j e [Hj|[_ Hj]]%lookup_app_Some; [by eapply Hmax|].
        apply list_lookup_singleton_Some in Hj as [_ <-]. lia.
      * intros j e Hlt [Hj|[Hge _]]%lookup_app_Some; [by eapply Hfirst|].
        apply lookup_lt_Some in Hi. lia.
Qed.

Lemma get_max_elem (x : std_map) r : get_max x = Some r → r ∈ x.
Proof.
  destruct x as [|e rest]; [done|]. intros [= <-].
  destruct (max_fold_first rest [e] e 0%nat) as (i & Hi & _); [done| |intros; lia|].
  - intros [|j] e0 Hj; simplify_eq/=. lia.
  - by eapply list_elem_of_lookup_2.
Qed.

Lemma vote_keys m id k : k ∈ (fst <$> vote m id) → k = id ∨ k ∈ (fst <$> m).
Proof. unfold vote. destruct (map_find id m); apply map_set_keys. Qed.

Lemma tally_match_keys prevFrame currFrame prevBox currBox m mt m' k :
  tally_match prevFrame currFrame prevBox currBox m mt = Some m' →
  k ∈ (fst <$> m') → k = boxID currBox ∨ k ∈ (fst <$> m).
Proof.
  unfold tally_match. intros Hm Hk.
  destruct (Cxx.at_ (keypoints prevFrame) (queryIdx mt)) as [kp|]; [|done].
  simpl in Hm. destruct (contains2f (roi prevBox) (pt kp)); [|simplify_eq; auto].
  destruct (Cxx.at_ (keypoints currFrame) (trainIdx mt)) as [kc|]; [|done].
  simpl in Hm. destruct (contains2f (roi currBox) (pt kc)); simplify_eq; [|auto].
  by apply vote_keys.
Qed.

Lemma tally_matches_keys prevFrame currFrame prevBox currBox matches : ∀ m m' k,
  foldlM (tally_match prevFrame currFrame prevBox currBox) m matches = Some m' →
  k ∈ (fst <$> m') → k = boxID currBox ∨ k ∈ (fst <$> m).
Proof.
  induction matches as [|mt matches IH]; intros m m' k Hm Hk.
  - simplify_eq/=. auto.
  - cbn [foldlM] in Hm.
    destruct (tally_match prevFrame currFrame prevBox currBox m mt) as [m1|] eqn:E;
      [|done].
    cbn [mbind option_bind] in Hm.
    destruct (IH _ _ _ Hm Hk) as [?|Hk1]; [auto|].
    by eapply tally_match_keys.
Qed.

Lemma tally_keys matches prevFrame currFrame prevBox m k :
  tally matches prevFrame currFrame prevBox = Some m →
  k ∈ (fst <$> m) → k ∈ (boxID <$> boundingBoxes currFrame).
Proof.
  unfold tally.
  assert (Hgen : ∀ boxes m0 m',
            foldlM (λ m currBox,
                      foldlM (tally_match prevFrame currFrame prevBox currBox) m matches)
                   m0 boxes = Some m' →
            k ∈ (fst <$> m') → k ∈ (boxID <$> boxes) ∨ k ∈ (fst <$> m0)).
  { induction boxes as [|b boxes IH]; intros m0 m' Hm Hk.
    - simplify_eq/=. auto.
    - cbn [foldlM] in Hm.
      destruct (foldlM (tally_match prevFrame currFrame prevBox b) m0 matches)
        as [m1|] eqn:E; [|done].
      cbn [mbind option_bind] in Hm.
      destruct (IH _ _ Hm Hk) as [?|Hk1]; [left; by right|].
      destruct (tally_matches_keys _ _ _ _ _ _ _ _ E Hk1) as [->|?]; [|auto].
      left. by left. }
  intros Hm Hk. destruct (Hgen _ _ _ Hm Hk) as [?|Hnil]; [done|].
  by apply elem_of_nil in Hnil.
Qed.

(** Every entry the loop over the previous regions writes is the id of a
    current region; the other entries stay. *)
Lemma matchBoundingBoxes_written matches prevFrame currFrame prevBoxes : ∀ best out,
  foldlM (λ best prevBox,
            m ← tally matches prevFrame currFrame prevBox;
            max ← get_max m;
            Some (map_set (boxID prevBox) max.1 best)) best prevBoxes = Some out →
  (∀ b, b ∈ prevBoxes →
     ∃ id, map_find (boxID b) out = Some id
           ∧ id ∈ (boxID <$> boundingBoxes currFrame))
  ∧ (∀ k, k ∉ (boxID <$> prevBoxes) → map_find k out = map_find k best)
  ∧ (keys_increasing best → keys_increasing out).
Proof.
  induction prevBoxes as [|b prevBoxes IH]; intros best out Hout.
  - simplify_eq/=. split_and!; [|done..]. intros b Hb. by apply elem_of_nil in Hb.
  - cbn [foldlM] in Hout.
    destruct (tally matches prevFrame currFrame b) as [m|] eqn:Hm; [|done].
    cbn [mbind option_bind] in Hout. destruct (get_max m) as [mx|] eqn:Hmx; [|done].
    cbn [mbind option_bind] in Hout.
    destruct (IH _ _ Hout) as (Hin & Hother & Hinc).
    assert (Hid : mx.1 ∈ (boxID <$> boundingBoxes currFrame)).
    { eapply tally_keys; [done|]. apply list_elem_of_fmap.
      exists mx. split; [done|]. by apply get_max_elem. }
    split_and!.
    + intros b' [->|Hb']%elem_of_cons; [|by apply Hin].
      destruct (decide (boxID b ∈ (boxID <$> prevBoxes))) as [Hdup|Hfresh].
      * apply list_elem_of_fmap in Hdup as (b'' & Heq & Hb''). rewrite Heq.
        by apply Hin.
      * exists mx.1. split; [|done].
        rewrite Hother by done. rewrite map_find_map_set. by rewrite decide_True.
    + intros k Hk. rewrite fmap_cons, not_elem_of_cons in Hk. destruct Hk as [Hkb Hk].
      rewrite Hother by done. rewrite map_find_map_set. by rewrite decide_False.
    + intros Hs. by apply Hinc, map_set_increasing.
Qed.

Lemma counts_empty ids : counts [] ids → ids = [].
Proof.
  intros [_ Hm]. destruct ids as [|id ids]; [done|].
  specialize (Hm id). simpl in Hm. case_decide as Ho; [|done].
  unfold occurrences in Ho. rewrite filter_cons_True in Ho by done. simpl in Ho. lia.
Qed.

Lemma votes_elem matches prevFrame currFrame prevBox id :
  id ∈ vote_ids matches prevFrame currFrame prevBox →
  0 < votes matches prevFrame currFrame prevBox id.
Proof.
  intros Hid. unfold votes.
  assert (Hf : id ∈ filter (λ id', id' = id)
                      (vote_ids matches prevFrame currFrame prevBox)).
  { by apply list_elem_of_filter. }
  destruct (filter _ _); [by apply elem_of_nil in Hf|]. simpl. lia.
Qed.

(** ** The two loops of [computeTTCCamera] *)


Lemma ratio_step_eq kptsPrev kptsCurr kpOuterCurr kpOuterPrev acc b kc kp :
  Cxx.at_ kptsCurr (trainIdx b) = Some kc → Cxx.at_ kptsPrev (queryIdx b) = Some kp →
  ratio_step kptsPrev kptsCurr kpOuterCurr kpOuterPrev acc b
  = Some (if (Cxx.epsilon <? norm (Point2f_sub (pt kpOuterPrev) (pt kp)))%float
             && (minDist <=? norm (Point2f_sub (pt kpOuterCurr) (pt kc)))%float
          then acc ++ [(norm (Point2f_sub (pt kpOuterCurr) (pt kc))
                        / norm (Point2f_sub (pt kpOuterPrev) (pt kp)))%float]
          else acc).
Proof. intros Hkc Hkp. unfold ratio_step. by rewrite Hkc, Hkp. Qed.

Lemma ratio_step_in_range kptsPrev kptsCurr kpOuterCurr kpOuterPrev acc b :
  is_Some (ratio_step kptsPrev kptsCurr kpOuterCurr kpOuterPrev acc b) →
  is_Some (Cxx.at_ kptsPrev (queryIdx b)) ∧ is_Some (Cxx.at_ kptsCurr (trainIdx b)).
Proof.
  unfold ratio_step.
  destruct (Cxx.at_ kptsCurr (trainIdx b)) as [kc|]; [|by intros [? ?]].
  destruct (Cxx.at_ kptsPrev (queryIdx b)) as [kp|]; [|by intros [? ?]].
  intros _. split; by eexists.
Qed.

Lemma ratio_loop_defined kptsPrev kptsCurr kpOuterCurr kpOuterPrev inner : ∀ acc,
  indices_in_range kptsPrev kptsCurr inner →
  is_Some (foldlM (ratio_step kptsPrev kptsCurr kpOuterCurr kpOuterPrev) acc inner).
Proof.
  induction inner as [|b inner IH]; intros acc Hr; [by eexists|].
  apply Forall_cons in Hr as [[[kp Hkp] [kc Hkc]] Hr].
  cbn [foldlM]. rewrite (ratio_step_eq _ _ _ _ _ _ kc kp) by done.
  cbn [mbind option_bind]. by apply IH.
Qed.

Lemma ratio_loop_in_range kptsPrev kptsCurr kpOuterCurr kpOuterPrev inner : ∀ acc,
  is_Some (foldlM (ratio_step kptsPrev kptsCurr kpOuterCurr kpOuterPrev) acc inner) →
  indices_in_range kptsPrev kptsCurr inner.
Proof.
  induction inner as [|b inner IH]; intros acc Hs; [constructor|].
  cbn [foldlM] in Hs.
  destruct (ratio_step kptsPrev kptsCurr kpOuterCurr kpOuterPrev acc b) as [acc'|] eqn:E;
    [|by destruct Hs].
  cbn [mbind option_bind] in Hs. constructor; [|by eapply IH].
  eapply ratio_step_in_range. rewrite E. by eexists.
Qed.

Lemma outer_loop_defined kptsPrev kptsCurr inner outer : ∀ acc,
  indices_in_range kptsPrev kptsCurr outer →
  indices_in_range kptsPrev kptsCurr inner →
  is_Some (foldlM (λ acc it1,
                     kpOuterCurr ← Cxx.at_ kptsCurr (trainIdx it1);
                     kpOuterPrev ← Cxx.at_ kptsPrev (queryIdx it1);
                     foldlM (ratio_step kptsPrev kptsCurr kpOuterCurr kpOuterPrev)
                       acc inner) acc outer).
Proof.
  induction outer as [|a outer IH]; intros acc Ho Hi; [by eexists|].
  apply Forall_cons in Ho as [[[kp Hkp] [kc Hkc]] Ho].
  cbn [foldlM]. rewrite Hkc, Hkp. cbn [mbind option_bind].
  destruct (ratio_loop_defined kptsPrev kptsCurr kc kp inner acc Hi) as [acc' ->].
  cbn [mbind option_bind]. by apply IH.
Qed.

Lemma elem_of_removelast {A} (x : A) (l : list A) : x ∈ removelast l → x ∈ l.
Proof. rewrite removelast_firstn_len. apply subseteq_take. Qed.

Lemma removelast_in_range kptsPrev kptsCurr (matches : list DMatch) :
  indices_in_range kptsPrev kptsCurr matches →
  indices_in_range kptsPrev kptsCurr (removelast matches).
Proof.
  intros Hr. apply Forall_forall. intros m Hm.
  apply (proj1 (Forall_forall _ _) Hr). by apply elem_of_removelast.
Qed.

(** No pair passes the test on [distCurr]: the loops add nothing. *)
Lemma ratio_loop_small kptsPrev kptsCurr a kpOuterCurr kpOuterPrev inner : ∀ acc,
  Cxx.at_ kptsCurr (trainIdx a) = Some kpOuterCurr →
  indices_in_range kptsPrev kptsCurr inner →
  (∀ b, b ∈ inner → (minDist <=? current_distance kptsCurr a b)%float = false) →
  foldlM (ratio_step kptsPrev kptsCurr kpOuterCurr kpOuterPrev) acc inner = Some acc.
Proof.
  intros acc Ha. induction inner as [|b inner IH]; intros Hr Hsmall; [done|].
  apply Forall_cons in Hr as [[[kp Hkp] [kc Hkc]] Hr].
  cbn [foldlM]. rewrite (ratio_step_eq _ _ _ _ _ _ kc kp) by done.
  pose proof (Hsmall b ltac:(by left)) as Hb.
  unfold current_distance in Hb. rewrite Ha, Hkc in Hb. rewrite Hb, andb_false_r.
  cbn [mbind option_bind].
  apply IH; [done|]. intros b' Hb'. apply Hsmall. by right.
Qed.

Lemma outer_loop_small kptsPrev kptsCurr inner outer :
  indices_in_range kptsPrev kptsCurr outer →
  indices_in_range kptsPrev kptsCurr inner →
  (∀ a b, a ∈ outer → b ∈ inner →
     (minDist <=? current_distance kptsCurr a b)%float = false) →
  foldlM (λ acc it1,
            kpOuterCurr ← Cxx.at_ kptsCurr (trainIdx it1);
            kpOuterPrev ← Cxx.at_ kptsPrev (queryIdx it1);
            foldlM (ratio_step kptsPrev kptsCurr kpOuterCurr kpOuterPrev) acc inner)
         [] outer = Some [].
Proof.
  induction outer as [|a outer IH]; intros Ho Hi Hsmall; [done|].
  apply Forall_cons in Ho as [[[kp Hkp] [kc Hkc]] Ho].
  cbn [foldlM]. rewrite Hkc, Hkp. cbn [mbind option_bind].
  rewrite (ratio_loop_small kptsPrev kptsCurr a kc kp inner [] Hkc Hi).
  - cbn [mbind option_bind]. apply IH; [done..|].
    intros a' b Ha' Hb. apply Hsmall; [by right|done].
  - intros b Hb. apply Hsmall; [by left|done].
Qed.

Lemma ratio_loop_pairs kptsPrev kptsCurr a kpOuterCurr kpOuterPrev inner : ∀ acc,
  Cxx.at_ kptsCurr (trainIdx a) = Some kpOuterCurr →
  Cxx.at_ kptsPrev (queryIdx a) = Some kpOuterPrev →
  indices_in_range kptsPrev kptsCurr inner →
  foldlM (ratio_step kptsPrev kptsCurr kpOuterCurr kpOuterPrev) acc inner
  = Some (acc ++ (b ← inner; pair_ratio kptsPrev kptsCurr a b)).
Proof.
  intros acc Hc Hp. revert acc.
  induction inner as [|b inner IH]; intros acc Hr.
  - simpl. by rewrite app_nil_r.
  - apply Forall_cons in Hr as [[[kp Hkp] [kc Hkc]] Hr].
    cbn [foldlM]. rewrite (ratio_step_eq _ _ _ _ _ _ kc kp) by done.
    cbn [mbind option_bind]. rewrite IH by done. f_equal.
    rewrite bind_cons, app_assoc. f_equal.
    unfold pair_ratio. rewrite Hc, Hp, Hkc, Hkp.
    destruct (_ && _); [done|by rewrite app_nil_r].
Qed.

Lemma outer_loop_pairs kptsPrev kptsCurr inner outer : ∀ acc,
  indices_in_range kptsPrev kptsCurr outer →
  indices_in_range kptsPrev kptsCurr inner →
  foldlM (λ acc it1,
            kpOuterCurr ← Cxx.at_ kptsCurr (trainIdx it1);
            kpOuterPrev ← Cxx.at_ kptsPrev (queryIdx it1);
            foldlM (ratio_step kptsPrev kptsCurr kpOuterCurr kpOuterPrev) acc inner)
         acc outer
  = Some (acc ++ (a ← outer; b ← inner; pair_ratio kptsPrev kptsCurr a b)).
Proof.
  induction outer as [|a outer IH]; intros acc Ho Hi.
  - simpl. by rewrite app_nil_r.
  - apply Forall_cons in Ho as [[[kp Hkp] [kc Hkc]] Ho].
    cbn [foldlM]. rewrite Hkc, Hkp. cbn [mbind option_bind].
    rewrite (ratio_loop_pairs _ _ a) by done. cbn [mbind option_bind].
    rewrite IH by done. f_equal. by rewrite bind_cons, app_assoc.
Qed.

Lemma length_bind_le {A B} (f : A → list B) (k : nat) (l : list A) :
  (∀ x, (length (f x) ≤ k)%nat) → (length (l ≫= f) ≤ length l * k)%nat.
Proof.
  intros Hf. induction l as [|x l IH]; [done|].
  rewrite bind_cons, length_app. specialize (Hf x). simpl. lia.
Qed.

Lemma pair_ratio_length kptsPrev kptsCurr a b :
  (length (pair_ratio kptsPrev kptsCurr a b) ≤ 1)%nat.
Proof.
  unfold pair_ratio.
  destruct (Cxx.at_ kptsCurr (trainIdx a)), (Cxx.at_ kptsPrev (queryIdx a)),
           (Cxx.at_ kptsCurr (trainIdx b)), (Cxx.at_ kptsPrev (queryIdx b));
    simpl; try lia.
  destruct (_ && _); simpl; lia.
Qed.

Lemma sub_diag_cases (x : float) : (x - x)%float = 0%float ∨ (x - x)%float = nan.
Proof.
  destruct (sub_diag_zero x) as [H|H]; [left|right]; by apply Prim2SF_inj.
Qed.

(** The distance of a location from itself is zero or NaN, never 100 or
    more. *)
Lemma norm_self (p : Point2f) : (minDist <=? norm (Point2f_sub p p))%float = false.
Proof.
  unfold norm, Point2f_sub. simpl.
  destruct (sub_diag_cases (pf_x p)) as [-> | ->],
           (sub_diag_cases (pf_y p)) as [-> | ->]; reflexivity.
Qed.

(** ** When the assigners have a result *)

Lemma foldlM_fail {A B} (f : A → B → option A) (b : B) (l : list B) : ∀ a,
  (∀ a', f a' b = None) → b ∈ l → foldlM f a l = None.
Proof.
  induction l as [|b' l IH]; intros a Hf Hb; [by apply elem_of_nil in Hb|].
  cbn [foldlM]. apply elem_of_cons in Hb as [<-|Hb].
  - by rewrite Hf.
  - destruct (f a b'); [|done]. cbn [mbind option_bind]. by apply IH.
Qed.

Lemma eqb_zero (d : float) :
  (d =? 0)%float = true → ∃ s, Prim2SF d = S754_zero s.
Proof.
  rewrite FloatAxioms.eqb_spec. change (Prim2SF 0) with (S754_zero false).
  unfold SFeqb, SFcompare. destruct (Prim2SF d) as [s|[]| |[] m e]; try done.
  intros _. by exists s.
Qed.

Lemma to_int_not_finite (f : float) : Cxx.is_finite f = false → Cxx.to_int f = None.
Proof. unfold Cxx.is_finite, Cxx.to_int. by destruct (Prim2SF f). Qed.

Lemma project_zero_depth P_rect_xx R_rect_xx RT p d :
  depth P_rect_xx R_rect_xx RT p = Some d → (d =? 0)%float = true →
  project P_rect_xx R_rect_xx RT p = None.
Proof.
  intros Hd Hz. rewrite project_eq. unfold project_by_depth. unfold depth in Hd.
  destruct (Mat_mul P_rect_xx R_rect_xx) as [PR|]; [|done]. cbn [mbind option_bind] in *.
  destruct (Mat_mul PR RT) as [PRRT|]; [|done]. cbn [mbind option_bind] in *.
  destruct (Mat_mul PRRT _) as [Y|]; [|done]. cbn [mbind option_bind] in *.
  rewrite Hd.
  destruct (Mat_entry Y 0 0) as [u|]; [|done]. cbn [mbind option_bind].
  destruct (Mat_entry Y 1 0) as [v|]; [|done]. cbn [mbind option_bind].
  rewrite (to_int_not_finite (u / d)); [done|].
  apply div_by_zero_not_finite. left. by apply eqb_zero.
Qed.

Lemma enclosingBoxes_defined shrinkFactor q boxes : ∀ i,
  is_Some (enclosingBoxes i boxes shrinkFactor q)
  ↔ Forall (λ b, is_Some (smallerBox shrinkFactor (roi b))) boxes.
Proof.
  induction boxes as [|b boxes IH]; intros i.
  - split; [constructor|by eexists].
  - cbn [enclosingBoxes]. rewrite Forall_cons, <- (IH (S i)).
    destruct (smallerBox shrinkFactor (roi b)) as [small|]; cbn [mbind option_bind].
    + destruct (enclosingBoxes (S i) boxes shrinkFactor q); cbn [mbind option_bind].
      * split; [intros _; split; by eexists|by eexists].
      * split; [by intros [? ?]|]. by intros [_ [? ?]].
    + split; [by intros [? ?]|]. by intros [[? ?] _].
Qed.

Lemma shrunk_exists shrinkFactor boxes :
  Forall (λ b, is_Some (smallerBox shrinkFactor (roi b))) boxes →
  ∃ rects, shrunk shrinkFactor boxes rects.
Proof.
  induction 1 as [|b boxes [r Hr] _ [rects IH]].
  - exists []. constructor.
  - exists (r :: rects). constructor; [by rewrite <- smallerBox_eq|done].
Qed.

Lemma assignLidarPoint_rois shrinkFactor P_rect_xx R_rect_xx RT boxes p boxes' :
  assignLidarPoint shrinkFactor P_rect_xx R_rect_xx RT boxes p = Some boxes' →
  roi <$> boxes' = roi <$> boxes.
Proof.
  unfold assignLidarPoint. intros H.
  destruct (project P_rect_xx R_rect_xx RT p) as [q|]; [|done].
  cbn [mbind option_bind] in H.
  destruct (enclosingBoxes 0 boxes shrinkFactor q) as [enc|]; [|done].
  cbn [mbind option_bind] in H.
  destruct enc as [|i [|j enc]]; simplify_eq; try done.
  apply list_eq. intros k. rewrite !list_lookup_fmap.
  destruct (decide (i = k)) as [->|Hne].
  - rewrite list_lookup_alter_eq. by destruct (boxes !! k).
  - by rewrite list_lookup_alter_ne.
Qed.

Lemma smaller_defined_rois shrinkFactor (boxes boxes' : list BoundingBox) :
  roi <$> boxes' = roi <$> boxes →
  Forall (λ b, is_Some (smallerBox shrinkFactor (roi b))) boxes' →
  Forall (λ b, is_Some (smallerBox shrinkFactor (roi b))) boxes.
Proof.
  intros Heq H.
  apply (Forall_fmap roi (λ r, is_Some (smallerBox shrinkFactor r))).
  rewrite <- Heq. by apply Forall_fmap.
Qed.

Lemma clusterLidarWithROI_Some_inv shrinkFactor P_rect_xx R_rect_xx RT points :
  ∀ boxes,
    is_Some (clusterLidarWithROI boxes points shrinkFactor P_rect_xx R_rect_xx RT) →
    Forall (λ p, is_Some (project P_rect_xx R_rect_xx RT p)) points
    ∧ (points = [] ∨ Forall (λ b, is_Some (smallerBox shrinkFactor (roi b))) boxes).
Proof.
  unfold clusterLidarWithROI.
  induction points as [|p points IH]; intros boxes Hs; [split; [constructor|by left]|].
  cbn [foldlM] in Hs.
  destruct (assignLidarPoint shrinkFactor P_rect_xx R_rect_xx RT boxes p)
    as [boxes1|] eqn:E; [|by destruct Hs].
  cbn [mbind option_bind] in Hs. destruct (IH _ Hs) as [Hp _].
  unfold assignLidarPoint in E.
  destruct (project P_rect_xx R_rect_xx RT p) as [q|] eqn:Hq; [|done].
  cbn [mbind option_bind] in E.
  destruct (enclosingBoxes 0 boxes shrinkFactor q) as [enc|] eqn:He; [|done].
  split.
  - constructor; [by eexists|done].
  - right. eapply enclosingBoxes_defined. rewrite He. by eexists.
Qed.

(** ** Correspondences that a region already holds *)

Lemma assign_matches_train r kptsCurr matches : ∀ acc,
  train_in_range kptsCurr matches →
  assign_matches r kptsCurr acc matches
  = Some (acc ++ filter (current_inside r kptsCurr) matches).
Proof.
  unfold assign_matches.
  induction matches as [|m matches IH]; intros acc Hr.
  - simpl. by rewrite filter_nil, app_nil_r.
  - apply Forall_cons in Hr as [[kc Hkc] Hr].
    cbn [foldlM]. rewrite Hkc. cbn [mbind option_bind]. rewrite IH by done.
    f_equal. rewrite filter_cons.
    assert (Hiff : current_inside r kptsCurr m ↔ contains2f r (pt kc) = true).
    { unfold current_inside. by rewrite Hkc. }
    destruct (contains2f r (pt kc)) eqn:E.
    + rewrite decide_True by (by apply Hiff). by rewrite <- app_assoc.
    + rewrite decide_False; [done|]. rewrite Hiff. done.
Qed.

Lemma assign_matches_Some_inv r kptsCurr matches : ∀ acc,
  is_Some (assign_matches r kptsCurr acc matches) → train_in_range kptsCurr matches.
Proof.
  unfold assign_matches.
  induction matches as [|m matches IH]; intros acc Hs; [constructor|].
  cbn [foldlM] in Hs.
  destruct (Cxx.at_ kptsCurr (trainIdx m)) as [kc|] eqn:Hkc; [|by destruct Hs].
  cbn [mbind option_bind] in Hs. constructor; [by eexists|by eapply IH].
Qed.

Lemma sum_dist_Some_inv kptsPrev kptsCurr v : ∀ s,
  is_Some (foldlM (λ sum it, dist ← match_dist kptsPrev kptsCurr it;
                             Some (sum + dist)%float) s v) →
  indices_in_range kptsPrev kptsCurr v.
Proof.
  induction v as [|m v IH]; intros s Hs; [constructor|].
  cbn [foldlM] in Hs.
  destruct (match_dist kptsPrev kptsCurr m) as [dist|] eqn:E; [|by destruct Hs].
  cbn [mbind option_bind] in Hs. constructor; [|by eapply IH].
  apply match_dist_Some_inv. rewrite E. by eexists.
Qed.

(** [clusterKptMatchesWithROI] has a result exactly when the keypoints it
    reads exist and the removal pass erases nothing; the region then holds
    what it held on entry followed by the new correspondences in its
    rectangle. *)
Lemma clusterKptMatchesWithROI_Some boundingBox kptsPrev kptsCurr matches box' :
  clusterKptMatchesWithROI boundingBox kptsPrev kptsCurr matches = Some box'
  ↔ train_in_range kptsCurr matches
    ∧ indices_in_range kptsPrev kptsCurr
        (kptMatches boundingBox
         ++ filter (current_inside (roi boundingBox) kptsCurr) matches)
    ∧ (∀ m, m ∈ kptMatches boundingBox
                ++ filter (current_inside (roi boundingBox) kptsCurr) matches →
            ¬ outlier kptsPrev kptsCurr
                (mean_displacement kptsPrev kptsCurr
                   (kptMatches boundingBox
                    ++ filter (current_inside (roi boundingBox) kptsCurr) matches)) m)
    ∧ box' = {| boxID := boxID boundingBox; roi := roi boundingBox;
                lidarPoints := lidarPoints boundingBox;
                kptMatches :=
                  kptMatches boundingBox
                  ++ filter (current_inside (roi boundingBox) kptsCurr) matches |}.
Proof.
  unfold clusterKptMatchesWithROI. split.
  - intros H.
    destruct (assign_matches (roi boundingBox) kptsCurr (kptMatches boundingBox) matches)
      as [assigned|] eqn:Ha; [|done].
    assert (Ht : train_in_range kptsCurr matches).
    { eapply assign_matches_Some_inv. rewrite Ha. by eexists. }
    rewrite assign_matches_train in Ha by done. injection Ha as <-.
    cbn [mbind option_bind] in H.
    set (held := kptMatches boundingBox
                 ++ filter (current_inside (roi boundingBox) kptsCurr) matches) in *.
    destruct (sum_dist kptsPrev kptsCurr held) as [sum|] eqn:Hsum; [|done].
    assert (Hr : indices_in_range kptsPrev kptsCurr held).
    { eapply sum_dist_Some_inv. unfold sum_dist in Hsum. rewrite Hsum. by eexists. }
    unfold sum_dist in Hsum. rewrite sum_dist_eq in Hsum by done. injection Hsum as <-.
    cbn [mbind option_bind] in H.
    destruct (erase_loop kptsPrev kptsCurr _ held) as [kept|] eqn:Hk; [|done].
    apply erase_loop_Some in Hk as (-> & _ & Hno).
    cbn [mbind option_bind] in H. injection H as <-. done.
  - intros (Ht & Hr & Hno & ->).
    rewrite assign_matches_train by done. cbn [mbind option_bind].
    set (held := kptMatches boundingBox
                 ++ filter (current_inside (roi boundingBox) kptsCurr) matches) in *.
    unfold sum_dist. rewrite sum_dist_eq by done. cbn [mbind option_bind].
    assert (He : erase_loop kptsPrev kptsCurr
                   (mean_displacement kptsPrev kptsCurr held) held = Some held).
    { by apply erase_loop_Some. }
    unfold mean_displacement in He. unfold mean_dist. by rewrite He.
Qed.

(** ** A scene that does not move *)

Lemma sub_diag_finite (x : float) : Cxx.is_finite x = true → (x - x)%float = 0%float.
Proof.
  intros Hx. apply Prim2SF_inj. change (Prim2SF 0) with (S754_zero false).
  revert Hx. unfold Cxx.is_finite. rewrite sub_spec.
  destruct (Prim2SF x) as [[]|[]| |s m e]; simpl; try done.
  intros _. by rewrite Z.sub_diag.
Qed.

Lemma unmoved_displacement kptsPrev kptsCurr m :
  unmoved kptsPrev kptsCurr m → displacement kptsPrev kptsCurr m = 0%float.
Proof.
  intros (kp & Hp & Hc & Hx & Hy). unfold displacement.
  rewrite Hc, Hp.
  rewrite (sub_diag_finite _ Hx), (sub_diag_finite _ Hy). reflexivity.
Qed.

Lemma sum_unmoved kptsPrev kptsCurr (v : list DMatch) :
  (∀ m, m ∈ v → displacement kptsPrev kptsCurr m = 0%float) →
  foldl (λ sum m, sum + displacement kptsPrev kptsCurr m)%float 0%float v = 0%float.
Proof.
  induction v as [|m v IH]; intros Hv; [done|]. simpl.
  rewrite (Hv m) by (by left). change (0 + 0)%float with 0%float.
  apply IH. intros m' Hm'. apply Hv. by right.
Qed.

Lemma zero_div_count (n : nat) :
  (0 < n)%nat → (0 / Cxx.double_of_Z (Z.of_nat n))%float = 0%float.
Proof.
  intros Hn. apply Prim2SF_inj. rewrite div_spec.
  change (Prim2SF 0) with (S754_zero false).
  destruct (double_of_Z_pos (Z.of_nat n)) as [->|(m & e & ->)]; [lia|done..].
Qed.

Lemma mean_unmoved kptsPrev kptsCurr (v : list DMatch) :
  v ≠ [] →
  (∀ m, m ∈ v → displacement kptsPrev kptsCurr m = 0%float) →
  mean_displacement kptsPrev kptsCurr v = 0%float.
Proof.
  intros Hne Hv. unfold mean_displacement. rewrite sum_unmoved by done.
  apply zero_div_count. destruct v; [done|simpl; lia].
Qed.


(** ** The top view *)

Lemma to_float32_not_finite (f : float) :
  Cxx.is_finite f = false → Cxx.to_float32 f = f.
Proof. unfold Cxx.is_finite, Cxx.to_float32. by destruct (Prim2SF f). Qed.

Lemma add_not_finite (x y : float) :
  Cxx.is_finite x = false → Cxx.is_finite (x + y) = false.
Proof.
  unfold Cxx.is_finite. rewrite add_spec.
  by destruct (Prim2SF x) as [|[]| |], (Prim2SF y) as [|[]| |].
Qed.

(** A quotient by the [float] zero, rounded, added to and rounded again,
    has no [int] value. *)
Lemma topview_by_zero (a b : float) :
  Cxx.to_int (Cxx.to_float32 (Cxx.to_float32 (a / Cxx.float32_of_Z 0) + b)) = None.
Proof.
  assert (Hq : Cxx.is_finite (a / Cxx.float32_of_Z 0) = false).
  { apply div_by_zero_not_finite. left. by exists false. }
  rewrite (to_float32_not_finite _ Hq).
  pose proof (add_not_finite _ b Hq) as Hs.
  rewrite (to_float32_not_finite _ Hs). by apply to_int_not_finite.
Qed.

Lemma plot_point_flat worldSize imageSize color st p :
  size_height worldSize = 0 ∨ size_width worldSize = 0 →
  plot_point worldSize imageSize color st p = None.
Proof.
  intros Hflat. unfold plot_point.
  destruct (topview_y worldSize imageSize (Cxx.to_float32 (lp_x p))) as [y|] eqn:Hy;
    [|done].
  cbn [mbind option_bind].
  destruct Hflat as [Hh|Hw].
  - unfold topview_y in Hy. rewrite Hh, topview_by_zero in Hy. done.
  - unfold topview_x. rewrite Hw, topview_by_zero. done.
Qed.

(** The loop over the lidar points of a region: one circle is drawn for
    each point, the running rectangle only grows, and it reaches every
    centre drawn. *)
Lemma plot_points_spec worldSize imageSize color points : ∀ e0 draws0,
  ∀ st, foldlM (plot_point worldSize imageSize color) (e0, draws0) points = Some st →
  ∃ centers,
    st.2 = draws0 ++ ((λ c, draw_circle c 4 color (-1)) <$> centers)
    ∧ length centers = length points
    ∧ Forall (λ c, left st.1 ≤ pt_x c ≤ right st.1 ∧ top st.1 ≤ pt_y c ≤ bottom st.1)
        centers
    ∧ left st.1 ≤ left e0 ∧ top st.1 ≤ top e0
    ∧ right e0 ≤ right st.1 ∧ bottom e0 ≤ bottom st.1.
Proof.
  induction points as [|p points IH]; intros e0 draws0 st Hst.
  - simplify_eq/=. exists []. rewrite app_nil_r. split_and!; try done; lia.
  - cbn [foldlM] in Hst.
    destruct (plot_point worldSize imageSize color (e0, draws0) p) as [[e1 draws1]|] eqn:E;
      [|done].
    cbn [mbind option_bind] in Hst.
    destruct (IH _ _ _ Hst) as (centers & Hd & Hlen & Hin & Hl & Ht & Hr & Hb).
    unfold plot_point in E. cbn [fst snd] in E.
    destruct (topview_y _ _ _) as [y|]; [|done]. cbn [mbind option_bind] in E.
    destruct (topview_x _ _ _) as [x|]; [|done]. cbn [mbind option_bind] in E.
    injection E as <- <-. cbn [top left bottom right] in *.
    exists ({| pt_x := x; pt_y := y |} :: centers).
    rewrite Hd, fmap_cons, <- app_assoc. split_and!; [done|simpl; lia| | | | |].
    + constructor; [|done]. simpl.
      destruct (left e0 <? x) eqn:?, (top e0 <? y) eqn:?,
               (x <? right e0) eqn:?, (y <? bottom e0) eqn:?; lia.
    + destruct (left e0 <? x) eqn:?; lia.
    + destruct (top e0 <? y) eqn:?; lia.
    + destruct (x <? right e0) eqn:?; lia.
    + destruct (y <? bottom e0) eqn:?; lia.
Qed.

Lemma checked_int_Some z z' : checked_int z = Some z' → z' = z.
Proof. unfold checked_int. case_match; [|done]. by intros [= <-]. Qed.

Lemma show_box_spec worldSize imageSize color it1 drawing :
  show_box worldSize imageSize color it1 = Some drawing →
  box_drawing it1 color drawing.
Proof.
  unfold show_box. intros H.
  destruct (foldlM _ _ (lidarPoints it1)) as [[e draws]|] eqn:E; [|done].
  cbn [mbind option_bind fst snd] in H.
  destruct (checked_int (left e - 250)) as [tx|] eqn:Hx; [|done].
  cbn [mbind option_bind] in H.
  destruct (checked_int (bottom e + 50)) as [ty1|] eqn:Hy1; [|done].
  cbn [mbind option_bind] in H.
  destruct (checked_int (bottom e + 125)) as [ty2|] eqn:Hy2; [|done].
  cbn [mbind option_bind] in H. injection H as <-.
  apply checked_int_Some in Hx as ->. apply checked_int_Some in Hy1 as ->.
  apply checked_int_Some in Hy2 as ->.
  destruct (plot_points_spec _ _ _ _ _ _ _ E)
    as (centers & Hd & Hlen & Hin & Hl & Ht & Hr & Hb).
  cbn [fst snd] in *. simpl in Hl, Ht, Hr, Hb.
  exists centers, (left e), (top e), (right e), (bottom e). eexists _, _.
  rewrite Hd. split_and!; [done..|].
  intros Hnil. rewrite Hnil in E. by simplify_eq/=.
Qed.

Lemma show_boxes_spec (currColor : Z → Scalar) worldSize imageSize boxes : ∀ img objects,
  foldlM (λ img it1,
            drawing ← show_box worldSize imageSize (currColor (boxID it1)) it1;
            Some (img ++ drawing)) img boxes = Some objects →
  ∃ per_box,
    objects = img ++ concat per_box
    ∧ Forall2 (λ it1 drawing, box_drawing it1 (currColor (boxID it1)) drawing)
        boxes per_box.
Proof.
  induction boxes as [|b boxes IH]; intros img objects H.
  - simplify_eq/=. exists []. by rewrite app_nil_r.
  - cbn [foldlM] in H.
    destruct (show_box worldSize imageSize (currColor (boxID b)) b) as [drawing|] eqn:E;
      [|done].
    cbn [mbind option_bind] in H.
    destruct (IH _ _ H) as (per_box & -> & Hall).
    exists (drawing :: per_box). simpl. rewrite <- app_assoc. split; [done|].
    constructor; [by eapply show_box_spec|done].
Qed.

Lemma markers_spec worldSize imageSize (indices : list nat) markers :
  mapM (λ i, marker worldSize imageSize (Z.of_nat i)) indices = Some markers →
  length markers = length indices
  ∧ Forall (λ d, ∃ y, d = draw_line {| pt_x := 0; pt_y := y |}
                          {| pt_x := size_width imageSize; pt_y := y |}
                          {| channel0 := 255; channel1 := 0; channel2 := 0 |}) markers.
Proof.
  intros H. apply mapM_Some_1 in H.
  split; [symmetry; by eapply Forall2_length|].
  induction H as [|i d indices markers Hd _ IH]; constructor; [|done].
  unfold marker in Hd. destruct (Cxx.to_int _) as [y|]; [|done].
  simpl in Hd. injection Hd as <-. by exists y.
Qed.

(** ** The order of the ratios *)

Lemma SFleb_antisym x y :
  SFltb (S754_zero false) x = true →
  SFleb x y = true → SFleb y x = true → x = y.
Proof.
  unfold SFltb, SFleb, SFcompare.
  destruct x as [sx|sx| |sx mx ex], y as [sy|sy| |sy my ey];
    simpl; try congruence; try (by destruct sx); try (by destruct sx, sy).
  destruct sx, sy; try done. intros _.
  rewrite (Pos_compare_cont_Eq mx my), (Pos_compare_cont_Eq my mx).
  rewrite (Z.compare_antisym ex ey), (Pos.compare_antisym mx my).
  destruct (Z.compare_spec ex ey) as [->|?|?]; simpl; try done.
  destruct (Pos.compare_spec mx my) as [->|?|?]; simpl; done.
Qed.

Lemma leb_antisym (x y : float) :
  (0 <? x)%float = true → (x <=? y)%float = true → (y <=? x)%float = true → x = y.
Proof.
  rewrite ltb_spec, !leb_spec. change (Prim2SF 0) with (S754_zero false).
  intros H0 H1 H2. apply Prim2SF_inj. by apply SFleb_antisym.
Qed.

Lemma positive_not_nan (x : float) : (0 <? x)%float = true → is_nan x = false.
Proof. intros H. by destruct (ltb_not_nan _ _ H). Qed.

Lemma sort_unique (ratios sorted : list float) :
  Forall (λ r, (0 <? r)%float = true) ratios →
  sorted ≡ₚ ratios → Sorted float_le sorted → sorted = sort ratios.
Proof.
  intros Hpos Hperm Hsorted.
  assert (Htrans : Transitive float_le).
  { intros x y z. apply leb_trans. }
  apply (@Sorted_unique_strong float float_le Htrans); [|done| |].
  - intros x1 x2 Hx1 _ H12 H21. apply leb_antisym; [|done..].
    rewrite Hperm in Hx1. by apply (proj1 (Forall_forall _ _) Hpos).
  - apply sort_sorted. eapply Forall_impl; [done|]. apply positive_not_nan.
  - by rewrite Hperm, sort_perm.
Qed.

(** * The properties of the design document *)

(** C6.  For every point list and tolerance, and every tree whose search
    reports indices of the point list, [euclideanCluster] returns, and the
    clusters it returns partition the indices: listed together they are
    the indices [0 .. n-1] each once, every index lies in exactly one
    cluster, two different clusters share no index, and no cluster is
    empty.  An isolated point is not dropped as noise, it is a cluster of
    its own: when the search around the point of index [i] reports no
    other index and no search around another point reports [i], the
    cluster [[i]] is one of the clusters. *)
Theorem euclideanCluster_partition `{K : KdTreeOps}
    (points : list (list float)) (tree : KdTree) (distanceTol : float) :
  (∀ target id, id ∈ kd_search tree target distanceTol → (id < length points)%nat) →
  ∃ clusters,
    euclideanCluster points tree distanceTol = Some clusters
    ∧ concat clusters ≡ₚ seq 0 (length points)
    ∧ (∀ i, (i < length points)%nat →
         ∃ k c, clusters !! k = Some c ∧ i ∈ c
                ∧ ∀ k' c', clusters !! k' = Some c' → i ∈ c' → k' = k)
    ∧ (∀ k1 k2 c1 c2, k1 ≠ k2 →
         clusters !! k1 = Some c1 → clusters !! k2 = Some c2 →
         ∀ i, i ∈ c1 → i ∉ c2)
    ∧ (∀ c, c ∈ clusters → c ≠ [] ∧ NoDup c)
    ∧ (∀ i point, points !! i = Some point →
         (∀ j, j ∈ kd_search tree point distanceTol → j = i) →
         (∀ j other, points !! j = Some other →
                     i ∈ kd_search tree other distanceTol → j = i) →
         [i] ∈ clusters).
Proof.
  intros Hrange.
  destruct (euclideanCluster_grown points tree distanceTol) as (clusters & Hc & P & G).
  { intros i j (point & _ & Hj). by eapply Hrange. }
  exists clusters. split_and!.
  - done.
  - apply (part_perm _ _ P).
  - intros i Hi. destruct (part_cover _ _ P i Hi) as (k & c & Hk & Hic).
    exists k, c. split_and!; [done..|].
    intros k' c' Hk' Hic'. by eapply (part_disjoint _ _ P).
  - intros k1 k2 c1 c2 Hne H1 H2 i Hi1 Hi2. apply Hne.
    by eapply (part_disjoint _ _ P).
  - intros c Hc'. split.
    + by eapply (proj1 (Forall_forall _ _) (part_nonempty _ _ P)).
    + by eapply (proj1 (Forall_forall _ _) (part_once _ _ P)).
  - intros i point Hp Hout Hin.
    apply (isolated_cluster points tree distanceTol clusters i P G).
    + by eapply lookup_lt_Some.
    + intros j (point' & Hp' & Hj). apply Hout. congruence.
    + intros j (other & Ho & Hj). by eapply Hin.
Qed.

(** The partition of the previous sweep by the scanning index: the
    stray return, which no search connects to the three returns of the
    vehicle ahead, is the cluster [[2]]. *)
Lemma euclideanCluster_partition_witness :
  (∀ target id,
     id ∈ kd_search (insert_points (K := ScanIndex.ops) kd_new 0 (coordinates <$> sweep_prev))
            target clusterTolerance →
     (id < length (coordinates <$> sweep_prev))%nat)
  ∧ ∃ clusters,
      euclideanCluster (coordinates <$> sweep_prev)
        (insert_points (K := ScanIndex.ops) kd_new 0 (coordinates <$> sweep_prev))
        clusterTolerance = Some clusters
      ∧ concat clusters ≡ₚ seq 0 (length (coordinates <$> sweep_prev))
      ∧ (∀ c, c ∈ clusters → c ≠ [] ∧ NoDup c)
      ∧ [2%nat] ∈ clusters.
Proof.
  pose proof ScanIndex_sound as Hsound.
  assert (Hrange : ∀ target id,
     id ∈ kd_search (insert_points (K := ScanIndex.ops) kd_new 0 (coordinates <$> sweep_prev))
            target clusterTolerance →
     (id < length (coordinates <$> sweep_prev))%nat).
  { intros target id. apply built_tree_in_range. }
  assert (Hout : ∀ j,
     j ∈ kd_search (insert_points (K := ScanIndex.ops) kd_new 0 (coordinates <$> sweep_prev))
           (coordinates (lidar 50 3)) clusterTolerance → j = 2%nat).
  { clear. intros j Hj. vm_compute in Hj.
    apply elem_of_cons in Hj as [->|Hj]; [reflexivity|]. by apply elem_of_nil in Hj. }
  assert (Hin : ∀ j other,
     (coordinates <$> sweep_prev) !! j = Some other →
     2%nat ∈ kd_search (insert_points (K := ScanIndex.ops) kd_new 0
                          (coordinates <$> sweep_prev)) other clusterTolerance →
     j = 2%nat).
  { clear. intros j other Ho Hj.
    destruct j as [|[|[|[|j]]]]; [| |reflexivity| |discriminate Ho];
      injection Ho as <-; vm_compute in Hj;
      repeat (apply elem_of_cons in Hj as [Hj|Hj]; [discriminate Hj|]);
      by apply elem_of_nil in Hj. }
  split; [exact Hrange|].
  destruct (euclideanCluster_partition (K := ScanIndex.ops) (coordinates <$> sweep_prev)
              (insert_points (K := ScanIndex.ops) kd_new 0 (coordinates <$> sweep_prev))
              clusterTolerance Hrange)
    as (clusters & Hc & Hperm & _ & _ & Hne & Hiso).
  exists clusters.
  split; [exact Hc|]. split; [exact Hperm|]. split; [exact Hne|].
  exact (Hiso 2%nat (coordinates (lidar 50 3)) eq_refl Hout Hin).
Defined.

(** C7.  For every lidar point list and tolerance, [removeLidarOutlier]
    returns the points of the first cluster of greatest size among the
    clusters of [euclideanCluster]: the cluster is at least as large as
    every cluster and strictly larger than every earlier one, the result
    lists the input points at the cluster's indices, so every returned
    point is a point of the input with all its fields, and an empty input
    gives an empty result. *)
Theorem removeLidarOutlier_largest_cluster `{KdTreeSound}
    (points : list LidarPoint) (clusterTolerance : float) :
  ∃ clusters out,
    euclideanCluster (coordinates <$> points)
      (insert_points kd_new 0 (coordinates <$> points)) clusterTolerance
    = Some clusters
    ∧ removeLidarOutlier points clusterTolerance = Some out
    ∧ (points = [] → out = [])
    ∧ (points ≠ [] →
         ∃ k c, first_largest clusters k c
                ∧ Forall2 (λ i p, points !! i = Some p) c out)
    ∧ (∀ p, p ∈ out → p ∈ points).
Proof.
  destruct (removeLidarOutlier_ok points clusterTolerance)
    as (clusters & out & Hcl & P & Hout & Hsel).
  exists clusters, out. split_and!; [done..| | |].
  - intros ->. destruct Hsel as [[_ ->]|(k & c & Hfl & _)]; [done|].
    pose proof (fl_at _ _ _ Hfl) as Hk.
    assert (c ≠ []).
    { eapply (proj1 (Forall_forall _ _) (part_nonempty _ _ P)).
      by eapply list_elem_of_lookup_2. }
    destruct c as [|i c]; [done|].
    assert (Hin : i ∈ concat clusters).
    { apply elem_of_concat. exists (i :: c). split; [by left|].
      by eapply list_elem_of_lookup_2. }
    rewrite (part_perm _ _ P) in Hin. by apply elem_of_nil in Hin.
  - intros Hne. destruct Hsel as [[-> _]|?]; [|done].
    destruct points as [|p points]; [done|].
    destruct (part_cover _ _ P 0%nat) as (k & c & Hk & _); [simpl; lia|done].
  - intros p Hp. destruct Hsel as [[_ ->]|(k & c & _ & Hpts)].
    + by apply elem_of_nil in Hp.
    + apply list_elem_of_lookup in Hp as [j Hj].
      destruct (Forall2_lookup_r _ _ _ _ _ Hpts Hj) as (i & _ & Hi).
      by eapply list_elem_of_lookup_2.
Qed.

(** The previous sweep, cleaned with the scanning index. *)
Lemma removeLidarOutlier_largest_cluster_witness :
  KdTreeSound ScanIndex.ops
  ∧ ∃ clusters out,
      euclideanCluster (coordinates <$> sweep_prev)
        (insert_points (K := ScanIndex.ops) kd_new 0 (coordinates <$> sweep_prev))
        clusterTolerance
      = Some clusters
      ∧ removeLidarOutlier (K := ScanIndex.ops) sweep_prev clusterTolerance = Some out
      ∧ (sweep_prev = [] → out = [])
      ∧ (sweep_prev ≠ [] →
           ∃ k c, first_largest clusters k c
                  ∧ Forall2 (λ i p, sweep_prev !! i = Some p) c out)
      ∧ (∀ p, p ∈ out → p ∈ sweep_prev).
Proof.
  pose proof ScanIndex_sound as Hsound.
  split.
  - done.
  - apply (removeLidarOutlier_largest_cluster (K := ScanIndex.ops)).
Defined.

(** C1 (as amended).  For every pair of lidar point lists and every frame
    rate, [computeTTCLidar] cleans each list with [removeLidarOutlier] at
    tolerance 0.1 (single precision), takes [minXPrev] and [minXCurr] as
    the least of the sentinel 1e9 and the [x] of the cleaned points whose
    [|y|] is at most 2.0 (the sentinel itself when no point qualifies,
    and the least [x] of the qualifying points when these are below the
    sentinel), and returns
    [minXCurr * (1 / frameRate) / (minXPrev - minXCurr)]; with
    [minXPrev = 10], [minXCurr = 8] and [frameRate = 10] the result is
    0.4. *)
Theorem computeTTCLidar_closing_rate `{KdTreeSound}
    (lidarPointsPrev lidarPointsCurr : list LidarPoint) (frameRate : float) :
  ∃ cleanedPrev cleanedCurr,
    removeLidarOutlier lidarPointsPrev (Cxx.to_float32 0.1) = Some cleanedPrev
    ∧ removeLidarOutlier lidarPointsCurr (Cxx.to_float32 0.1) = Some cleanedCurr
    ∧ let minXPrev := closest_in_lane cleanedPrev in
      let minXCurr := closest_in_lane cleanedCurr in
      closest_spec cleanedPrev minXPrev
      ∧ closest_spec cleanedCurr minXCurr
      ∧ ((∀ p, p ∈ cleanedPrev → in_lane p = false) → minXPrev = 1e9%float)
      ∧ ((∀ p, p ∈ cleanedCurr → in_lane p = false) → minXCurr = 1e9%float)
      ∧ ((∀ p, p ∈ cleanedPrev → in_lane p = true → (lp_x p <? 1e9)%float = true) →
         minXPrev = least_x_in_lane cleanedPrev)
      ∧ ((∀ p, p ∈ cleanedCurr → in_lane p = true → (lp_x p <? 1e9)%float = true) →
         minXCurr = least_x_in_lane cleanedCurr)
      ∧ computeTTCLidar lidarPointsPrev lidarPointsCurr frameRate
        = Some (minXCurr * (1 / frameRate) / (minXPrev - minXCurr))%float
      ∧ (minXPrev = 10%float → minXCurr = 8%float → frameRate = 10%float →
         computeTTCLidar lidarPointsPrev lidarPointsCurr frameRate = Some 0.4%float).
Proof.
  destruct (removeLidarOutlier_ok lidarPointsPrev clusterTolerance)
    as (? & cleanedPrev & _ & _ & Hprev & _).
  destruct (removeLidarOutlier_ok lidarPointsCurr clusterTolerance)
    as (? & cleanedCurr & _ & _ & Hcurr & _).
  exists cleanedPrev, cleanedCurr.
  assert (Httc : computeTTCLidar lidarPointsPrev lidarPointsCurr frameRate
                 = Some (closest_in_lane cleanedCurr * (1 / frameRate)
                         / (closest_in_lane cleanedPrev - closest_in_lane cleanedCurr))%float).
  { unfold computeTTCLidar. by rewrite Hprev, Hcurr. }
  split_and!; [done..|]. cbv zeta. split_and!.
  - apply closest_in_lane_spec.
  - apply closest_in_lane_spec.
  - apply closest_no_point, closest_in_lane_spec.
  - apply closest_no_point, closest_in_lane_spec.
  - apply closest_as_worded.
  - apply closest_as_worded.
  - done.
  - intros Hp Hc ->. rewrite Httc, Hp, Hc. reflexivity.
Qed.

(** The two sweeps: the closest returns in the lane are at 10 and at 8,
    and at ten frames per second the time to collision is 0.4. *)
Lemma computeTTCLidar_closing_rate_witness :
  KdTreeSound ScanIndex.ops
  ∧ computeTTCLidar (K := ScanIndex.ops) sweep_prev sweep_curr 10 = Some 0.4%float.
Proof.
  pose proof ScanIndex_sound as Hsound.
  split; [done|].
  destruct (computeTTCLidar_closing_rate (K := ScanIndex.ops) sweep_prev sweep_curr 10)
    as (cleanedPrev & cleanedCurr & Hprev & Hcurr & _ & _ & _ & _ & _ & _ & _ & Hex).
  assert (Ep : removeLidarOutlier (K := ScanIndex.ops) sweep_prev (Cxx.to_float32 0.1)
               = Some [lidar 10 0; lidar 10.05 0.05; lidar 10.02 (-0.04)]%float)
    by (vm_compute; reflexivity).
  assert (Ec : removeLidarOutlier (K := ScanIndex.ops) sweep_curr (Cxx.to_float32 0.1)
               = Some [lidar 8 0; lidar 8.05 0.05; lidar 8.02 (-0.04)]%float)
    by (vm_compute; reflexivity).
  rewrite Ep in Hprev. rewrite Ec in Hcurr.
  injection Hprev as <-. injection Hcurr as <-.
  apply Hex; vm_compute; reflexivity.
Defined.

(** C1, as the document words it, fails: a single return two million
    kilometres ahead is the minimum of its sweep, but the sentinel 1e9 is
    what enters the quotient. *)
Lemma computeTTCLidar_sentinel_caps_minimum :
  ∃ v w,
    computeTTCLidar (K := ScanIndex.ops) sweep_far sweep_near 10 = Some v
    ∧ computeTTCLidar_as_worded (K := ScanIndex.ops) sweep_far sweep_near 10 = Some w
    ∧ v ≠ w.
Proof.
  eexists _, _. split_and!.
  - vm_compute. reflexivity.
  - vm_compute. reflexivity.
  - intros E. symmetry in E. revert E. apply ltb_neq. vm_compute. reflexivity.
Qed.

(** C2 (as amended).  [computeTTCCamera] outputs [medianTTC] of the list
    of accepted ratios.  That output is NaN when the list is empty;
    otherwise the list is sorted (the sorted list is a rearrangement of
    the ratios, in increasing order when no ratio is NaN), the median is
    taken (the average of the two central values of an even count, the
    single central value of an odd count) and the output is
    [-(1 / frameRate) / (1 - medianRatio)], which is not NaN when the
    ratios are finite and [1 / frameRate] is finite and not zero.  For
    the ratios
    [0.9, 0.95, 1.0, 1.05] at ten frames per second the median is 0.975
    and the output is the double -3.9999999999999969: negative, and -4.0
    up to the rounding of binary64. *)
Theorem medianTTC_median_ratio (ratios : list float) (frameRate : float) :
  (∀ kptsPrev kptsCurr matches,
     distRatios kptsPrev kptsCurr matches = Some ratios →
     computeTTCCamera kptsPrev kptsCurr matches frameRate
     = Some (medianTTC ratios frameRate))
  ∧ medianTTC [] frameRate = nan
  ∧ (ratios ≠ [] →
       sort ratios ≡ₚ ratios
       ∧ (Forall (λ r, is_nan r = false) ratios → Sorted float_le (sort ratios))
       ∧ medianTTC ratios frameRate
         = (- (1 / frameRate) / (1 - median_of (sort ratios)))%float
       ∧ (Forall (λ r, Cxx.is_finite r = true) ratios →
          Cxx.is_finite_nonzero (1 / frameRate) = true →
          is_nan (medianTTC ratios frameRate) = false))
  ∧ (median_of (sort ratios_example) = 0.975%float
     ∧ medianTTC ratios_example 10 = (-3.9999999999999969)%float
     ∧ (medianTTC ratios_example 10 <? 0)%float = true
     ∧ (abs (medianTTC ratios_example 10 - (-4)) <? 1e-14)%float = true).
Proof.
  split_and!.
  - intros kptsPrev kptsCurr matches Hr. unfold computeTTCCamera. by rewrite Hr.
  - reflexivity.
  - intros Hne. split_and!.
    + apply sort_perm.
    + apply sort_sorted.
    + by apply medianTTC_nonempty.
    + by apply medianTTC_not_nan.
  - vm_compute. reflexivity.
  - vm_compute. reflexivity.
  - vm_compute. reflexivity.
  - vm_compute. reflexivity.
Qed.

(** The document's example: the list is not empty, no ratio is NaN, and
    the output is the quotient of the median. *)
Lemma medianTTC_median_ratio_witness :
  ratios_example ≠ []
  ∧ Forall (λ r, is_nan r = false) ratios_example
  ∧ Forall (λ r, Cxx.is_finite r = true) ratios_example
  ∧ Cxx.is_finite_nonzero (1 / 10) = true
  ∧ Sorted float_le (sort ratios_example)
  ∧ medianTTC ratios_example 10
    = (- (1 / 10) / (1 - median_of (sort ratios_example)))%float
  ∧ is_nan (medianTTC ratios_example 10) = false.
Proof.
  assert (Hne : ratios_example ≠ []) by done.
  assert (Hnan : Forall (λ r, is_nan r = false) ratios_example).
  { repeat constructor. }
  assert (Hfin : Forall (λ r, Cxx.is_finite r = true) ratios_example).
  { repeat (constructor; [vm_compute; reflexivity|]). constructor. }
  assert (HdT : Cxx.is_finite_nonzero (1 / 10) = true) by (vm_compute; reflexivity).
  destruct (medianTTC_median_ratio ratios_example 10) as (_ & _ & H & _).
  destruct (H Hne) as (_ & Hsorted & Httc & Hnum).
  split_and!; [done..|by apply Hsorted|done|by apply Hnum].
Defined.

(** C2, as the document words it, fails at its own example: in binary64
    the output is above -4.0. *)
Lemma medianTTC_example_not_minus_four :
  medianTTC ratios_example 10 ≠ (-4)%float.
Proof.
  intros E. symmetry in E. revert E. apply ltb_neq. vm_compute. reflexivity.
Qed.

(** C3 (the code departs from it).  The ratios [computeTTCCamera] collects
    are not one per unordered pair.  With four correspondences the inner
    loop meets the pair of the second and the third correspondence twice,
    once from each side: the code collects seven ratios where the six
    unordered pairs give six, the two lists are not rearrangements of one
    another, and the medians differ, so that the code outputs minus
    infinity where the six ratios give 0.8. *)
Theorem distRatios_counts_inner_pair_twice :
  distRatios line_prev line_curr line_matches
  = Some [1; 1; 1.25; 1; 1.3333333333333333; 1; 1.5]%float
  ∧ unordered_pair_ratios line_prev line_curr line_matches
    = Some [1; 1; 1.25; 1; 1.3333333333333333; 1.5]%float
  ∧ ¬ ([1; 1; 1.25; 1; 1.3333333333333333; 1; 1.5]%float
       ≡ₚ [1; 1; 1.25; 1; 1.3333333333333333; 1.5]%float)
  ∧ computeTTCCamera line_prev line_curr line_matches 10 = Some neg_infinity
  ∧ medianTTC [1; 1; 1.25; 1; 1.3333333333333333; 1.5]%float 10
    = 0.80000000000000004%float.
Proof.
  split_and!; try (vm_compute; reflexivity).
  intros Hp. apply Permutation_length in Hp. done.
Qed.

(** C4 (the code departs from it).  The second previous region of
    [frame_prev_orphan] receives no vote: its vote map is empty, [get_max]
    of the empty map dereferences [end()], and the call has no defined
    result; in particular it does not return the map that holds the first
    region's partner and no entry for the second. *)
Theorem matchBoundingBoxes_orphan_undefined :
  tally one_match frame_prev_orphan frame_curr (region 2 300 300 50 50) = Some []
  ∧ get_max [] = None
  ∧ matchBoundingBoxes one_match [] frame_prev_orphan frame_curr = None
  ∧ matchBoundingBoxes one_match [] frame_prev_orphan frame_curr ≠ Some [(1, 3)].
Proof. split_and!; done. Qed.

(** C5 (as amended).  When every correspondence refers to keypoints of
    the two frames, the previous regions have different ids and each of
    them has a vote, [matchBoundingBoxes] returns, and the map it returns
    gives every previous region the current region id with the highest
    vote count, a vote being a correspondence with its previous keypoint
    in the previous region and its current keypoint in a current region
    of that id; among the ids that share the highest count it gives the
    least id. *)
Theorem matchBoundingBoxes_best_partner
    (matches : list DMatch) (bbBestMatches : std_map) (prevFrame currFrame : DataFrame) :
  matches_in_range matches prevFrame currFrame →
  NoDup (boxID <$> boundingBoxes prevFrame) →
  (∀ prevBox, prevBox ∈ boundingBoxes prevFrame →
     ∃ id, 0 < votes matches prevFrame currFrame prevBox id) →
  ∃ out,
    matchBoundingBoxes matches bbBestMatches prevFrame currFrame = Some out
    ∧ ∀ prevBox, prevBox ∈ boundingBoxes prevFrame →
        ∃ id, map_find (boxID prevBox) out = Some id
              ∧ best_partner matches prevFrame currFrame prevBox id.
Proof.
  intros Hr Hnd Hv.
  destruct (matchBoundingBoxes_fold matches prevFrame currFrame
              (boundingBoxes prevFrame) bbBestMatches Hr Hnd Hv) as (out & Hout & Hin & _).
  by exists out.
Qed.

(** The two frames of the example: the region of the previous frame has
    one vote for each of the ids 5 and 3, and its partner is 3. *)
Lemma matchBoundingBoxes_best_partner_witness :
  matches_in_range one_match frame_prev frame_curr
  ∧ NoDup (boxID <$> boundingBoxes frame_prev)
  ∧ (∀ prevBox, prevBox ∈ boundingBoxes frame_prev →
       ∃ id, 0 < votes one_match frame_prev frame_curr prevBox id)
  ∧ ∃ out,
      matchBoundingBoxes one_match [] frame_prev frame_curr = Some out
      ∧ ∀ prevBox, prevBox ∈ boundingBoxes frame_prev →
          ∃ id, map_find (boxID prevBox) out = Some id
                ∧ best_partner one_match frame_prev frame_curr prevBox id.
Proof.
  assert (Hr : matches_in_range one_match frame_prev frame_curr).
  { repeat constructor; by eexists. }
  assert (Hnd : NoDup (boxID <$> boundingBoxes frame_prev)).
  { apply NoDup_singleton. }
  assert (Hv : ∀ prevBox, prevBox ∈ boundingBoxes frame_prev →
                 ∃ id, 0 < votes one_match frame_prev frame_curr prevBox id).
  { intros prevBox ->%list_elem_of_singleton. exists 3. vm_compute. reflexivity. }
  split_and!; [done..|].
  exact (matchBoundingBoxes_best_partner one_match [] frame_prev frame_curr Hr Hnd Hv).
Defined.

(** C5, as the document words it, fails: the current frame lists the
    region 5 before the region 3, both have one vote, and the map gives
    the previous region the partner 3. *)
Lemma matchBoundingBoxes_tie_not_frame_order :
  ∃ out id,
    matchBoundingBoxes one_match [] frame_prev frame_curr = Some out
    ∧ partner_in_frame_order one_match frame_prev frame_curr (region 1 0 0 100 100)
      = Some id
    ∧ map_find 1 out ≠ Some id.
Proof.
  exists [(1, 3)], 5. split_and!; [vm_compute; reflexivity..|done].
Qed.

(** C8.  Let [rects] be the rectangles of the regions, each shrunk
    symmetrically by [shrinkFactor]: width and height reduced to the
    fraction [1 - shrinkFactor], the corner moved inwards by half of the
    fraction [shrinkFactor] of the width and of the height.  For every
    region list for which these are defined and every lidar point list
    whose pixels, the quotients by the depth, are defined, the rectangles
    that [clusterLidarWithROI] tests the pixels against are [rects], and
    it returns the regions with their ids, rectangles
    and correspondences unchanged, and it appends to the points of the
    [i]-th region exactly the lidar points, in their order, whose pixel
    lies inside the [i]-th shrunk rectangle and inside exactly one shrunk
    rectangle; a point whose pixel lies inside no shrunk rectangle, or
    inside two or more, is appended to no region. *)
Theorem clusterLidarWithROI_exactly_one
    (boxes : list BoundingBox) (rects : list Rect) (points : list LidarPoint)
    (shrinkFactor : float) (P_rect_xx R_rect_xx RT : Mat) :
  Forall2 (λ b r, shrunk_rect shrinkFactor (roi b) = Some r) boxes rects →
  Forall (λ p, is_Some (project_by_depth P_rect_xx R_rect_xx RT p)) points →
  ∃ boxes',
    clusterLidarWithROI boxes points shrinkFactor P_rect_xx R_rect_xx RT = Some boxes'
    ∧ Forall2 (λ b r, smallerBox shrinkFactor (roi b) = Some r) boxes rects
    ∧ length boxes' = length boxes
    ∧ (∀ i b, boxes !! i = Some b →
         ∃ b', boxes' !! i = Some b'
               ∧ boxID b' = boxID b ∧ roi b' = roi b ∧ kptMatches b' = kptMatches b
               ∧ lidarPoints b'
                 = lidarPoints b
                   ++ filter (assigned_to P_rect_xx R_rect_xx RT rects i) points)
    ∧ (∀ i p, assigned_to P_rect_xx R_rect_xx RT rects i p
              ↔ ∃ q, project_by_depth P_rect_xx R_rect_xx RT p = Some q
                     ∧ inside rects q i = true ∧ enclosers rects q = 1%nat)
    ∧ (∀ p q, project_by_depth P_rect_xx R_rect_xx RT p = Some q →
              enclosers rects q ≠ 1%nat →
              ∀ i, ¬ assigned_to P_rect_xx R_rect_xx RT rects i p).
Proof.
  intros Hs Hp.
  assert (Hiff : ∀ i p, assigned_to P_rect_xx R_rect_xx RT rects i p
                        ↔ ∃ q, project_by_depth P_rect_xx R_rect_xx RT p = Some q
                               ∧ inside rects q i = true ∧ enclosers rects q = 1%nat).
  { intros i p. unfold assigned_to, only_inside.
    destruct (project_by_depth P_rect_xx R_rect_xx RT p) as [q|].
    - rewrite andb_true_iff, Nat.eqb_eq. split; [intros [? ?]; by exists q|].
      intros (q' & [= <-] & ? & ?). done.
    - split; [done|]. intros (q' & ? & _). done. }
  eexists. split_and!.
  - apply clusterLidarWithROI_spec; [done|].
    eapply Forall_impl; [exact Hp|]. intros p. by rewrite project_eq.
  - eapply Forall2_impl; [exact Hs|]. intros b r Hr. by rewrite smallerBox_eq.
  - apply length_imap.
  - intros i b Hb. eexists. rewrite list_lookup_imap, Hb. simpl.
    split_and!; reflexivity.
  - done.
  - intros p q Hq Hne i (q' & Hq' & _ & Hone)%Hiff. congruence.
Qed.

(** Three regions that are not squares, two of them overlapping, and four
    lidar points: the first and the third point are appended to the first
    and the third region, the point in the overlap and the point outside
    every rectangle to none. *)
Lemma clusterLidarWithROI_exactly_one_witness :
  Forall2 (λ b r, shrunk_rect (Cxx.to_float32 0.1) (roi b) = Some r) uneven uneven_shrunk
  ∧ Forall (λ p, is_Some (project_by_depth pinhole identity4 identity4 p)) uneven_cloud
  ∧ ∃ boxes',
      clusterLidarWithROI uneven uneven_cloud (Cxx.to_float32 0.1)
        pinhole identity4 identity4 = Some boxes'
      ∧ length boxes' = length uneven
      ∧ (∀ i b, uneven !! i = Some b →
           ∃ b', boxes' !! i = Some b'
                 ∧ boxID b' = boxID b ∧ roi b' = roi b ∧ kptMatches b' = kptMatches b
                 ∧ lidarPoints b'
                   = lidarPoints b
                     ++ filter (assigned_to pinhole identity4 identity4
                                  uneven_shrunk i) uneven_cloud)
      ∧ lidarPoints <$> boxes'
        = [ [ {| lp_x := 10; lp_y := 10; lp_z := 1; lp_r := 0.1 |} ]; [];
            [ {| lp_x := 160; lp_y := 10; lp_z := 1; lp_r := 0.3 |} ] ]%float.
Proof.
  assert (Hs : Forall2 (λ b r, shrunk_rect (Cxx.to_float32 0.1) (roi b) = Some r)
                 uneven uneven_shrunk).
  { repeat (constructor; [vm_compute; reflexivity|]). constructor. }
  assert (Hp : Forall (λ p, is_Some (project_by_depth pinhole identity4 identity4 p))
                 uneven_cloud).
  { repeat (constructor; [vm_compute; by eexists|]). constructor. }
  assert (Hrun : lidarPoints <$> default [] (clusterLidarWithROI uneven uneven_cloud
                   (Cxx.to_float32 0.1) pinhole identity4 identity4)
                 = [ [ {| lp_x := 10; lp_y := 10; lp_z := 1; lp_r := 0.1 |} ]; [];
                     [ {| lp_x := 160; lp_y := 10; lp_z := 1; lp_r := 0.3 |} ] ]%float).
  { vm_compute. reflexivity. }
  split; [exact Hs|]. split; [exact Hp|].
  destruct (clusterLidarWithROI_exactly_one uneven uneven_shrunk uneven_cloud
              (Cxx.to_float32 0.1) pinhole identity4 identity4 Hs Hp)
    as (boxes' & Hbox & _ & Hlen & Happ & _).
  exists boxes'. rewrite Hbox in Hrun.
  split; [exact Hbox|]. split; [exact Hlen|]. split; [exact Happ|]. exact Hrun.
Defined.

(** C9.  For every lidar point and every three matrices,
    [clusterLidarWithROI] computes the pixel as the document says: it
    forms the vector [(x, y, z, 1)], multiplies it by the product of the
    projection, rectification and extrinsic matrices, and divides the
    first two components of the result by its third component; the element
    the source addresses as [(0, 2)] of the column vector is that third
    component.  A point at depth 2 in front of a pinhole camera of focal
    length 2 lands on the pixel of its own coordinates. *)
Theorem project_divides_by_depth (P_rect_xx R_rect_xx RT : Mat) (p : LidarPoint) :
  project P_rect_xx R_rect_xx RT p = project_by_depth P_rect_xx R_rect_xx RT p
  ∧ project pinhole identity4 identity4 at_depth_two
    = Some {| pt_x := 4; pt_y := 6 |}.
Proof. split; [apply project_eq|vm_compute; reflexivity]. Qed.

(** C10 (the code departs from it).  On the keypoints of the line the
    region holds the four correspondences after the first loop; the
    displacement of the fourth, 100 pixels, is at least 1.5 times the mean
    of 25 pixels, so that the document has it removed and the three
    others kept.  The code calls [erase(it)] for it, drops the iterator
    that [erase] returns and goes on with [it], which the erasure has
    invalidated: the removal pass, which leaves the three others alone,
    has no defined result on the four, and neither has the call; in
    particular it does not return the region with the three
    correspondences. *)
Theorem clusterKptMatchesWithROI_erase_invalidates :
  kptMatches strip = []
  ∧ filter (current_inside (roi strip) line_curr) line_matches = line_matches
  ∧ mean_displacement line_prev line_curr line_matches = 25%float
  ∧ displacement line_prev line_curr {| queryIdx := 3; trainIdx := 3 |} = 100%float
  ∧ kept_as_worded (roi strip) line_prev line_curr line_matches = take 3 line_matches
  ∧ erase_loop line_prev line_curr 25 (take 3 line_matches) = Some (take 3 line_matches)
  ∧ erase_loop line_prev line_curr 25 line_matches = None
  ∧ clusterKptMatchesWithROI strip line_prev line_curr line_matches = None
  ∧ clusterKptMatchesWithROI strip line_prev line_curr line_matches
    ≠ Some {| boxID := boxID strip; roi := roi strip; lidarPoints := lidarPoints strip;
              kptMatches := kept_as_worded (roi strip) line_prev line_curr line_matches |}.
Proof. split_and!; try (vm_compute; reflexivity). vm_compute. done. Qed.

(** * Further properties of the code *)

(** ** clusterLidarWithROI *)

(** X1.  [clusterLidarWithROI] has a result exactly when every lidar
    point has a pixel (the matrix products are defined and the two
    quotients fit an [int]) and, unless there is no lidar point at all,
    every region has a shrunk rectangle with [int] fields. *)
Theorem clusterLidarWithROI_defined
    (boxes : list BoundingBox) (points : list LidarPoint)
    (shrinkFactor : float) (P_rect_xx R_rect_xx RT : Mat) :
  is_Some (clusterLidarWithROI boxes points shrinkFactor P_rect_xx R_rect_xx RT)
  ↔ Forall (λ p, is_Some (project P_rect_xx R_rect_xx RT p)) points
    ∧ (points = [] ∨ Forall (λ b, is_Some (smallerBox shrinkFactor (roi b))) boxes).
Proof.
  split; [apply clusterLidarWithROI_Some_inv|].
  intros [Hp [->|Hb]]; [by eexists|].
  destruct (shrunk_exists shrinkFactor boxes Hb) as [rects Hs].
  rewrite (clusterLidarWithROI_spec _ _ _ _ rects) by done. by eexists.
Qed.

(** X2.  A lidar point whose image vector has depth zero (of either
    sign) has no pixel: the quotients by the depth are infinite or NaN and
    their conversion to [int] is undefined.  One such point anywhere in
    the list leaves [clusterLidarWithROI] without a result, whatever the
    regions and the shrink factor are. *)
Theorem clusterLidarWithROI_zero_depth
    (P_rect_xx R_rect_xx RT : Mat) (p : LidarPoint) (d : float) :
  depth P_rect_xx R_rect_xx RT p = Some d → (d =? 0)%float = true →
  project P_rect_xx R_rect_xx RT p = None
  ∧ ∀ boxes points shrinkFactor,
      p ∈ points →
      clusterLidarWithROI boxes points shrinkFactor P_rect_xx R_rect_xx RT = None.
Proof.
  intros Hd Hz.
  pose proof (project_zero_depth _ _ _ _ _ Hd Hz) as Hp.
  split; [done|]. intros boxes points shrinkFactor Hin.
  unfold clusterLidarWithROI. eapply foldlM_fail; [|done].
  intros boxes'. unfold assignLidarPoint. by rewrite Hp.
Qed.

(** A point in the focal plane of the pinhole camera, among the points of
    the cloud. *)
Lemma clusterLidarWithROI_zero_depth_witness :
  depth pinhole identity4 identity4 at_depth_zero = Some 0%float
  ∧ (0 =? 0)%float = true
  ∧ project pinhole identity4 identity4 at_depth_zero = None
  ∧ clusterLidarWithROI overlapping (cloud ++ [at_depth_zero]) (Cxx.to_float32 0.1)
      pinhole identity4 identity4 = None.
Proof.
  assert (Hd : depth pinhole identity4 identity4 at_depth_zero = Some 0%float)
    by (vm_compute; reflexivity).
  destruct (clusterLidarWithROI_zero_depth pinhole identity4 identity4 at_depth_zero 0
              Hd eq_refl) as [Hp Hall].
  split_and!; [done..|]. apply Hall. apply elem_of_app. right. by left.
Defined.

(** ** show3DObjects *)

(** X3.  Whenever [show3DObjects] returns, what it has drawn is, for
    every region in turn, one filled circle of radius 4 per lidar point
    of the region, then a rectangle, then two texts in the colour of the
    region (the id and the number of lidar points of the region, and two
    distances, placed 250 pixels to the left of the rectangle and 50 and
    125 pixels below it), and after the regions one horizontal line per
    distance marker.  The rectangle of a
    region reaches the centre of every circle of the region; since its
    bounds start from 1e8 (left, top) and 0 (right, bottom), it also
    reaches from there, and for a region without lidar points it is the
    rectangle from (1e8, 1e8) to (0, 0).  The function waits for a key
    exactly when [bWait] is set. *)
Theorem show3DObjects_drawing (currColor : Z → Scalar)
    (boundingBoxes : list BoundingBox) (worldSize imageSize : Size) (bWait : bool)
    (shown : Shown) :
  show3DObjects currColor boundingBoxes worldSize imageSize bWait = Some shown →
  ∃ per_box markers,
    drawn shown = concat per_box ++ markers
    ∧ Forall2 (λ it1 drawing, box_drawing it1 (currColor (boxID it1)) drawing)
        boundingBoxes per_box
    ∧ Forall (λ d, ∃ y, d = draw_line {| pt_x := 0; pt_y := y |}
                            {| pt_x := size_width imageSize; pt_y := y |}
                            {| channel0 := 255; channel1 := 0; channel2 := 0 |}) markers
    ∧ waits_for_key shown = bWait.
Proof.
  unfold show3DObjects. intros H.
  destruct (foldlM _ [] boundingBoxes) as [objects|] eqn:E; [|done].
  cbn [mbind option_bind] in H.
  destruct (nMarkers worldSize) as [n|]; [|done]. cbn [mbind option_bind] in H.
  destruct (mapM _ _) as [markers|] eqn:Em; [|done].
  cbn [mbind option_bind] in H. injection H as <-.
  destruct (show_boxes_spec _ _ _ _ _ _ E) as (per_box & -> & Hall).
  exists per_box, markers. split_and!; [done..| |done].
  by destruct (markers_spec _ _ _ _ Em).
Qed.

(** A region with the dense sweep and a region without points, in a
    world of 20 m by 10 m. *)
Lemma show3DObjects_drawing_witness :
  ∃ shown,
    show3DObjects grey [target; region 4 0 0 1 1] world image true = Some shown
    ∧ ∃ per_box markers,
        drawn shown = concat per_box ++ markers
        ∧ Forall2 (λ it1 drawing, box_drawing it1 (grey (boxID it1)) drawing)
            [target; region 4 0 0 1 1] per_box
        ∧ length markers = 10%nat
        ∧ waits_for_key shown = true.
Proof.
  eexists. split; [vm_compute; reflexivity|].
  match goal with
  | |- ∃ per_box markers, drawn ?s = _ ∧ _ =>
      destruct (show3DObjects_drawing grey [target; region 4 0 0 1 1] world image true s)
        as (per_box & markers & Hd & Hall & Hm & Hw); [vm_compute; reflexivity|]
  end.
  exists per_box, markers. split_and!; [done..| |done].
  apply (f_equal length) in Hd. rewrite length_app in Hd.
  assert (Hlen : length (concat per_box) = 9%nat).
  { apply Forall2_cons_inv_l in Hall as (d1 & rest & H1 & Hall & ->).
    apply Forall2_cons_inv_l in Hall as (d2 & rest' & H2 & Hall & ->).
    apply Forall2_nil_inv_l in Hall as ->.
    destruct H1 as (c1 & ? & ? & ? & ? & ? & ? & -> & Hl1 & _).
    destruct H2 as (c2 & ? & ? & ? & ? & ? & ? & -> & Hl2 & _).
    simpl. rewrite !length_app, !length_fmap, Hl1, Hl2. done. }
  rewrite Hlen in Hd. simpl in Hd. lia.
Defined.

(** X4.  When the world size has height zero or width zero and some
    region holds a lidar point, [show3DObjects] has no result: the
    top-view coordinate of the point is a quotient by zero, infinite or
    NaN, and its conversion to [int] is undefined. *)
Theorem show3DObjects_flat_world (currColor : Z → Scalar)
    (boundingBoxes : list BoundingBox) (worldSize imageSize : Size) (bWait : bool) :
  size_height worldSize = 0 ∨ size_width worldSize = 0 →
  (∃ it1, it1 ∈ boundingBoxes ∧ lidarPoints it1 ≠ []) →
  show3DObjects currColor boundingBoxes worldSize imageSize bWait = None.
Proof.
  intros Hflat (it1 & Hin & Hne). unfold show3DObjects.
  rewrite (foldlM_fail _ it1); [done| |done].
  intros img. unfold show_box.
  destruct (lidarPoints it1) as [|p points]; [done|].
  rewrite (foldlM_fail _ p); [done| |by left].
  intros st. by apply plot_point_flat.
Qed.

Lemma show3DObjects_flat_world_witness :
  (size_height flat_world = 0 ∨ size_width flat_world = 0)
  ∧ (∃ it1, it1 ∈ [target] ∧ lidarPoints it1 ≠ [])
  ∧ show3DObjects grey [target] flat_world image false = None.
Proof.
  assert (Hflat : size_height flat_world = 0 ∨ size_width flat_world = 0) by (by left).
  assert (Hbox : ∃ it1, it1 ∈ [target] ∧ lidarPoints it1 ≠ []).
  { exists target. split; [by left|done]. }
  split_and!; [done..|].
  exact (show3DObjects_flat_world grey [target] flat_world image false Hflat Hbox).
Defined.

(** X5.  For a region without lidar points, whatever the sizes are,
    [show3DObjects] draws the rectangle from (1e8, 1e8) to (0, 0) and the
    labels with the count 0, the minimum 1e8 and the width -2e8, the
    starting values of the running bounds; the labels are placed at
    x = 99999752, the [float] nearest to 1e8 - 250. *)
Theorem show_box_empty (worldSize imageSize : Size) (currColor : Scalar)
    (it1 : BoundingBox) :
  lidarPoints it1 = [] →
  show_box worldSize imageSize currColor it1
  = Some [ draw_rectangle {| pt_x := 100000000; pt_y := 100000000 |}
             {| pt_x := 0; pt_y := 0 |}
             {| channel0 := 0; channel1 := 0; channel2 := 0 |} 2;
           draw_putText (label_count (boxID it1) 0)
             {| pt_x := 99999752; pt_y := 50 |} 2 currColor;
           draw_putText (label_extent 1e8 (-2e8))
             {| pt_x := 99999752; pt_y := 125 |} 2 currColor ].
Proof.
  intros Hnil. unfold show_box. rewrite Hnil. vm_compute. reflexivity.
Qed.

Lemma show_box_empty_witness :
  lidarPoints (region 4 0 0 1 1) = []
  ∧ show_box world image (grey 4) (region 4 0 0 1 1)
    = Some [ draw_rectangle {| pt_x := 100000000; pt_y := 100000000 |}
               {| pt_x := 0; pt_y := 0 |}
               {| channel0 := 0; channel1 := 0; channel2 := 0 |} 2;
             draw_putText (label_count 4 0)
               {| pt_x := 99999752; pt_y := 50 |} 2 (grey 4);
             draw_putText (label_extent 1e8 (-2e8))
               {| pt_x := 99999752; pt_y := 125 |} 2 (grey 4) ].
Proof.
  split; [done|].
  exact (show_box_empty world image (grey 4) (region 4 0 0 1 1) eq_refl).
Defined.

(** ** clusterKptMatchesWithROI *)

(** X6.  Whenever [clusterKptMatchesWithROI] returns, the region holds
    the correspondences it held on entry, which are neither dropped nor
    tested against the rectangle, followed by the given correspondences
    whose current keypoint lies in its rectangle, in their order: the
    list of the region is extended, not reset.  Its id, rectangle and
    lidar points are unchanged, and none of its correspondences has a
    displacement of at least 1.5 times the mean displacement of the
    list. *)
Theorem clusterKptMatchesWithROI_appends
    (boundingBox box' : BoundingBox) (kptsPrev kptsCurr : list KeyPoint)
    (matches : list DMatch) :
  clusterKptMatchesWithROI boundingBox kptsPrev kptsCurr matches = Some box' →
  boxID box' = boxID boundingBox ∧ roi box' = roi boundingBox
  ∧ lidarPoints box' = lidarPoints boundingBox
  ∧ kptMatches box'
    = kptMatches boundingBox
      ++ filter (current_inside (roi boundingBox) kptsCurr) matches
  ∧ ∀ m, m ∈ kptMatches box' →
         ¬ outlier kptsPrev kptsCurr
             (mean_displacement kptsPrev kptsCurr (kptMatches box')) m.
Proof.
  intros (_ & _ & Hno & ->)%clusterKptMatchesWithROI_Some. simpl.
  split_and!; done.
Qed.

(** The keypoints of the line all moved by 10 pixels, and the region
    that already holds the fourth correspondence: it holds it twice
    afterwards. *)
Lemma clusterKptMatchesWithROI_appends_witness :
  ∃ box',
    clusterKptMatchesWithROI strip_filled line_prev shifted_curr line_matches = Some box'
    ∧ kptMatches box' = {| queryIdx := 3; trainIdx := 3 |} :: line_matches.
Proof.
  assert (H : clusterKptMatchesWithROI strip_filled line_prev shifted_curr line_matches
              = Some {| boxID := 7; roi := roi strip_filled; lidarPoints := [];
                        kptMatches := {| queryIdx := 3; trainIdx := 3 |} :: line_matches |})
    by (vm_compute; reflexivity).
  eexists. split; [exact H|].
  destruct (clusterKptMatchesWithROI_appends _ _ _ _ _ H) as (_ & _ & _ & Hk & _).
  exact Hk.
Defined.

(** X7.  [clusterKptMatchesWithROI] has a result exactly when every
    correspondence has a current keypoint (the first loop reads it
    unchecked), every correspondence the region holds after the first
    loop (the ones held on entry and the new ones in the rectangle) has
    both keypoints (the later loops fetch them with [at]), and none of
    these has a displacement of at least 1.5 times their mean
    displacement: the first one that has is erased, and the loop goes on
    with the iterator that the erasure invalidated.  The previous keypoint
    of a correspondence outside the rectangle is never fetched. *)
Theorem clusterKptMatchesWithROI_defined
    (boundingBox : BoundingBox) (kptsPrev kptsCurr : list KeyPoint)
    (matches : list DMatch) :
  is_Some (clusterKptMatchesWithROI boundingBox kptsPrev kptsCurr matches)
  ↔ train_in_range kptsCurr matches
    ∧ indices_in_range kptsPrev kptsCurr
        (kptMatches boundingBox
         ++ filter (current_inside (roi boundingBox) kptsCurr) matches)
    ∧ ∀ m, m ∈ kptMatches boundingBox
               ++ filter (current_inside (roi boundingBox) kptsCurr) matches →
           ¬ outlier kptsPrev kptsCurr
               (mean_displacement kptsPrev kptsCurr
                  (kptMatches boundingBox
                   ++ filter (current_inside (roi boundingBox) kptsCurr) matches)) m.
Proof.
  split.
  - intros [box' (Ht & Hr & Hno & _)%clusterKptMatchesWithROI_Some]. done.
  - intros (Ht & Hr & Hno). eexists. apply clusterKptMatchesWithROI_Some. done.
Qed.

(** X8.  When none of the correspondences a region holds after the
    first loop has moved (the two keypoints of each are the same finite
    location) and there is at least one, the mean displacement is zero
    and the displacement of the first one, zero, is at least 1.5 times
    the mean: it is erased, the loop goes on with the invalidated
    iterator, and [clusterKptMatchesWithROI] has no defined result. *)
Theorem clusterKptMatchesWithROI_stationary
    (boundingBox : BoundingBox) (kptsPrev kptsCurr : list KeyPoint)
    (matches : list DMatch) :
  train_in_range kptsCurr matches →
  (∀ m, m ∈ kptMatches boundingBox
            ++ filter (current_inside (roi boundingBox) kptsCurr) matches →
        unmoved kptsPrev kptsCurr m) →
  kptMatches boundingBox
  ++ filter (current_inside (roi boundingBox) kptsCurr) matches ≠ [] →
  clusterKptMatchesWithROI boundingBox kptsPrev kptsCurr matches = None.
Proof.
  intros Ht Hun Hne.
  destruct (clusterKptMatchesWithROI boundingBox kptsPrev kptsCurr matches)
    as [box'|] eqn:E; [|done].
  apply clusterKptMatchesWithROI_Some in E as (_ & _ & Hno & _).
  set (held := kptMatches boundingBox
               ++ filter (current_inside (roi boundingBox) kptsCurr) matches) in *.
  assert (Hd : ∀ m, m ∈ held → displacement kptsPrev kptsCurr m = 0%float).
  { intros m Hm. by apply unmoved_displacement, Hun. }
  rewrite mean_unmoved in Hno by done.
  destruct held as [|m held]; [done|].
  destruct (Hno m); [by left|].
  unfold outlier. rewrite (Hd m) by (by left). reflexivity.
Qed.

(** The first three keypoints of the line do not move. *)
Lemma clusterKptMatchesWithROI_stationary_witness :
  train_in_range line_curr (take 3 line_matches)
  ∧ (∀ m, m ∈ kptMatches strip
              ++ filter (current_inside (roi strip) line_curr) (take 3 line_matches) →
          unmoved line_prev line_curr m)
  ∧ kptMatches strip
    ++ filter (current_inside (roi strip) line_curr) (take 3 line_matches) ≠ []
  ∧ clusterKptMatchesWithROI strip line_prev line_curr (take 3 line_matches) = None.
Proof.
  assert (Ht : train_in_range line_curr (take 3 line_matches)).
  { repeat (constructor; [by eexists|]). constructor. }
  assert (Hun : ∀ m, m ∈ kptMatches strip
              ++ filter (current_inside (roi strip) line_curr) (take 3 line_matches) →
          unmoved line_prev line_curr m).
  { intros m [Hm|[_ Hm]%list_elem_of_filter]%elem_of_app.
    - by apply elem_of_nil in Hm.
    - simpl in Hm.
      repeat (apply elem_of_cons in Hm as [->|Hm]); try (by apply elem_of_nil in Hm);
        (eexists; split_and!; [reflexivity..| |]; vm_compute; reflexivity). }
  assert (Hne : kptMatches strip
    ++ filter (current_inside (roi strip) line_curr) (take 3 line_matches) ≠ []).
  { vm_compute. done. }
  split_and!; [done..|].
  exact (clusterKptMatchesWithROI_stationary strip line_prev line_curr
           (take 3 line_matches) Ht Hun Hne).
Defined.

(** ** computeTTCCamera *)

(** X9.  [computeTTCCamera] has a result exactly when there is a single
    correspondence (no pair is formed and no keypoint is fetched), or
    there are at least two and every one of them refers to a keypoint of
    each list: with an empty list the outer loop starts beyond its end,
    and with two or more correspondences a single index out of range
    makes [at] throw, wherever it stands in the list. *)
Theorem computeTTCCamera_defined
    (kptsPrev kptsCurr : list KeyPoint) (matches : list DMatch) (frameRate : float) :
  is_Some (computeTTCCamera kptsPrev kptsCurr matches frameRate)
  ↔ length matches = 1%nat
    ∨ ((2 ≤ length matches)%nat ∧ indices_in_range kptsPrev kptsCurr matches).
Proof.
  unfold computeTTCCamera.
  destruct matches as [|m0 [|m1 rest]].
  - simpl. split; [by intros [? ?]|]. intros [?|[? _]]; [done|lia].
  - simpl. split; [auto|]. intros _. by eexists.
  - set (inner := m1 :: rest).
    assert (Hlast : removelast (m0 :: inner) = m0 :: removelast inner) by done.
    split.
    + intros [ttc Httc]. right. split; [simpl; lia|].
      destruct (distRatios kptsPrev kptsCurr (m0 :: inner)) as [ratios|] eqn:E;
        [|done].
      unfold distRatios in E. rewrite Hlast in E. cbn [foldlM] in E.
      destruct (Cxx.at_ kptsCurr (trainIdx m0)) as [kc|] eqn:Hkc; [|done].
      destruct (Cxx.at_ kptsPrev (queryIdx m0)) as [kp|] eqn:Hkp; [|done].
      cbn [mbind option_bind] in E.
      destruct (foldlM (ratio_step kptsPrev kptsCurr kc kp) [] inner) as [acc|] eqn:Ei;
        [|done].
      constructor.
      * rewrite Hkc, Hkp. split; by eexists.
      * eapply ratio_loop_in_range. rewrite Ei. by eexists.
    + intros [Hlen|[_ Hr]]; [simpl in Hlen; lia|].
      assert (Hi : indices_in_range kptsPrev kptsCurr inner).
      { by apply Forall_cons in Hr as [_ ?]. }
      destruct (outer_loop_defined kptsPrev kptsCurr inner (removelast (m0 :: inner)) [])
        as [ratios Hratios]; [by apply removelast_in_range|done|].
      unfold distRatios. rewrite Hratios. by eexists.
Qed.

(** X10.  When every correspondence refers to keypoints, the ratios that
    [computeTTCCamera] collects are those of the pairs of an outer
    correspondence, taken from all but the last, and an inner
    correspondence, taken from all but the first, in the order of the two
    loops; the pair of a correspondence with itself, which the loops do
    visit, never contributes, its [distCurr] being zero or NaN; and from
    [n] correspondences at most [(n-1) * (n-1)] ratios are collected. *)
Theorem distRatios_pairs
    (kptsPrev kptsCurr : list KeyPoint) (matches : list DMatch) :
  matches ≠ [] →
  indices_in_range kptsPrev kptsCurr matches →
  ∃ ratios,
    distRatios kptsPrev kptsCurr matches = Some ratios
    ∧ ratios = (a ← removelast matches; b ← tail matches;
                pair_ratio kptsPrev kptsCurr a b)
    ∧ (∀ a, pair_ratio kptsPrev kptsCurr a a = [])
    ∧ (length ratios ≤ (length matches - 1) * (length matches - 1))%nat.
Proof.
  intros Hne Hr. eexists. split_and!; [|done| |].
  - destruct matches as [|m0 inner]; [done|]. unfold distRatios.
    rewrite outer_loop_pairs; [done|by apply removelast_in_range|].
    by apply Forall_cons in Hr as [_ ?].
  - intros a. unfold pair_ratio.
    destruct (Cxx.at_ kptsCurr (trainIdx a)) as [kc|]; [|done].
    destruct (Cxx.at_ kptsPrev (queryIdx a)) as [kp|]; [|done].
    by rewrite norm_self, andb_false_r.
  - etrans.
    + apply (length_bind_le _ (length matches - 1)).
      intros a. etrans; [apply (length_bind_le _ 1), pair_ratio_length|].
      destruct matches; [done|]. simpl. lia.
    + rewrite removelast_firstn_len, length_take. destruct matches; simpl; lia.
Qed.

(** The four keypoints of the line: seven ratios from nine pairs. *)
Lemma distRatios_pairs_witness :
  line_matches ≠ []
  ∧ indices_in_range line_prev line_curr line_matches
  ∧ ∃ ratios,
      distRatios line_prev line_curr line_matches = Some ratios
      ∧ ratios = (a ← removelast line_matches; b ← tail line_matches;
                  pair_ratio line_prev line_curr a b)
      ∧ (∀ a, pair_ratio line_prev line_curr a a = [])
      ∧ (length ratios ≤ (length line_matches - 1) * (length line_matches - 1))%nat.
Proof.
  assert (Hne : line_matches ≠ []) by done.
  assert (Hr : indices_in_range line_prev line_curr line_matches).
  { repeat (constructor; [split; by eexists|]). constructor. }
  split_and!; [done..|].
  exact (distRatios_pairs line_prev line_curr line_matches Hne Hr).
Defined.

(** X11.  When every correspondence refers to keypoints and no two
    current keypoints of the correspondences are at least 100 pixels
    apart, no ratio is accepted and [computeTTCCamera] returns NaN,
    whatever the previous keypoints and the frame rate are. *)
Theorem computeTTCCamera_small_object
    (kptsPrev kptsCurr : list KeyPoint) (matches : list DMatch) (frameRate : float) :
  matches ≠ [] →
  indices_in_range kptsPrev kptsCurr matches →
  (∀ a b, a ∈ matches → b ∈ matches →
     (100 <=? current_distance kptsCurr a b)%float = false) →
  distRatios kptsPrev kptsCurr matches = Some []
  ∧ computeTTCCamera kptsPrev kptsCurr matches frameRate = Some nan.
Proof.
  intros Hne Hr Hsmall.
  assert (Hd : distRatios kptsPrev kptsCurr matches = Some []).
  { destruct matches as [|m0 inner]; [done|]. unfold distRatios.
    apply outer_loop_small.
    - by apply removelast_in_range.
    - by apply Forall_cons in Hr as [_ ?].
    - intros a b Ha Hb. apply Hsmall.
      + by apply elem_of_removelast.
      + by right. }
  split; [done|]. unfold computeTTCCamera. by rewrite Hd.
Qed.

(** Three keypoints on an object less than 100 pixels across. *)
Lemma computeTTCCamera_small_object_witness :
  take 3 line_matches ≠ []
  ∧ indices_in_range near_prev near_curr (take 3 line_matches)
  ∧ (∀ a b, a ∈ take 3 line_matches → b ∈ take 3 line_matches →
       (100 <=? current_distance near_curr a b)%float = false)
  ∧ distRatios near_prev near_curr (take 3 line_matches) = Some []
  ∧ computeTTCCamera near_prev near_curr (take 3 line_matches) 10 = Some nan.
Proof.
  assert (Hne : take 3 line_matches ≠ []) by done.
  assert (Hr : indices_in_range near_prev near_curr (take 3 line_matches)).
  { repeat (constructor; [split; by eexists|]). constructor. }
  assert (Hsmall : ∀ a b, a ∈ take 3 line_matches → b ∈ take 3 line_matches →
       (100 <=? current_distance near_curr a b)%float = false).
  { intros a b Ha Hb. simpl in Ha, Hb.
    repeat (apply elem_of_cons in Ha as [->|Ha]);
      repeat (apply elem_of_cons in Hb as [->|Hb]);
      try (by apply elem_of_nil in Ha); try (by apply elem_of_nil in Hb);
      vm_compute; reflexivity. }
  do 3 (split; [done|]).
  exact (computeTTCCamera_small_object near_prev near_curr (take 3 line_matches) 10
           Hne Hr Hsmall).
Defined.

(** X12.  For positive ratios the sorted list is determined by the ratios
    as a multiset: every rearrangement of the ratios into increasing
    order is the list [sort] yields, whatever the algorithm of
    [std::sort] does, and so the result of [computeTTCCamera] does not
    depend on the order in which the two loops collected the ratios. *)
Theorem medianTTC_order_independent (ratios ratios' : list float) (frameRate : float) :
  Forall (λ r, (0 <? r)%float = true) ratios →
  ratios' ≡ₚ ratios →
  (∀ sorted, sorted ≡ₚ ratios → Sorted float_le sorted → sorted = sort ratios)
  ∧ sort ratios' = sort ratios
  ∧ medianTTC ratios' frameRate = medianTTC ratios frameRate.
Proof.
  intros Hpos Hperm.
  assert (Hsort : sort ratios' = sort ratios).
  { apply sort_unique; [done|by rewrite sort_perm|].
    apply sort_sorted. rewrite Hperm.
    eapply Forall_impl; [done|]. apply positive_not_nan. }
  split_and!; [intros sorted; by apply sort_unique|done|].
  destruct ratios as [|r ratios].
  - apply Permutation_nil_r in Hperm. by rewrite Hperm.
  - assert (Hne : ratios' ≠ []).
    { intros ->. by apply Permutation_nil_cons in Hperm. }
    rewrite !medianTTC_nonempty by done. by rewrite Hsort.
Qed.

(** The ratios of the example, collected in the opposite order. *)
Lemma medianTTC_order_independent_witness :
  Forall (λ r, (0 <? r)%float = true) ratios_example
  ∧ reverse ratios_example ≡ₚ ratios_example
  ∧ sort (reverse ratios_example) = sort ratios_example
  ∧ medianTTC (reverse ratios_example) 10 = medianTTC ratios_example 10.
Proof.
  assert (Hpos : Forall (λ r, (0 <? r)%float = true) ratios_example).
  { repeat (constructor; [vm_compute; reflexivity|]). constructor. }
  assert (Hperm : reverse ratios_example ≡ₚ ratios_example) by apply reverse_Permutation.
  do 2 (split; [done|]).
  exact (proj2 (medianTTC_order_independent ratios_example (reverse ratios_example) 10
                  Hpos Hperm)).
Defined.

(** X13.  For every non-empty list of accepted ratios and every positive
    frame rate, the sign of the time to collision that [computeTTCCamera]
    derives follows the median ratio: it is not negative when the median
    exceeds 1 (the object grows in the image), it is not positive when
    the median is below 1, and when the median is exactly 1 and
    [1 / frameRate] is positive it is minus infinity. *)
Theorem medianTTC_sign (ratios : list float) (frameRate : float) :
  ratios ≠ [] → (0 <? frameRate)%float = true →
  let med := median_of (sort ratios) in
  ((1 <? med)%float = true → (medianTTC ratios frameRate <? 0)%float = false)
  ∧ ((med <? 1)%float = true → (0 <? medianTTC ratios frameRate)%float = false)
  ∧ (med = 1%float → (0 <? 1 / frameRate)%float = true →
     medianTTC ratios frameRate = neg_infinity).
Proof.
  intros Hne Hrate med. rewrite medianTTC_nonempty by done. fold med.
  pose proof (opp_sign _ _ (inv_pos_sign frameRate Hrate)) as HdT. simpl in HdT.
  split_and!.
  - intros Hlt. apply not_negative.
    destruct (div_sign _ _ _ _ HdT (sub_sign_lt 1 med Hlt)); auto.
  - intros Hlt. apply not_positive.
    destruct (div_sign _ _ _ _ HdT (sub_sign_gt 1 med Hlt)); auto.
  - intros -> Hpos. apply Prim2SF_inj.
    change (1 - 1)%float with 0%float.
    rewrite div_spec, opp_spec. change (Prim2SF 0) with (S754_zero false).
    change (Prim2SF neg_infinity) with (S754_infinity true).
    revert Hpos. rewrite ltb_spec. change (Prim2SF 0) with (S754_zero false).
    unfold SFltb, SFcompare.
    by destruct (Prim2SF (1 / frameRate)) as [s|[]| |[] m e].
Qed.

(** The ratios of the example shrink, and the result is not positive. *)
Lemma medianTTC_sign_witness :
  ratios_example ≠ []
  ∧ (0 <? 10)%float = true
  ∧ (median_of (sort ratios_example) <? 1)%float = true
  ∧ (0 <? medianTTC ratios_example 10)%float = false.
Proof.
  assert (Hne : ratios_example ≠ []) by done.
  assert (Hmed : (median_of (sort ratios_example) <? 1)%float = true)
    by (vm_compute; reflexivity).
  split_and!; [done..|].
  destruct (medianTTC_sign ratios_example 10 Hne eq_refl) as (_ & Hlow & _).
  by apply Hlow.
Defined.

(** ** computeTTCLidar *)

(** X14.  For every pair of sweeps and every frame rate, when the closest
    distances in the lane of the two cleaned sweeps are the same value
    (in particular when the two sweeps are the same, or when neither
    cleaned sweep has a point in the lane, so that both distances are the
    sentinel), the denominator [minXPrev - minXCurr] is zero and the time
    to collision that [computeTTCLidar] returns is an infinity or NaN,
    never a finite number. *)
Theorem computeTTCLidar_standstill `{KdTreeSound}
    (lidarPointsPrev lidarPointsCurr : list LidarPoint) (frameRate : float) :
  ∃ cleanedPrev cleanedCurr ttc,
    removeLidarOutlier lidarPointsPrev clusterTolerance = Some cleanedPrev
    ∧ removeLidarOutlier lidarPointsCurr clusterTolerance = Some cleanedCurr
    ∧ computeTTCLidar lidarPointsPrev lidarPointsCurr frameRate = Some ttc
    ∧ (closest_in_lane cleanedPrev = closest_in_lane cleanedCurr →
       Cxx.is_finite ttc = false)
    ∧ (lidarPointsPrev = lidarPointsCurr → Cxx.is_finite ttc = false)
    ∧ ((∀ p, p ∈ cleanedPrev → in_lane p = false) →
       (∀ p, p ∈ cleanedCurr → in_lane p = false) →
       Cxx.is_finite ttc = false).
Proof.
  destruct (removeLidarOutlier_ok lidarPointsPrev clusterTolerance)
    as (? & cleanedPrev & _ & _ & Hprev & _).
  destruct (removeLidarOutlier_ok lidarPointsCurr clusterTolerance)
    as (? & cleanedCurr & _ & _ & Hcurr & _).
  exists cleanedPrev, cleanedCurr. eexists. split_and!; [done..| | | |].
  - unfold computeTTCLidar. rewrite Hprev, Hcurr. reflexivity.
  - intros ->. apply div_by_zero_not_finite.
    destruct (sub_diag_zero (closest_in_lane cleanedCurr)) as [->| ->]; eauto.
  - intros ->. assert (cleanedPrev = cleanedCurr) as -> by congruence.
    apply div_by_zero_not_finite.
    destruct (sub_diag_zero (closest_in_lane cleanedCurr)) as [->| ->]; eauto.
  - intros Hp Hc.
    rewrite (closest_no_point cleanedPrev _ (closest_in_lane_spec _) Hp).
    rewrite (closest_no_point cleanedCurr _ (closest_in_lane_spec _) Hc).
    apply div_by_zero_not_finite. left. by exists false.
Qed.

(** The previous sweep against itself: the lead vehicle has not moved. *)
Lemma computeTTCLidar_standstill_witness :
  KdTreeSound ScanIndex.ops
  ∧ ∃ ttc,
      computeTTCLidar (K := ScanIndex.ops) sweep_prev sweep_prev 10 = Some ttc
      ∧ Cxx.is_finite ttc = false.
Proof.
  pose proof ScanIndex_sound as Hsound.
  split; [done|].
  destruct (computeTTCLidar_standstill (K := ScanIndex.ops) sweep_prev sweep_prev 10)
    as (cleanedPrev & cleanedCurr & ttc & _ & _ & Httc & _ & Hsame & _).
  exists ttc. split; [done|]. by apply Hsame.
Defined.

(** X15.  For every pair of sweeps and every positive frame rate, when the
    closest distance in the lane of the current cleaned sweep is positive,
    the sign of the result of [computeTTCLidar] follows the motion: it is
    not negative when the distance has shrunk since the previous sweep,
    and it is not positive when the distance has grown. *)
Theorem computeTTCLidar_sign `{KdTreeSound}
    (lidarPointsPrev lidarPointsCurr : list LidarPoint) (frameRate : float) :
  (0 <? frameRate)%float = true →
  ∃ cleanedPrev cleanedCurr ttc,
    removeLidarOutlier lidarPointsPrev clusterTolerance = Some cleanedPrev
    ∧ removeLidarOutlier lidarPointsCurr clusterTolerance = Some cleanedCurr
    ∧ computeTTCLidar lidarPointsPrev lidarPointsCurr frameRate = Some ttc
    ∧ let minXPrev := closest_in_lane cleanedPrev in
      let minXCurr := closest_in_lane cleanedCurr in
      (0 <? minXCurr)%float = true →
      ((minXCurr <? minXPrev)%float = true → (ttc <? 0)%float = false)
      ∧ ((minXPrev <? minXCurr)%float = true → (0 <? ttc)%float = false).
Proof.
  intros Hrate.
  destruct (removeLidarOutlier_ok lidarPointsPrev clusterTolerance)
    as (? & cleanedPrev & _ & _ & Hprev & _).
  destruct (removeLidarOutlier_ok lidarPointsCurr clusterTolerance)
    as (? & cleanedCurr & _ & _ & Hcurr & _).
  exists cleanedPrev, cleanedCurr. eexists. split_and!; [done..| |].
  - unfold computeTTCLidar. rewrite Hprev, Hcurr. reflexivity.
  - cbv zeta. intros Hpos.
    set (minXPrev := closest_in_lane cleanedPrev).
    set (minXCurr := closest_in_lane cleanedCurr).
    fold minXCurr in Hpos.
    pose proof (inv_pos_sign frameRate Hrate) as HdT.
    pose proof (pos_sign minXCurr Hpos) as Hx.
    destruct (mul_sign minXCurr (1 / frameRate) false false Hx HdT) as [Hn|Hn].
    + split; intros _.
      * apply not_negative. left. by apply div_nan_l.
      * apply not_positive. left. by apply div_nan_l.
    + split; intros Hlt.
      * apply not_negative.
        destruct (div_sign _ _ _ _ Hn (sub_sign_gt minXPrev minXCurr Hlt)); auto.
      * apply not_positive.
        destruct (div_sign _ _ _ _ Hn (sub_sign_lt minXPrev minXCurr Hlt)); auto.
Qed.

(** The two sweeps of the example: the vehicle ahead has come closer, and
    the time to collision is not negative. *)
Lemma computeTTCLidar_sign_witness :
  KdTreeSound ScanIndex.ops
  ∧ (0 <? 10)%float = true
  ∧ ∃ ttc,
      computeTTCLidar (K := ScanIndex.ops) sweep_prev sweep_curr 10 = Some ttc
      ∧ (ttc <? 0)%float = false.
Proof.
  pose proof ScanIndex_sound as Hsound.
  split_and!; [done..|].
  destruct (computeTTCLidar_sign (K := ScanIndex.ops) sweep_prev sweep_curr 10 eq_refl)
    as (cleanedPrev & cleanedCurr & ttc & Hprev & Hcurr & Httc & Hsign).
  exists ttc. split; [done|].
  assert (Ep : removeLidarOutlier (K := ScanIndex.ops) sweep_prev clusterTolerance
               = Some [lidar 10 0; lidar 10.05 0.05; lidar 10.02 (-0.04)]%float)
    by (vm_compute; reflexivity).
  assert (Ec : removeLidarOutlier (K := ScanIndex.ops) sweep_curr clusterTolerance
               = Some [lidar 8 0; lidar 8.05 0.05; lidar 8.02 (-0.04)]%float)
    by (vm_compute; reflexivity).
  rewrite Ep in Hprev. rewrite Ec in Hcurr.
  injection Hprev as <-. injection Hcurr as <-.
  apply Hsign; vm_compute; reflexivity.
Defined.

(** ** get_max and matchBoundingBoxes *)

(** X16.  For every map (in whatever order its entries are iterated),
    [get_max] has no result exactly when the map is empty, and otherwise
    it returns the first entry whose value is the greatest: an entry of
    the map, no entry has a greater value, and every entry before it has a
    smaller value. *)
Theorem get_max_first_greatest (x : std_map) :
  (get_max x = None ↔ x = [])
  ∧ ∀ r, get_max x = Some r →
      ∃ i, x !! i = Some r
           ∧ (∀ j e, x !! j = Some e → e.2 ≤ r.2)
           ∧ (∀ j e, (j < i)%nat → x !! j = Some e → e.2 < r.2).
Proof.
  split.
  - by destruct x.
  - intros r Hr. destruct x as [|e rest]; [done|]. injection Hr as <-.
    apply (max_fold_first rest [e] e 0%nat); [done| |intros; lia].
    intros [|j] e0 Hj; simplify_eq/=. lia.
Qed.

(** X17.  When every correspondence refers to keypoints of the two
    frames and the current regions times the correspondences are at most
    [INT_MAX] (so that no [m[currBox.boxID]++] overflows), the map that
    [matchBoundingBoxes] fills for a previous region holds, under the id
    of every current region that has a vote from it, the number of these
    votes, no entry for an id without a vote, and its keys in increasing
    order; votes for current regions that share an id are counted
    together, and the map is empty exactly when there is no vote. *)
Theorem tally_counts_votes
    (matches : list DMatch) (prevFrame currFrame : DataFrame) (prevBox : BoundingBox) :
  matches_in_range matches prevFrame currFrame →
  Z.of_nat (length (boundingBoxes currFrame) * length matches) ≤ Cxx.int_max →
  ∃ m,
    tally matches prevFrame currFrame prevBox = Some m
    ∧ keys_increasing m
    ∧ (∀ id, map_find id m
             = if decide (votes matches prevFrame currFrame prevBox id = 0)
               then None
               else Some (votes matches prevFrame currFrame prevBox id))
    ∧ (∀ id n, map_find id m = Some n → 1 ≤ n ≤ Cxx.int_max)
    ∧ (m = [] ↔ ∀ id, votes matches prevFrame currFrame prevBox id = 0).
Proof.
  intros Hr Hsize. eexists. split; [by apply tally_eq|].
  set (ids := vote_ids matches prevFrame currFrame prevBox).
  pose proof (counts_foldl ids [] [] counts_nil) as [Hs Hm]. simpl in Hs, Hm.
  assert (Hv : ∀ id, votes matches prevFrame currFrame prevBox id = occurrences id ids)
    by done.
  assert (Hlen : (length ids ≤ length (boundingBoxes currFrame) * length matches)%nat).
  { unfold ids, vote_ids.
    apply length_bind_le. intros currBox.
    pose proof (length_bind_le
      (λ mt, if casts_vote prevFrame currFrame prevBox currBox mt
             then [boxID currBox] else []) 1 matches) as Hle.
    rewrite Nat.mul_1_r in Hle. apply Hle.
    intros mt. destruct (casts_vote _ _ _ _ _); simpl; lia. }
  assert (Hocc : ∀ id, occurrences id ids ≤ Cxx.int_max).
  { intros id. unfold occurrences.
    pose proof (length_filter (λ id', id' = id) ids). lia. }
  split_and!; [done| | |].
  - intros id. rewrite Hv. apply Hm.
  - intros id n Hn. rewrite Hm in Hn. pose proof (occurrences_nonneg id ids).
    specialize (Hocc id). case_decide; [done|]. simplify_eq. lia.
  - split.
    + intros E id. rewrite Hv. specialize (Hm id). rewrite E in Hm. simpl in Hm.
      by case_decide.
    + intros Hnone. destruct (foldl vote [] ids) as [|[id n] m] eqn:E; [done|].
      specialize (Hm id). simpl in Hm. rewrite decide_True in Hm by done.
      rewrite <- Hv, Hnone in Hm. by rewrite decide_True in Hm.
Qed.

(** The region of the previous frame: one vote for each of the ids 3 and
    5. *)
Lemma tally_counts_votes_witness :
  matches_in_range one_match frame_prev frame_curr
  ∧ Z.of_nat (length (boundingBoxes frame_curr) * length one_match) ≤ Cxx.int_max
  ∧ tally one_match frame_prev frame_curr (region 1 0 0 100 100) = Some [(3, 1); (5, 1)].
Proof.
  assert (Hr : matches_in_range one_match frame_prev frame_curr).
  { repeat constructor; by eexists. }
  assert (Hsize : Z.of_nat (length (boundingBoxes frame_curr) * length one_match)
                  ≤ Cxx.int_max) by (by vm_compute).
  split_and!; [done..|].
  destruct (tally_counts_votes one_match frame_prev frame_curr (region 1 0 0 100 100)
              Hr Hsize) as (m & Hm & _).
  rewrite Hm. f_equal. vm_compute in Hm. by injection Hm as <-.
Defined.

(** X18.  Whenever [matchBoundingBoxes] returns, the map it returns has,
    for every previous region, an entry whose value is the id of a region
    of the current frame; the entries of the incoming map under other
    keys are unchanged (the map is extended, not rebuilt); and the keys
    are still in increasing order. *)
Theorem matchBoundingBoxes_frame
    (matches : list DMatch) (bbBestMatches : std_map) (prevFrame currFrame : DataFrame)
    (out : std_map) :
  matchBoundingBoxes matches bbBestMatches prevFrame currFrame = Some out →
  (∀ prevBox, prevBox ∈ boundingBoxes prevFrame →
     ∃ id currBox, map_find (boxID prevBox) out = Some id
                   ∧ currBox ∈ boundingBoxes currFrame ∧ boxID currBox = id)
  ∧ (∀ k, k ∉ (boxID <$> boundingBoxes prevFrame) →
       map_find k out = map_find k bbBestMatches)
  ∧ (keys_increasing bbBestMatches → keys_increasing out).
Proof.
  intros Hout.
  destruct (matchBoundingBoxes_written _ _ _ _ _ _ Hout) as (Hin & Hother & Hinc).
  split_and!; [|done..].
  intros prevBox Hb. destruct (Hin prevBox Hb) as (id & Hid & Hcur).
  apply list_elem_of_fmap in Hcur as (currBox & -> & Hcur). eauto.
Qed.

(** The two frames of the example, with an entry for another region
    already in the map. *)
Lemma matchBoundingBoxes_frame_witness :
  matchBoundingBoxes one_match [(0, 9)] frame_prev frame_curr = Some [(0, 9); (1, 3)]
  ∧ (∀ prevBox, prevBox ∈ boundingBoxes frame_prev →
       ∃ id currBox, map_find (boxID prevBox) [(0, 9); (1, 3)] = Some id
                     ∧ currBox ∈ boundingBoxes frame_curr ∧ boxID currBox = id)
  ∧ (∀ k, k ∉ (boxID <$> boundingBoxes frame_prev) →
       map_find k [(0, 9); (1, 3)] = map_find k [(0, 9)])
  ∧ (keys_increasing [(0, 9)] → keys_increasing [(0, 9); (1, 3)]).
Proof.
  assert (Hout : matchBoundingBoxes one_match [(0, 9)] frame_prev frame_curr
                 = Some [(0, 9); (1, 3)]) by (vm_compute; reflexivity).
  split; [done|].
  exact (matchBoundingBoxes_frame one_match [(0, 9)] frame_prev frame_curr _ Hout).
Defined.

(** X19.  When every correspondence refers to keypoints of the two
    frames, [matchBoundingBoxes] returns exactly when every previous
    region has a vote (a correspondence with its previous keypoint in the
    region and its current keypoint in some current region); a single
    previous region without a vote leaves the whole call without a
    result, whatever the other regions are. *)
Theorem matchBoundingBoxes_defined
    (matches : list DMatch) (bbBestMatches : std_map) (prevFrame currFrame : DataFrame) :
  matches_in_range matches prevFrame currFrame →
  is_Some (matchBoundingBoxes matches bbBestMatches prevFrame currFrame)
  ↔ ∀ prevBox, prevBox ∈ boundingBoxes prevFrame →
      ∃ id, 0 < votes matches prevFrame currFrame prevBox id.
Proof.
  intros Hr. unfold matchBoundingBoxes. revert bbBestMatches.
  induction (boundingBoxes prevFrame) as [|b prevBoxes IH]; intros best.
  - split; [|by eexists]. intros _ b Hb. by apply elem_of_nil in Hb.
  - cbn [foldlM]. rewrite tally_eq by done. cbn [mbind option_bind].
    set (ids := vote_ids matches prevFrame currFrame b).
    pose proof (counts_foldl ids [] [] counts_nil) as Hc. simpl in Hc.
    destruct (get_max (foldl vote [] ids)) as [mx|] eqn:Hmx; cbn [mbind option_bind].
    + rewrite IH. split.
      * intros Hall b' [->|Hb']%elem_of_cons; [|by apply Hall].
        destruct ids as [|id ids'] eqn:E; [done|].
        exists id. apply votes_elem. fold ids. rewrite E. by left.
      * intros Hall b' Hb'. apply Hall. by right.
    + split; [by intros [? ?]|]. intros Hall. exfalso.
      destruct (Hall b) as [id Hid]; [by left|].
      destruct (foldl vote [] ids) as [|e m] eqn:E; [|done].
      apply counts_empty in Hc. unfold votes in Hid. fold ids in Hid.
      rewrite Hc in Hid. simpl in Hid. lia.
Qed.

(** The frame with a region away from the keypoint: the call has no
    result, and the region has no vote. *)
Lemma matchBoundingBoxes_defined_witness :
  matches_in_range one_match frame_prev_orphan frame_curr
  ∧ ¬ is_Some (matchBoundingBoxes one_match [] frame_prev_orphan frame_curr)
  ∧ ¬ ∀ prevBox, prevBox ∈ boundingBoxes frame_prev_orphan →
        ∃ id, 0 < votes one_match frame_prev_orphan frame_curr prevBox id.
Proof.
  assert (Hr : matches_in_range one_match frame_prev_orphan frame_curr).
  { repeat constructor; by eexists. }
  assert (Hnone : ¬ is_Some (matchBoundingBoxes one_match [] frame_prev_orphan frame_curr)).
  { intros [out Hout]. vm_compute in Hout. done. }
  split_and!; [done..|].
  intros Hall. apply Hnone.
  by apply (matchBoundingBoxes_defined one_match [] frame_prev_orphan frame_curr Hr).
Defined.

(** ** removeLidarOutlier *)

(** X20.  For every lidar point list and tolerance, the list that
    [removeLidarOutlier] returns is contained in the input as a multiset
    (no point is returned more often than it occurs in the input), so it
    is not longer than the input; and it is not empty unless the input
    is. *)
Theorem removeLidarOutlier_submultiset `{KdTreeSound}
    (points : list LidarPoint) (clusterTolerance : float) :
  ∃ out,
    removeLidarOutlier points clusterTolerance = Some out
    ∧ out ⊆+ points
    ∧ (length out ≤ length points)%nat
    ∧ (points ≠ [] → out ≠ []).
Proof.
  destruct (removeLidarOutlier_ok points clusterTolerance)
    as (clusters & out & Hcl & P & Hout & Hsel).
  exists out. split; [done|].
  assert (Hsub : out ⊆+ points).
  { destruct Hsel as [[_ ->]|(k & c & Hfl & Hpts)]; [apply submseteq_nil_l|].
    assert (Hin : c ∈ clusters).
    { eapply list_elem_of_lookup_2. apply (fl_at _ _ _ Hfl). }
    eapply cluster_points_submseteq; [| |done].
    - by eapply (proj1 (Forall_forall _ _) (part_once _ _ P)).
    - intros i Hi.
      assert (Hc : i ∈ concat clusters) by (apply elem_of_concat; eauto).
      rewrite (part_perm _ _ P), elem_of_seq in Hc. lia. }
  split_and!; [done|by apply submseteq_length|].
  intros Hne ->. destruct Hsel as [[-> _]|(k & c & Hfl & Hpts)].
  - destruct points as [|p points]; [done|].
    destruct (part_cover _ _ P 0%nat) as (k & c & Hk & _); [simpl; lia|done].
  - apply Forall2_nil_inv_r in Hpts as ->.
    assert (Hin : [] ∈ clusters).
    { eapply list_elem_of_lookup_2. apply (fl_at _ _ _ Hfl). }
    by apply (proj1 (Forall_forall _ _) (part_nonempty _ _ P)) in Hin.
Qed.

(** The previous sweep, cleaned with the scanning index. *)
Lemma removeLidarOutlier_submultiset_witness :
  KdTreeSound ScanIndex.ops
  ∧ ∃ out,
      removeLidarOutlier (K := ScanIndex.ops) sweep_prev clusterTolerance = Some out
      ∧ out ⊆+ sweep_prev
      ∧ (length out ≤ length sweep_prev)%nat
      ∧ (sweep_prev ≠ [] → out ≠ []).
Proof.
  pose proof ScanIndex_sound as Hsound.
  split; [done|].
  apply (removeLidarOutlier_submultiset (K := ScanIndex.ops)).
Defined.

(** X21.  When no two points are neighbours (the search of the tree that
    [removeLidarOutlier] builds reports, around every point, that point
    alone), every cluster is a single point and [removeLidarOutlier]
    returns the first point of the input and nothing else. *)
Theorem removeLidarOutlier_isolated `{K : KdTreeOps}
    (points : list LidarPoint) (clusterTolerance : float) :
  (∀ i point j,
     (coordinates <$> points) !! i = Some point →
     j ∈ kd_search (insert_points kd_new 0 (coordinates <$> points))
           point clusterTolerance →
     j = i) →
  removeLidarOutlier points clusterTolerance = Some (take 1 points).
Proof.
  intros Hiso. unfold removeLidarOutlier.
  rewrite (euclideanCluster_singletons _ _ _ Hiso). cbn [mbind option_bind].
  rewrite length_fmap. destruct points as [|p points]; [done|].
  cbn [length seq fmap list_fmap foldlM].
  assert (Hstep : select_cluster (p :: points) [] [0%nat] = Some [p]) by done.
  rewrite Hstep. cbn [mbind option_bind].
  rewrite <- fmap_S_seq, <- list_fmap_compose.
  pose proof (select_singletons (p :: points) [p] 1 (length points)) as Hs.
  rewrite <- (fmap_S_seq 0) in Hs. rewrite <- list_fmap_compose in Hs.
  apply Hs; simpl; lia.
Qed.

(** The sparse sweep: only its first return survives. *)
Lemma removeLidarOutlier_isolated_witness :
  (∀ i point j,
     (coordinates <$> sweep_sparse) !! i = Some point →
     j ∈ kd_search
           (insert_points (K := ScanIndex.ops) kd_new 0 (coordinates <$> sweep_sparse))
           point clusterTolerance →
     j = i)
  ∧ removeLidarOutlier (K := ScanIndex.ops) sweep_sparse clusterTolerance
    = Some [lidar 10 0].
Proof.
  assert (Hiso : ∀ i point j,
     (coordinates <$> sweep_sparse) !! i = Some point →
     j ∈ kd_search
           (insert_points (K := ScanIndex.ops) kd_new 0 (coordinates <$> sweep_sparse))
           point clusterTolerance →
     j = i).
  { intros i point j Hp Hj.
    destruct i as [|[|[|i]]]; try done; injection Hp as <-;
      vm_compute in Hj;
      repeat (apply elem_of_cons in Hj as [->|Hj]);
      try (by apply elem_of_nil in Hj); reflexivity. }
  split; [done|].
  exact (removeLidarOutlier_isolated (K := ScanIndex.ops) sweep_sparse clusterTolerance Hiso).
Defined.

(** X22.  When every point is reached from the first point by a chain of
    searches in the tree that [removeLidarOutlier] builds, nothing is
    rejected: the result is a rearrangement of the input. *)
Theorem removeLidarOutlier_connected `{KdTreeSound}
    (points : list LidarPoint) (clusterTolerance : float) :
  (∀ j, (j < length points)%nat →
     rtc (neighbour (coordinates <$> points)
            (insert_points kd_new 0 (coordinates <$> points)) clusterTolerance)
         0%nat j) →
  ∃ out, removeLidarOutlier points clusterTolerance = Some out ∧ out ≡ₚ points.
Proof.
  intros Hreach.
  destruct (removeLidarOutlier_ok points clusterTolerance)
    as (clusters & out & Hcl & P & Hout & Hsel).
  destruct (euclideanCluster_grown (coordinates <$> points)
              (insert_points kd_new 0 (coordinates <$> points)) clusterTolerance)
    as (clusters' & Hcl' & _ & G).
  { intros i j. apply built_neighbours_in_range. }
  assert (clusters' = clusters) as -> by congruence.
  exists out. split; [done|].
  destruct points as [|p0 points'] eqn:E.
  { destruct Hsel as [[_ ->]|(k & c & Hfl & Hpts)]; [done|].
    pose proof (fl_at _ _ _ Hfl) as Hk.
    assert (Hin : c ∈ clusters) by (by eapply list_elem_of_lookup_2).
    pose proof (proj1 (Forall_forall _ _) (part_nonempty _ _ P) c Hin) as Hne.
    destruct c as [|i c]; [done|].
    assert (Hi : i ∈ concat clusters).
    { apply elem_of_concat. exists (i :: c). split; [by left|done]. }
    rewrite (part_perm _ _ P) in Hi. by apply elem_of_nil in Hi. }
  rewrite <- E in *.
  assert (Hne : points ≠ []) by (by rewrite E).
  assert (Hne' : coordinates <$> points ≠ []) by (by rewrite E).
  destruct Hsel as [[-> _]|(k & c & Hfl & Hpts)].
  { destruct (part_cover _ _ P 0%nat) as (k & c & Hk & _); [rewrite E; simpl; lia|done]. }
  rewrite <- (length_fmap coordinates) in P.
  destruct (first_cluster_seed _ _ _ _ P G Hne') as (rest & Hc0).
  rewrite length_fmap in P.
  assert (Hall : ∀ j, (j < length points)%nat → j ∈ 0%nat :: rest).
  { intros j Hj. eapply first_cluster_reach; [done..|by left|by apply Hreach]. }
  assert (Hin : c ∈ clusters).
  { eapply list_elem_of_lookup_2. apply (fl_at _ _ _ Hfl). }
  assert (Hsub : out ⊆+ points).
  { eapply cluster_points_submseteq; [| |done].
    - by eapply (proj1 (Forall_forall _ _) (part_once _ _ P)).
    - intros i Hi.
      assert (Hc : i ∈ concat clusters) by (apply elem_of_concat; eauto).
      rewrite (part_perm _ _ P), elem_of_seq in Hc. lia. }
  apply submseteq_length_Permutation; [done|].
  rewrite <- (Forall2_length _ _ _ Hpts).
  pose proof (fl_max _ _ _ Hfl _ _ Hc0) as Hmax.
  assert (Hseq : seq 0 (length points) ⊆+ 0%nat :: rest).
  { apply NoDup_submseteq; [apply NoDup_seq|].
    intros j Hj%elem_of_seq. apply Hall. lia. }
  apply submseteq_length in Hseq. rewrite length_seq in Hseq. lia.
Qed.

(** The dense sweep: every return is near the first one, and all are
    kept. *)
Lemma removeLidarOutlier_connected_witness :
  KdTreeSound ScanIndex.ops
  ∧ (∀ j, (j < length sweep_dense)%nat →
       rtc (neighbour (coordinates <$> sweep_dense)
              (insert_points (K := ScanIndex.ops) kd_new 0 (coordinates <$> sweep_dense))
              clusterTolerance)
           0%nat j)
  ∧ ∃ out,
      removeLidarOutlier (K := ScanIndex.ops) sweep_dense clusterTolerance = Some out
      ∧ out ≡ₚ sweep_dense.
Proof.
  pose proof ScanIndex_sound as Hsound.
  assert (Hreach : ∀ j, (j < length sweep_dense)%nat →
       rtc (neighbour (coordinates <$> sweep_dense)
              (insert_points (K := ScanIndex.ops) kd_new 0 (coordinates <$> sweep_dense))
              clusterTolerance)
           0%nat j).
  { intros j Hj. apply rtc_once. eexists. split; [reflexivity|].
    destruct j as [|[|[|j]]]; [vm_compute; repeat constructor..|simpl in Hj; lia]. }
  split_and!; [done..|].
  exact (removeLidarOutlier_connected (K := ScanIndex.ops) sweep_dense clusterTolerance Hreach).
Defined.

(** X23.  When the search of the tree that [removeLidarOutlier] builds is
    symmetric on the points, what [removeLidarOutlier] keeps of a
    non-empty input is one whole connected component of the neighbour
    graph, the first of the largest ones: the indices of the points it
    returns are exactly the indices that a chain of searches reaches from
    any one of them. *)
Theorem removeLidarOutlier_component `{KdTreeSound}
    (points : list LidarPoint) (clusterTolerance : float) :
  (∀ i j,
     neighbour (coordinates <$> points)
       (insert_points kd_new 0 (coordinates <$> points)) clusterTolerance i j →
     neighbour (coordinates <$> points)
       (insert_points kd_new 0 (coordinates <$> points)) clusterTolerance j i) →
  points ≠ [] →
  ∃ clusters k c out,
    euclideanCluster (coordinates <$> points)
      (insert_points kd_new 0 (coordinates <$> points)) clusterTolerance
    = Some clusters
    ∧ removeLidarOutlier points clusterTolerance = Some out
    ∧ first_largest clusters k c
    ∧ Forall2 (λ i p, points !! i = Some p) c out
    ∧ ∀ i j, i ∈ c →
        j ∈ c
        ↔ rtc (neighbour (coordinates <$> points)
                 (insert_points kd_new 0 (coordinates <$> points)) clusterTolerance)
              i j.
Proof.
  intros Hsym Hne.
  destruct (removeLidarOutlier_ok points clusterTolerance)
    as (clusters & out & Hcl & P & Hout & Hsel).
  destruct (euclideanCluster_grown (coordinates <$> points)
              (insert_points kd_new 0 (coordinates <$> points)) clusterTolerance)
    as (clusters' & Hcl' & P' & G).
  { intros i j. apply built_neighbours_in_range. }
  assert (clusters' = clusters) as -> by congruence.
  destruct Hsel as [[-> _]|(k & c & Hfl & Hpts)].
  { destruct points as [|p points]; [done|].
    destruct (part_cover _ _ P 0%nat) as (k & c & Hk & _); [simpl; lia|done]. }
  exists clusters, k, c, out. split_and!; [done..|].
  intros i j Hic. apply (cluster_component _ _ _ _ P' G Hsym c); [|done].
  eapply list_elem_of_lookup_2. apply (fl_at _ _ _ Hfl).
Qed.

(** The previous sweep: the three returns of the vehicle ahead are kept,
    and they are what the searches reach from any of them. *)
Lemma removeLidarOutlier_component_witness :
  KdTreeSound ScanIndex.ops
  ∧ sweep_prev ≠ []
  ∧ ∃ clusters k c out,
      euclideanCluster (coordinates <$> sweep_prev)
        (insert_points (K := ScanIndex.ops) kd_new 0 (coordinates <$> sweep_prev))
        clusterTolerance
      = Some clusters
      ∧ removeLidarOutlier (K := ScanIndex.ops) sweep_prev clusterTolerance = Some out
      ∧ first_largest clusters k c
      ∧ Forall2 (λ i p, sweep_prev !! i = Some p) c out
      ∧ ∀ i j, i ∈ c →
          j ∈ c
          ↔ rtc (neighbour (coordinates <$> sweep_prev)
                   (insert_points (K := ScanIndex.ops) kd_new 0
                      (coordinates <$> sweep_prev))
                   clusterTolerance)
                i j.
Proof.
  pose proof ScanIndex_sound as Hsound.
  assert (Hsym : ∀ i j,
     neighbour (coordinates <$> sweep_prev)
       (insert_points (K := ScanIndex.ops) kd_new 0 (coordinates <$> sweep_prev))
       clusterTolerance i j →
     neighbour (coordinates <$> sweep_prev)
       (insert_points (K := ScanIndex.ops) kd_new 0 (coordinates <$> sweep_prev))
       clusterTolerance j i).
  { intros i j (point & Hp & Hj).
    destruct i as [|[|[|[|i]]]]; try done; injection Hp as <-;
      vm_compute in Hj;
      repeat (apply elem_of_cons in Hj as [->|Hj]);
      try (by apply elem_of_nil in Hj);
      (eexists; split; [reflexivity|]; vm_compute; repeat constructor). }
  assert (Hne : sweep_prev ≠ []) by done.
  split_and!; [done..|].
  exact (removeLidarOutlier_component (K := ScanIndex.ops) sweep_prev clusterTolerance
           Hsym Hne).
Defined.

(** ** clusterHelper and euclideanCluster *)

(** X24.  Whenever the neighbours the tree reports are indices of the
    point list, every cluster that [euclideanCluster] returns starts
    with its smallest index (the index at which the [while] loop found
    the cluster), the clusters come in the increasing order of these
    first indices, and the first cluster starts with the index 0. *)
Theorem euclideanCluster_seed_order `{K : KdTreeOps}
    (points : list (list float)) (tree : KdTree) (distanceTol : float) :
  (∀ i j, neighbour points tree distanceTol i j → (j < length points)%nat) →
  ∃ clusters,
    euclideanCluster points tree distanceTol = Some clusters
    ∧ (∀ c, c ∈ clusters →
         ∃ seed rest, c = seed :: rest ∧ Forall (λ j, (seed < j)%nat) rest)
    ∧ (∀ k1 k2 c1 c2 s1 s2,
         (k1 < k2)%nat → clusters !! k1 = Some c1 → clusters !! k2 = Some c2 →
         head c1 = Some s1 → head c2 = Some s2 → (s1 < s2)%nat)
    ∧ (points ≠ [] → ∃ rest, clusters !! 0%nat = Some (0%nat :: rest)).
Proof.
  intros Hrange.
  destruct (euclideanCluster_grown points tree distanceTol Hrange)
    as (clusters & Hc & P & G).
  exists clusters. split_and!.
  - done.
  - apply (cg_seeded _ _ _ _ G).
  - apply (cg_seeds_increase _ _ _ _ G).
  - by eapply first_cluster_seed.
Qed.

(** The previous sweep under the scanning index. *)
Lemma euclideanCluster_seed_order_witness :
  (∀ i j,
     neighbour (coordinates <$> sweep_prev)
       (insert_points (K := ScanIndex.ops) kd_new 0 (coordinates <$> sweep_prev))
       clusterTolerance i j →
     (j < length (coordinates <$> sweep_prev))%nat)
  ∧ ∃ clusters,
      euclideanCluster (coordinates <$> sweep_prev)
        (insert_points (K := ScanIndex.ops) kd_new 0 (coordinates <$> sweep_prev))
        clusterTolerance = Some clusters
      ∧ (∀ c, c ∈ clusters →
           ∃ seed rest, c = seed :: rest ∧ Forall (λ j, (seed < j)%nat) rest)
      ∧ (∀ k1 k2 c1 c2 s1 s2,
           (k1 < k2)%nat → clusters !! k1 = Some c1 → clusters !! k2 = Some c2 →
           head c1 = Some s1 → head c2 = Some s2 → (s1 < s2)%nat)
      ∧ (coordinates <$> sweep_prev ≠ [] →
         ∃ rest, clusters !! 0%nat = Some (0%nat :: rest)).
Proof.
  pose proof ScanIndex_sound as Hsound.
  split.
  - intros i j. apply built_neighbours_in_range.
  - apply (euclideanCluster_seed_order (K := ScanIndex.ops)).
    intros i j. apply built_neighbours_in_range.
Defined.

(** X25.  Whenever the neighbours the tree reports are indices of the
    point list, the clusters of [euclideanCluster] are closed under the
    search: an index that the tree reports around a member of a cluster
    lies in that cluster or in a cluster returned before it. *)
Theorem euclideanCluster_closed `{K : KdTreeOps}
    (points : list (list float)) (tree : KdTree) (distanceTol : float) :
  (∀ i j, neighbour points tree distanceTol i j → (j < length points)%nat) →
  ∃ clusters,
    euclideanCluster points tree distanceTol = Some clusters
    ∧ ∀ k c a point j,
        clusters !! k = Some c → a ∈ c →
        points !! a = Some point → j ∈ kd_search tree point distanceTol →
        ∃ k' c', (k' ≤ k)%nat ∧ clusters !! k' = Some c' ∧ j ∈ c'.
Proof.
  intros Hrange.
  destruct (euclideanCluster_grown points tree distanceTol Hrange)
    as (clusters & Hc & _ & [_ _ _ C]).
  exists clusters. split; [done|].
  intros k c a point j Hk Ha Hp Hj. apply (C k c a j Hk Ha). by exists point.
Qed.

Lemma euclideanCluster_closed_witness :
  (∀ i j,
     neighbour (coordinates <$> sweep_prev)
       (insert_points (K := ScanIndex.ops) kd_new 0 (coordinates <$> sweep_prev))
       clusterTolerance i j →
     (j < length (coordinates <$> sweep_prev))%nat)
  ∧ ∃ clusters,
      euclideanCluster (coordinates <$> sweep_prev)
        (insert_points (K := ScanIndex.ops) kd_new 0 (coordinates <$> sweep_prev))
        clusterTolerance = Some clusters
      ∧ ∀ k c a point j,
          clusters !! k = Some c → a ∈ c →
          (coordinates <$> sweep_prev) !! a = Some point →
          j ∈ kd_search
                (insert_points (K := ScanIndex.ops) kd_new 0 (coordinates <$> sweep_prev))
                point clusterTolerance →
          ∃ k' c', (k' ≤ k)%nat ∧ clusters !! k' = Some c' ∧ j ∈ c'.
Proof.
  pose proof ScanIndex_sound as Hsound.
  split.
  - intros i j. apply built_neighbours_in_range.
  - apply (euclideanCluster_closed (K := ScanIndex.ops)).
    intros i j. apply built_neighbours_in_range.
Defined.

(** X26.  Whenever the neighbours the tree reports are indices of the
    point list, every cluster of [euclideanCluster] is connected: each of
    its members is reached from its first index by a chain of searches,
    every step of which goes from a member to an index the tree reports
    around it and stays in the cluster. *)
Theorem euclideanCluster_connected `{K : KdTreeOps}
    (points : list (list float)) (tree : KdTree) (distanceTol : float) :
  (∀ i j, neighbour points tree distanceTol i j → (j < length points)%nat) →
  ∃ clusters,
    euclideanCluster points tree distanceTol = Some clusters
    ∧ ∀ c, c ∈ clusters →
        ∃ seed rest, c = seed :: rest
          ∧ ∀ a, a ∈ c → rtc (linked points tree distanceTol c) seed a.
Proof.
  intros Hrange.
  destruct (euclideanCluster_grown points tree distanceTol Hrange)
    as (clusters & Hc & _ & [S1 _ C1 _]).
  exists clusters. split; [done|].
  intros c Hin. destruct (S1 c Hin) as (seed & rest & -> & _).
  exists seed, rest. split; [done|]. by apply C1.
Qed.

Lemma euclideanCluster_connected_witness :
  (∀ i j,
     neighbour (coordinates <$> sweep_prev)
       (insert_points (K := ScanIndex.ops) kd_new 0 (coordinates <$> sweep_prev))
       clusterTolerance i j →
     (j < length (coordinates <$> sweep_prev))%nat)
  ∧ ∃ clusters,
      euclideanCluster (coordinates <$> sweep_prev)
        (insert_points (K := ScanIndex.ops) kd_new 0 (coordinates <$> sweep_prev))
        clusterTolerance = Some clusters
      ∧ ∀ c, c ∈ clusters →
          ∃ seed rest, c = seed :: rest
            ∧ ∀ a, a ∈ c →
                rtc (linked (coordinates <$> sweep_prev)
                       (insert_points (K := ScanIndex.ops) kd_new 0
                          (coordinates <$> sweep_prev))
                       clusterTolerance c) seed a.
Proof.
  pose proof ScanIndex_sound as Hsound.
  split.
  - intros i j. apply built_neighbours_in_range.
  - apply (euclideanCluster_connected (K := ScanIndex.ops)).
    intros i j. apply built_neighbours_in_range.
Defined.

(** X27.  Whenever the neighbours the tree reports are indices of the
    point list and the search is symmetric on the points (when it reports
    [j] around the point [i] it reports [i] around the point [j]), the
    clusters of [euclideanCluster] are the connected components of the
    neighbour graph: two indices lie in the same cluster exactly when a
    chain of searches leads from one to the other. *)
Theorem euclideanCluster_components `{K : KdTreeOps}
    (points : list (list float)) (tree : KdTree) (distanceTol : float) :
  (∀ i j, neighbour points tree distanceTol i j → (j < length points)%nat) →
  (∀ i j, neighbour points tree distanceTol i j → neighbour points tree distanceTol j i) →
  ∃ clusters,
    euclideanCluster points tree distanceTol = Some clusters
    ∧ ∀ i j, (i < length points)%nat →
        (∃ c, c ∈ clusters ∧ i ∈ c ∧ j ∈ c)
        ↔ rtc (neighbour points tree distanceTol) i j.
Proof.
  intros Hrange Hsym.
  destruct (euclideanCluster_grown points tree distanceTol Hrange)
    as (clusters & Hc & P & G).
  exists clusters. split; [done|].
  intros i j Hi. split.
  - intros (c & Hin & Hic & Hjc). by apply (cluster_component _ _ _ _ P G Hsym c).
  - intros Hr. destruct (part_cover _ _ P i Hi) as (k & c & Hk & Hic).
    assert (Hin : c ∈ clusters) by (by eapply list_elem_of_lookup_2).
    exists c. split_and!; [done..|].
    by apply (cluster_component _ _ _ _ P G Hsym c i).
Qed.

Lemma euclideanCluster_components_witness :
  (∀ i j,
     neighbour (coordinates <$> sweep_prev)
       (insert_points (K := ScanIndex.ops) kd_new 0 (coordinates <$> sweep_prev))
       clusterTolerance i j →
     (j < length (coordinates <$> sweep_prev))%nat)
  ∧ (∀ i j,
       neighbour (coordinates <$> sweep_prev)
         (insert_points (K := ScanIndex.ops) kd_new 0 (coordinates <$> sweep_prev))
         clusterTolerance i j →
       neighbour (coordinates <$> sweep_prev)
         (insert_points (K := ScanIndex.ops) kd_new 0 (coordinates <$> sweep_prev))
         clusterTolerance j i)
  ∧ ∃ clusters,
      euclideanCluster (coordinates <$> sweep_prev)
        (insert_points (K := ScanIndex.ops) kd_new 0 (coordinates <$> sweep_prev))
        clusterTolerance = Some clusters
      ∧ ∀ i j, (i < length (coordinates <$> sweep_prev))%nat →
          (∃ c, c ∈ clusters ∧ i ∈ c ∧ j ∈ c)
          ↔ rtc (neighbour (coordinates <$> sweep_prev)
                   (insert_points (K := ScanIndex.ops) kd_new 0
                      (coordinates <$> sweep_prev))
                   clusterTolerance) i j.
Proof.
  pose proof ScanIndex_sound as Hsound.
  assert (Hsym : ∀ i j,
     neighbour (coordinates <$> sweep_prev)
       (insert_points (K := ScanIndex.ops) kd_new 0 (coordinates <$> sweep_prev))
       clusterTolerance i j →
     neighbour (coordinates <$> sweep_prev)
       (insert_points (K := ScanIndex.ops) kd_new 0 (coordinates <$> sweep_prev))
       clusterTolerance j i).
  { intros i j (point & Hp & Hj).
    destruct i as [|[|[|[|i]]]]; try done; injection Hp as <-;
      vm_compute in Hj;
      repeat (apply elem_of_cons in Hj as [->|Hj]);
      try (by apply elem_of_nil in Hj);
      (eexists; split; [reflexivity|]; vm_compute; repeat constructor). }
  split_and!.
  - intros i j. apply built_neighbours_in_range.
  - done.
  - apply (euclideanCluster_components (K := ScanIndex.ops)); [|done].
    intros i j. apply built_neighbours_in_range.
Defined.

(** X28.  When the search around every point reports that point alone (or
    nothing), [euclideanCluster] returns one cluster per point, the
    singletons [[0], [1], ...] in the order of the points. *)
Theorem euclideanCluster_isolated `{K : KdTreeOps}
    (points : list (list float)) (tree : KdTree) (distanceTol : float) :
  (∀ i point j, points !! i = Some point → j ∈ kd_search tree point distanceTol → j = i) →
  euclideanCluster points tree distanceTol
  = Some ((λ i, [i]) <$> seq 0 (length points)).
Proof. apply euclideanCluster_singletons. Qed.

(** The sparse sweep: three returns, three clusters. *)
Lemma euclideanCluster_isolated_witness :
  (∀ i point j,
     (coordinates <$> sweep_sparse) !! i = Some point →
     j ∈ kd_search
           (insert_points (K := ScanIndex.ops) kd_new 0 (coordinates <$> sweep_sparse))
           point clusterTolerance →
     j = i)
  ∧ euclideanCluster (coordinates <$> sweep_sparse)
      (insert_points (K := ScanIndex.ops) kd_new 0 (coordinates <$> sweep_sparse))
      clusterTolerance
    = Some [[0]; [1]; [2]]%nat.
Proof.
  assert (Hiso : ∀ i point j,
     (coordinates <$> sweep_sparse) !! i = Some point →
     j ∈ kd_search
           (insert_points (K := ScanIndex.ops) kd_new 0 (coordinates <$> sweep_sparse))
           point clusterTolerance →
     j = i).
  { intros i point j Hp Hj.
    destruct i as [|[|[|i]]]; try done; injection Hp as <-;
      vm_compute in Hj;
      repeat (apply elem_of_cons in Hj as [->|Hj]);
      try (by apply elem_of_nil in Hj); reflexivity. }
  split; [done|].
  exact (euclideanCluster_isolated (K := ScanIndex.ops) _ _ _ Hiso).
Defined.
